(** * ausock: a Unix-socket audio bridge for baresip

    A shallow embedding of [src/ext/ausock/ausock.c].  The module keeps one
    connected client descriptor in a mutex-protected slot; two paced worker
    loops ([src_thread], [play_thread]) move fixed-size S16LE frames between
    the socket and the host pipeline.

    Modelling conventions.
    - C integers are [Z] with the wrap-around of their width written out
      ([wrap32] for [uint32_t]/[unsigned], [wrap64] for [uint64_t]/[size_t]
      on an LP64 target, [to_int] for the conversion to [int]).
    - The module-level variables and the part of the kernel descriptor table
      the code can observe form the record [world].
    - Everything the operating system or the host pipeline answers (accept,
      poll, read, write, clock_gettime, the callbacks) is an explicit
      argument; every call the code makes is recorded as an [event]. *)

From Stdlib Require Import ZArith Lia List Sorted Init.Byte.
From stdpp Require Import base tactics option list gmap sets.
Import ListNotations.
Local Open Scope Z_scope.

(** ** Machine integers *)

Definition wrap32 (x : Z) : Z := x mod 2 ^ 32.
Definition wrap64 (x : Z) : Z := x mod 2 ^ 64.

(** Conversion of an unsigned value to [int] (two's complement, 32 bits). *)
Definition to_int (x : Z) : Z :=
  let y := wrap32 x in if y <? 2 ^ 31 then y else y - 2 ^ 32.

Definition ENOMEM : Z := 12.
Definition POLLIN : Z := 1.
Definition AUFMT_S16LE : Z := 0.

(** ** Data *)

Record timespec := { tv_sec : Z; tv_nsec : Z }.

(** [struct auframe] as filled by [auframe_init]; [af_sampv] is the content
    of the sample buffer the frame points to at the time of the call. *)
Record auframe := {
  af_fmt : Z;
  af_sampv : list byte;
  af_sampc : Z;
  af_srate : Z;
  af_ch : Z
}.

Definition auframe_init (fmt : Z) (sampv : list byte) (sampc srate ch : Z)
  : auframe :=
  {| af_fmt := fmt; af_sampv := sampv; af_sampc := sampc;
     af_srate := srate; af_ch := ch |}.

(** Signed 16-bit little-endian samples held by a byte buffer. *)
Definition s16le (lo hi : byte) : Z :=
  let u := Z.of_N (Byte.to_N lo) + 256 * Z.of_N (Byte.to_N hi) in
  if u <? 32768 then u else u - 65536.

Fixpoint samples (b : list byte) : list Z :=
  match b with
  | lo :: hi :: r => s16le lo hi :: samples r
  | _ => []
  end.

(** Calls made by the module, in program order. *)
Inductive event :=
| EvAccept (lfd ret : Z)
| EvSetFl (fd flags : Z)
| EvClose (fd : Z) (was_open : bool)
| EvPoll (fd timeout_ms ret revents : Z)
| EvRead (fd off count lat ret : Z)
| EvWrite (fd : Z) (data : list byte) (ret : Z)
| EvUsleep (usec : Z)
| EvRh (af : auframe) (arg : Z)
| EvWh (af : auframe) (arg : Z)
| EvErrh (err : Z) (arg : Z).

(** Module-level state ([listen_fd], [client_fd]) together with the
    descriptors that are open in the process and those in blocking mode. *)
Record world := {
  listen_fd : Z;
  client_fd : Z;
  open_fds : gset Z;
  blocking_fds : gset Z
}.

Definition set_client_fd (fd : Z) (w : world) : world :=
  {| listen_fd := listen_fd w; client_fd := fd;
     open_fds := open_fds w; blocking_fds := blocking_fds w |}.

(** *** System calls on descriptors *)

(** [accept]: [ans] is what the kernel returns; a non-negative answer is a
    descriptor that is open from now on. *)
Definition sys_accept (ans : Z) (w : world) : Z * world :=
  if ans <? 0 then (ans, w)
  else (ans, {| listen_fd := listen_fd w; client_fd := client_fd w;
                open_fds := {[ans]} ∪ open_fds w;
                blocking_fds := blocking_fds w |}).

(** [fcntl(fd, F_SETFL, 0)]: clears [O_NONBLOCK]. *)
Definition sys_set_blocking (fd : Z) (w : world) : world :=
  {| listen_fd := listen_fd w; client_fd := client_fd w;
     open_fds := open_fds w;
     blocking_fds := {[fd]} ∪ blocking_fds w |}.

(** [close]: the event records whether the descriptor was open. *)
Definition sys_close (fd : Z) (w : world) : world * event :=
  ({| listen_fd := listen_fd w; client_fd := client_fd w;
      open_fds := open_fds w ∖ {[fd]};
      blocking_fds := blocking_fds w ∖ {[fd]} |},
   EvClose fd (bool_decide (fd ∈ open_fds w))).

(** ** Socket helpers *)

Module Slot.

(** First critical section of [get_client]: read the slot. *)
Definition lookup (w : world) : Z := client_fd w.

(** Non-blocking [accept] followed by making the data socket blocking.
    The [setsockopt] under [#ifdef SO_NOSIGPIPE] changes nothing the model
    keeps track of. *)
Definition try_accept (ans : Z) (w : world) : Z * world * list event :=
  let '(fd, w1) := sys_accept ans w in
  if fd <? 0 then (fd, w1, [EvAccept (listen_fd w) fd])
  else (fd, sys_set_blocking fd w1,
        [EvAccept (listen_fd w) fd; EvSetFl fd 0]).

(** Second critical section of [get_client]: publish the accepted
    descriptor, or discard it when the slot was filled in the meantime. *)
Definition commit (fd : Z) (w : world) : Z * world * list event :=
  if 0 <=? client_fd w then
    let '(w1, ev) := sys_close fd w in (client_fd w1, w1, [ev])
  else (fd, set_client_fd fd w, []).

End Slot.

(** [get_client] run without interference from another thread. *)
Definition get_client (ans : Z) (w : world) : Z * world * list event :=
  let fd := Slot.lookup w in
  if 0 <=? fd then (fd, w, [])
  else
    let '(fd, w1, ev1) := Slot.try_accept ans w in
    if fd <? 0 then (-1, w1, ev1)
    else
      let '(r, w2, ev2) := Slot.commit fd w1 in
      (r, w2, ev1 ++ ev2).

Definition drop_client (fd : Z) (w : world) : world * list event :=
  if client_fd w =? fd then
    let '(w1, ev) := sys_close fd w in (set_client_fd (-1) w1, [ev])
  else (w, []).

Definition clock_us (ts : timespec) : Z :=
  wrap64 (wrap64 (wrap64 (tv_sec ts) * 1000000) + wrap64 (tv_nsec ts ÷ 1000)).

(** ** Per-instance state *)

(** [struct ausrc_prm] and [struct auplay_prm] (declared by baresip) have
    the same fields: [uint32_t srate; uint8_t ch; uint32_t ptime; int fmt]. *)
Record au_prm := { prm_srate : Z; prm_ch : Z; prm_ptime : Z; prm_fmt : Z }.

(** Handlers and their argument are opaque pointers; calling [rh], [wh] or
    [errh] is recorded as [EvRh], [EvWh] or [EvErrh]. *)
Record ausrc_st := {
  src_run : bool;
  src_rh : Z;
  src_errh : Z;
  src_arg : Z;
  src_ptime : Z;
  src_sampc : Z;
  src_srate : Z
}.

Record auplay_st := {
  play_run : bool;
  play_wh : Z;
  play_arg : Z;
  play_ptime : Z;
  play_sampc : Z;
  play_srate : Z
}.

(** [prm->srate * prm->ch * prm->ptime / 1000] in [uint32_t] arithmetic. *)
Definition frame_sampc (prm : au_prm) : Z :=
  wrap32 (wrap32 (prm_srate prm * prm_ch prm) * prm_ptime prm) / 1000.

(** [st->sampc * sizeof(int16_t)] as a [size_t]. *)
Definition frame_nbytes (sampc : Z) : Z := wrap64 (sampc * 2).

(** [st->ptime * 1000], computed in [uint32_t], widened to [uint64_t]. *)
Definition frame_ptime_us (ptime : Z) : Z := wrap64 (wrap32 (ptime * 1000)).

(** State owned by one running loop: the timing cursor and the buffer. *)
Record loop_st := { next_frame : Z; buf : list byte }.

(** ** Buffer primitives *)

(** Writing [data] into a buffer at byte offset [off]. *)
Definition store (off : Z) (data b : list byte) : list byte :=
  take (Z.to_nat off) b ++ data
    ++ drop (Z.to_nat off + length data)%nat b.

(** [memset(buf + off, 0, n)]. *)
Definition memset0 (off n : Z) (b : list byte) : list byte :=
  store off (replicate (Z.to_nat n) x00) b.

(** ** Answers of the peer socket *)

(** A [read] either fails, or finds [avail] bytes queued by the peer after
    blocking for [lat] microseconds; it then returns at most [count] of
    them (none queued: end of file). *)
Inductive read_ans :=
| RErr (lat : Z)
| RData (lat : Z) (avail : list byte).

Definition read_lat (a : read_ans) : Z :=
  match a with RErr l => l | RData l _ => l end.

Definition sys_read (count : Z) (a : read_ans) : Z * list byte :=
  match a with
  | RErr _ => (-1, [])
  | RData _ avail =>
      let got := take (Z.to_nat count) avail in
      (Z.of_nat (length got), got)
  end.

(** Time a [read] keeps its caller waiting: a descriptor in non-blocking
    mode never waits. *)
Definition read_wait (fd : Z) (w : world) (a : read_ans) : Z :=
  if bool_decide (fd ∈ blocking_fds w) then read_lat a else 0.

(** A [write] returns the kernel's answer, never more than [count]. *)
Definition sys_write (count ans : Z) : Z := Z.min ans count.

(** ** Pacing on the monotonic clock *)

Definition pace (ptime_us nf now : Z) : Z * list event :=
  let nf' := wrap64 (nf + ptime_us) in
  if now <? nf' then (nf', [EvUsleep (wrap32 (nf' - now))])
  else (now, []).

(** ** ausrc: audio source (agent to caller) *)

(** The inner [while (off < nbytes)] of [src_thread].  [rd k] answers the
    [k]-th [read] of the iteration.  Every successful [read] advances [off]
    by at least one byte, so [fuel = nbytes - off] is never used up
    (lemma [read_frame_fuel]). *)
Fixpoint read_frame (fuel : nat) (fd nbytes : Z) (rd : nat -> read_ans)
    (k : nat) (off : Z) (b : list byte) (w : world)
  : list byte * world * list event :=
  if off <? nbytes then
    match fuel with
    | O => (b, w, [])
    | S fuel' =>
        let count := nbytes - off in
        let '(n, got) := sys_read count (rd k) in
        let ev := EvRead fd off count (read_wait fd w (rd k)) n in
        if n <=? 0 then
          let '(w1, evs) := drop_client fd w in
          (memset0 off count b, w1, ev :: evs)
        else
          let '(b', w', evs) :=
            read_frame fuel' fd nbytes rd (S k) (off + n) (store off got b) w
          in (b', w', ev :: evs)
    end
  else (b, w, []).

Record src_env := {
  se_accept : Z;
  se_now_poll : timespec;
  se_poll_ret : Z;
  se_revents : Z;
  se_read : nat -> read_ans;
  se_now_pace : timespec
}.

(** Timeout handed to [poll]. *)
Definition poll_timeout (nf now : Z) : Z :=
  if now <? nf then to_int ((nf - now) / 1000) else 0.

(** The peer-facing part of a pass of [src_thread]: [poll], then the
    [read] loop or silence. *)
Definition src_io (st : ausrc_st) (e : src_env) (s : loop_st) (fd : Z)
    (w1 : world) : list byte * world * list event :=
  let nbytes := frame_nbytes (src_sampc st) in
  if 0 <=? fd then
    let now := clock_us (se_now_poll e) in
    let timeout_ms := poll_timeout (next_frame s) now in
    let ret := se_poll_ret e in
    let ev_poll := EvPoll fd timeout_ms ret (se_revents e) in
    if (0 <? ret) && negb (Z.land (se_revents e) POLLIN =? 0) then
      let '(b, w', evs) :=
        read_frame (Z.to_nat nbytes) fd nbytes (se_read e) 0 0 (buf s) w1
      in (b, w', ev_poll :: evs)
    else (memset0 0 nbytes (buf s), w1, [ev_poll])
  else (memset0 0 nbytes (buf s), w1, []).

(** One pass through the body of [while (st->run)] in [src_thread]. *)
Definition src_iter (st : ausrc_st) (e : src_env) (s : loop_st) (w : world)
  : loop_st * world * list event :=
  let ptime_us := frame_ptime_us (src_ptime st) in
  let '(fd, w1, ev_gc) := get_client (se_accept e) w in
  let '(b, w2, ev_io) := src_io st e s fd w1 in
  let '(nf, ev_pace) :=
    pace ptime_us (next_frame s) (clock_us (se_now_pace e)) in
  let af := auframe_init AUFMT_S16LE b (src_sampc st) (src_srate st) 1 in
  ({| next_frame := nf; buf := b |}, w2,
   ev_gc ++ ev_io ++ ev_pace ++ [EvRh af (src_arg st)]).

(** Entry of [src_thread]: the buffer comes zeroed from [mem_zalloc] and
    the cursor starts at the current time. *)
Definition src_start (st : ausrc_st) (ts : timespec) : loop_st :=
  {| next_frame := clock_us ts;
     buf := replicate (Z.to_nat (frame_nbytes (src_sampc st))) x00 |}.

(** [src_alloc]: [alloc_ok] tells whether [mem_zalloc] succeeded and
    [thr_err] is the result of [thread_create_name]. *)
Definition src_alloc (alloc_ok : bool) (thr_err : Z) (prm : au_prm)
    (rh errh arg : Z) : Z + ausrc_st :=
  if alloc_ok then
    let st := {| src_run := true; src_rh := rh; src_errh := errh;
                 src_arg := arg; src_ptime := prm_ptime prm;
                 src_sampc := frame_sampc prm;
                 src_srate := prm_srate prm |} in
    if thr_err =? 0 then inr st else inl thr_err
  else inl ENOMEM.

(** ** auplay: audio player (caller to agent) *)

(** The inner [while (off < nbytes)] of [play_thread]; [wr k] is the
    kernel's answer to the [k]-th [write]. *)
Fixpoint write_frame (fuel : nat) (fd nbytes : Z) (wr : nat -> Z)
    (k : nat) (off : Z) (b : list byte) (w : world) : world * list event :=
  if off <? nbytes then
    match fuel with
    | O => (w, [])
    | S fuel' =>
        let count := nbytes - off in
        let n := sys_write count (wr k) in
        let ev := EvWrite fd (take (Z.to_nat count) (drop (Z.to_nat off) b)) n in
        if n <=? 0 then
          let '(w1, evs) := drop_client fd w in (w1, ev :: evs)
        else
          let '(w', evs) :=
            write_frame fuel' fd nbytes wr (S k) (off + n) b w
          in (w', ev :: evs)
    end
  else (w, []).

Record play_env := {
  pe_audio : list byte;
  pe_accept : Z;
  pe_write : nat -> Z;
  pe_now_pace : timespec
}.

(** What [wh] does to the buffer: the host overwrites it with decoded
    audio and cannot change its size. *)
Definition host_fill (audio b : list byte) : list byte :=
  take (length b) audio ++ drop (length audio) b.

(** The peer-facing part of a pass of [play_thread]: the [write] loop. *)
Definition play_io (st : auplay_st) (b : list byte) (e : play_env) (fd : Z)
    (w1 : world) : world * list event :=
  let nbytes := frame_nbytes (play_sampc st) in
  if 0 <=? fd then
    write_frame (Z.to_nat nbytes) fd nbytes (pe_write e) 0 0 b w1
  else (w1, []).

(** One pass through the body of [while (st->run)] in [play_thread]. *)
Definition play_iter (st : auplay_st) (e : play_env) (s : loop_st) (w : world)
  : loop_st * world * list event :=
  let ptime_us := frame_ptime_us (play_ptime st) in
  let b := host_fill (pe_audio e) (buf s) in
  let af := auframe_init AUFMT_S16LE b (play_sampc st) (play_srate st) 1 in
  let '(fd, w1, ev_gc) := get_client (pe_accept e) w in
  let '(w2, ev_io) := play_io st b e fd w1 in
  let '(nf, ev_pace) :=
    pace ptime_us (next_frame s) (clock_us (pe_now_pace e)) in
  ({| next_frame := nf; buf := b |}, w2,
   [EvWh af (play_arg st)] ++ ev_gc ++ ev_io ++ ev_pace).

Definition play_start (st : auplay_st) (ts : timespec) : loop_st :=
  {| next_frame := clock_us ts;
     buf := replicate (Z.to_nat (frame_nbytes (play_sampc st))) x00 |}.

Definition play_alloc (alloc_ok : bool) (thr_err : Z) (prm : au_prm)
    (wh arg : Z) : Z + auplay_st :=
  if alloc_ok then
    let st := {| play_run := true; play_wh := wh; play_arg := arg;
                 play_ptime := prm_ptime prm;
                 play_sampc := frame_sampc prm;
                 play_srate := prm_srate prm |} in
    if thr_err =? 0 then inr st else inl thr_err
  else inl ENOMEM.

(** ** Running a loop for several iterations *)

(** The loop body is run once for every environment of the list (one per
    pass in which [st->run] was still set); the result lists the state
    after each pass and the calls made during it. *)
Fixpoint src_loop (st : ausrc_st) (envs : list src_env) (s : loop_st)
    (w : world) : list (loop_st * world * list event) :=
  match envs with
  | [] => []
  | e :: envs' =>
      let r := src_iter st e s w in
      r :: src_loop st envs' (fst (fst r)) (snd (fst r))
  end.

Fixpoint play_loop (st : auplay_st) (envs : list play_env) (s : loop_st)
    (w : world) : list (loop_st * world * list event) :=
  match envs with
  | [] => []
  | e :: envs' =>
      let r := play_iter st e s w in
      r :: play_loop st envs' (fst (fst r)) (snd (fst r))
  end.

(** Result of a thread function. *)
Inductive thrd_result := thrd_success | thrd_error.

(** [src_thread]: when the buffer cannot be allocated the thread ends at
    once; otherwise it runs the loop body while [st->run] is set. *)
Definition src_thread (st : ausrc_st) (buf_ok : bool) (ts : timespec)
    (envs : list src_env) (w : world)
  : thrd_result * list (loop_st * world * list event) :=
  if buf_ok then (thrd_success, src_loop st envs (src_start st ts) w)
  else (thrd_error, []).

Definition play_thread (st : auplay_st) (buf_ok : bool) (ts : timespec)
    (envs : list play_env) (w : world)
  : thrd_result * list (loop_st * world * list event) :=
  if buf_ok then (thrd_success, play_loop st envs (play_start st ts) w)
  else (thrd_error, []).

(** Loop states that occur in a run of the thread, whatever the other
    thread did to the shared state between two passes. *)
Inductive src_reach (st : ausrc_st) : loop_st -> Prop :=
| src_reach_start ts : src_reach st (src_start st ts)
| src_reach_iter e s w :
    src_reach st s -> src_reach st (fst (fst (src_iter st e s w))).

Inductive play_reach (st : auplay_st) : loop_st -> Prop :=
| play_reach_start ts : play_reach st (play_start st ts)
| play_reach_iter e s w :
    play_reach st s -> play_reach st (fst (fst (play_iter st e s w))).

(** ** Observations on traces *)

Definition is_host (ev : event) : bool :=
  match ev with EvRh _ _ | EvWh _ _ | EvErrh _ _ => true | _ => false end.

Definition is_rh (ev : event) : bool :=
  match ev with EvRh _ _ => true | _ => false end.

Definition is_wh (ev : event) : bool :=
  match ev with EvWh _ _ => true | _ => false end.

Definition is_errh (ev : event) : bool :=
  match ev with EvErrh _ _ => true | _ => false end.

(** The [write] calls of a trace: descriptor, bytes offered, result. *)
Fixpoint writes_of (tr : list event) : list (Z * list byte * Z) :=
  match tr with
  | [] => []
  | EvWrite fd d n :: tr' => (fd, d, n) :: writes_of tr'
  | _ :: tr' => writes_of tr'
  end.

(** The descriptors passed to [close]. *)
Fixpoint closes_of (tr : list event) : list Z :=
  match tr with
  | [] => []
  | EvClose fd _ :: tr' => fd :: closes_of tr'
  | _ :: tr' => closes_of tr'
  end.

(** A [close] on a descriptor that was not open. *)
Definition is_bad_close (ev : event) : bool :=
  match ev with EvClose _ false => true | _ => false end.

(** Microseconds spent inside [read]. *)
Fixpoint read_blocked (tr : list event) : Z :=
  match tr with
  | [] => 0
  | EvRead _ _ _ lat _ :: tr' => lat + read_blocked tr'
  | _ :: tr' => read_blocked tr'
  end.

(** The timeouts passed to [poll]. *)
Fixpoint poll_timeouts (tr : list event) : list Z :=
  match tr with
  | [] => []
  | EvPoll _ t _ _ :: tr' => t :: poll_timeouts tr'
  | _ :: tr' => poll_timeouts tr'
  end.

(** A trace made of system calls only. *)
Definition sys_only (tr : list event) : Prop :=
  List.filter is_host tr = [].

(** ** The timing cursor over a run *)

(** Cursor values after each pass of a run. *)
Definition cursors (run : list (loop_st * world * list event)) : list Z :=
  map (fun r => next_frame (fst (fst r))) run.

(** The cursor values produced by pacing with period [p] from the cursor
    [nf], for the successive clock readings [nows]. *)
Fixpoint pace_run (p nf : Z) (nows : list Z) : list Z :=
  match nows with
  | [] => []
  | now :: nows' =>
      let nf' := fst (pace p nf now) in nf' :: pace_run p nf' nows'
  end.

(** The drift-reset rule, pass by pass: from the cursor [c], the clock
    reading [now] leads to [c + p] when that is still ahead of [now] and to
    [now] otherwise, and the cursor does not move backwards. *)
Fixpoint follows_pacing (p c : Z) (nows cs : list Z) : Prop :=
  match nows, cs with
  | [], [] => True
  | now :: nows', c' :: cs' =>
      c' = (if now <? c + p then c + p else now) /\ c <= c' /\
      follows_pacing p c' nows' cs'
  | _, _ => False
  end.

(** ** Sample inputs *)

(** An 8 kHz mono session with 20 ms frames. *)
Definition prm_8k : au_prm :=
  {| prm_srate := 8000; prm_ch := 1; prm_ptime := 20; prm_fmt := AUFMT_S16LE |}.

Definition src_8k : ausrc_st :=
  {| src_run := true; src_rh := 1; src_errh := 2; src_arg := 3;
     src_ptime := 20; src_sampc := 160; src_srate := 8000 |}.

Definition play_8k : auplay_st :=
  {| play_run := true; play_wh := 1; play_arg := 3;
     play_ptime := 20; play_sampc := 160; play_srate := 8000 |}.

(** The listening socket is descriptor 3; no client yet. *)
Definition world_idle : world :=
  {| listen_fd := 3; client_fd := -1; open_fds := {[3]}; blocking_fds := ∅ |}.

(** The same with a client connected on descriptor 5. *)
Definition world_peer : world :=
  {| listen_fd := 3; client_fd := 5; open_fds := {[3; 5]};
     blocking_fds := {[5]} |}.

Definition at_us (us : Z) : timespec :=
  {| tv_sec := us / 1000000; tv_nsec := (us mod 1000000) * 1000 |}.

(** No pending connection, nothing to read. *)
Definition src_env_idle (now : Z) : src_env :=
  {| se_accept := -1; se_now_poll := at_us now; se_poll_ret := 0;
     se_revents := 0; se_read := fun _ => RErr 0;
     se_now_pace := at_us now |}.

Definition play_env_idle (now : Z) : play_env :=
  {| pe_audio := replicate 320 x01; pe_accept := -1;
     pe_write := fun _ => -1; pe_now_pace := at_us now |}.

(** A peer that has a whole frame queued: [poll] reports [POLLIN] and the
    first [read] returns everything. *)
Definition src_env_data (now : Z) : src_env :=
  {| se_accept := -1; se_now_poll := at_us now; se_poll_ret := 1;
     se_revents := POLLIN; se_read := fun _ => RData 0 (replicate 320 x01);
     se_now_pace := at_us now |}.

(** A peer that takes 100 bytes and then fails every [write]. *)
Definition play_env_fail (now : Z) : play_env :=
  {| pe_audio := replicate 320 x01; pe_accept := -1;
     pe_write := fun k => match k with O => 100 | S _ => -1 end;
     pe_now_pace := at_us now |}.

(** A peer that sends two bytes and closes the connection. *)
Definition src_env_eof (now : Z) : src_env :=
  {| se_accept := -1; se_now_poll := at_us now; se_poll_ret := 1;
     se_revents := POLLIN;
     se_read := fun k => match k with
                         | O => RData 0 [x01; x01]
                         | S _ => RData 0 []
                         end;
     se_now_pace := at_us now |}.

(** A peer that sends a single byte and then stalls: the second [read]
    returns the rest of the frame only after [d] microseconds. *)
Definition src_env_stall (now d : Z) : src_env :=
  {| se_accept := -1; se_now_poll := at_us now; se_poll_ret := 1;
     se_revents := POLLIN;
     se_read := fun k => match k with
                         | O => RData 0 [x01]
                         | S _ => RData d (replicate 320 x02)
                         end;
     se_now_pace := at_us now |}.

(** ** Two callers of [get_client] running concurrently *)

(** [get_client] takes the mutex twice, and returns after it has released
    it; wherever it does not hold the mutex the other thread can run.  A
    caller is modelled by its position in [get_client] and the calls it has
    made.  A step is a critical section, the [accept] with the [fcntl] on
    the descriptor only the caller knows, or a [return]. *)
Module Race.

Inductive pc :=
| Start                 (* before the first critical section *)
| Looked (fd : Z)       (* slot read into [fd], mutex released *)
| Accepting             (* about to call [accept] *)
| Holding (fd : Z)      (* accepted [fd], before the second section *)
| Committed (ret : Z)   (* second section done, mutex released *)
| Done (ret : Z).       (* returned [ret] *)

Record thread := { t_pc : pc; t_trace : list event }.

Inductive tid := A | B.

Definition tid_eqb (t u : tid) : bool :=
  match t, u with A, A | B, B => true | _, _ => false end.

Definition other (t : tid) : tid := match t with A => B | B => A end.

Definition step_thread (ans : Z) (t : thread) (w : world)
  : option (thread * world) :=
  match t_pc t with
  | Start =>
      Some ({| t_pc := Looked (Slot.lookup w); t_trace := t_trace t |}, w)
  | Looked fd =>
      Some ({| t_pc := if 0 <=? fd then Done fd else Accepting;
               t_trace := t_trace t |}, w)
  | Accepting =>
      let '(fd, w1, evs) := Slot.try_accept ans w in
      Some ({| t_pc := if fd <? 0 then Done (-1) else Holding fd;
               t_trace := t_trace t ++ evs |}, w1)
  | Holding fd =>
      let '(r, w1, evs) := Slot.commit fd w in
      Some ({| t_pc := Committed r; t_trace := t_trace t ++ evs |}, w1)
  | Committed r =>
      Some ({| t_pc := Done r; t_trace := t_trace t |}, w)
  | Done _ => None
  end.

Definition start : thread := {| t_pc := Start; t_trace := [] |}.

(** A caller running alone until it returns. *)
Fixpoint run_thread (fuel : nat) (ans : Z) (t : thread) (w : world)
  : thread * world :=
  match fuel with
  | O => (t, w)
  | S fuel' =>
      match step_thread ans t w with
      | Some (t', w') => run_thread fuel' ans t' w'
      | None => (t, w)
      end
  end.

Record config := { c_world : world; c_thr : tid -> thread }.

Definition init (w : world) : config :=
  {| c_world := w; c_thr := fun _ => start |}.

(** Thread [who] takes its next step; [ans] is the kernel's answer if that
    step is the [accept]. *)
Definition step (who : tid) (ans : Z) (c : config) : option config :=
  match step_thread ans (c_thr c who) (c_world c) with
  | Some (t', w') =>
      Some {| c_world := w';
              c_thr := fun t => if tid_eqb t who then t' else c_thr c t |}
  | None => None
  end.

(** Some other thread runs [drop_client fd] (one critical section). *)
Definition drop (fd : Z) (c : config) : config :=
  {| c_world := fst (drop_client fd (c_world c)); c_thr := c_thr c |}.

(** What the kernel promises about [accept]: it fails, or returns a
    descriptor that was not open. *)
Definition fresh (ans : Z) (w : world) : Prop :=
  ans < 0 \/ ans ∉ open_fds w.

(** The slot never names a closed descriptor. *)
Definition slot_open (w : world) : Prop :=
  0 <= client_fd w -> client_fd w ∈ open_fds w.

(** Configurations reached from [init w0] by any interleaving of the two
    callers. *)
Inductive reach (w0 : world) : config -> Prop :=
| reach_init : reach w0 (init w0)
| reach_step c who ans c' :
    reach w0 c ->
    (t_pc (c_thr c who) = Accepting -> fresh ans (c_world c)) ->
    step who ans c = Some c' ->
    reach w0 c'.

(** The same when, in addition, [drop_client] may run at any point. *)
Inductive reach_drop (w0 : world) : config -> Prop :=
| reach_drop_init : reach_drop w0 (init w0)
| reach_drop_step c who ans c' :
    reach_drop w0 c ->
    (t_pc (c_thr c who) = Accepting -> fresh ans (c_world c)) ->
    step who ans c = Some c' ->
    reach_drop w0 c'
| reach_drop_drop c fd :
    reach_drop w0 c -> reach_drop w0 (drop fd c).

(** The value [r] returned into configuration [c] is no handle, or the
    handle the slot holds in [c], which is open. *)
Definition returns_held (c : config) (r : Z) : Prop :=
  r = -1 \/
  (0 <= r /\ r = client_fd (c_world c) /\ (r ∈ open_fds (c_world c))).

(** The caller has left the second critical section. *)
Definition committed (t : thread) (r : Z) : Prop :=
  t_pc t = Committed r \/ t_pc t = Done r.

(** The caller accepted [fd] and published it in the slot. *)
Definition won (lfd : Z) (t : thread) (fd : Z) : Prop :=
  committed t fd /\ t_trace t = [EvAccept lfd fd; EvSetFl fd 0].

(** The caller accepted [fd] and closed it again. *)
Definition lost (lfd : Z) (t : thread) (fd : Z) : Prop :=
  (exists r, committed t r) /\
  t_trace t = [EvAccept lfd fd; EvSetFl fd 0; EvClose fd true].

(** The caller is responsible for the open descriptor [fd]. *)
Definition owns (lfd : Z) (t : thread) (fd : Z) : Prop :=
  t_pc t = Holding fd \/ won lfd t fd.

(** What is known after the second critical section when the caller
    published its descriptor [r] ... *)
Definition published (w0 w : world) (tr : list event) (r : Z) : Prop :=
  tr = [EvAccept (listen_fd w0) r; EvSetFl r 0] /\
  0 <= r /\ r = client_fd w /\ (r ∈ open_fds w) /\ (r ∉ open_fds w0) /\
  client_fd w0 < 0.

(** ... and when it closed its descriptor and took [r] from the slot. *)
Definition discarded (w0 w : world) (tr : list event) (r : Z) : Prop :=
  exists fd,
    tr = [EvAccept (listen_fd w0) fd; EvSetFl fd 0; EvClose fd true] /\
    0 <= fd /\ 0 <= r /\ r = client_fd w /\ r <> fd /\
    (fd ∉ open_fds w) /\ (fd ∉ open_fds w0) /\ client_fd w0 < 0.

(** What is known about a caller at each position, when nobody drops. *)
Definition tinv (w0 w : world) (t : thread) : Prop :=
  match t_pc t with
  | Start => t_trace t = []
  | Looked fd =>
      t_trace t = [] /\ (0 <= fd -> fd = client_fd w) /\
      (fd < 0 -> client_fd w0 < 0)
  | Accepting => t_trace t = [] /\ client_fd w0 < 0
  | Holding fd =>
      t_trace t = [EvAccept (listen_fd w0) fd; EvSetFl fd 0] /\
      0 <= fd /\ (fd ∈ open_fds w) /\ (fd ∉ open_fds w0) /\ client_fd w0 < 0
  | Committed r =>
      published w0 w (t_trace t) r \/ discarded w0 w (t_trace t) r
  | Done r =>
      (t_trace t = [] /\ 0 <= r /\ r = client_fd w) \/
      (exists a, t_trace t = [EvAccept (listen_fd w0) a] /\ a < 0 /\
                 r = -1 /\ client_fd w0 < 0) \/
      published w0 w (t_trace t) r \/ discarded w0 w (t_trace t) r
  end.

Record inv (w0 : world) (c : config) : Prop := {
  inv_listen : listen_fd (c_world c) = listen_fd w0;
  inv_open0 : open_fds w0 ⊆ open_fds (c_world c);
  inv_slot_open : slot_open (c_world c);
  inv_slot :
    client_fd (c_world c) = client_fd w0 \/
    (client_fd w0 < 0 /\
     exists t, won (listen_fd w0) (c_thr c t) (client_fd (c_world c)));
  inv_thr : forall t, tinv w0 (c_world c) (c_thr c t);
  inv_distinct : forall t fa fb,
    owns (listen_fd w0) (c_thr c t) fa ->
    owns (listen_fd w0) (c_thr c (other t)) fb -> fa <> fb;
  inv_open1 : forall x,
    x ∈ open_fds (c_world c) ->
    x ∈ open_fds w0 \/ exists t, owns (listen_fd w0) (c_thr c t) x
}.

End Race.

(** ** Running a schedule *)

Module RaceRun.
Import Race.

Definition fresh_b (ans : Z) (w : world) : bool :=
  (ans <? 0) || negb (bool_decide (ans ∈ open_fds w)).

Definition accepting (t : thread) : bool :=
  match t_pc t with Accepting => true | _ => false end.

(** One entry of a schedule: a caller moves ([ans] is the kernel's answer
    should the step be an [accept]), or [drop_client fd] runs. *)
Inductive action :=
| Move (who : tid) (ans : Z)
| Drop (fd : Z).

Definition is_move (a : action) : bool :=
  match a with Move _ _ => true | Drop _ => false end.

(** Runs the actions of [sched] in order.  The run is rejected when a
    caller that has returned is asked to move or when an answer breaks the
    kernel's promise. *)
Fixpoint run (sched : list action) (c : config) : option config :=
  match sched with
  | [] => Some c
  | Move who ans :: sched' =>
      if accepting (c_thr c who) && negb (fresh_b ans (c_world c)) then None
      else
        match step who ans c with
        | Some c' => run sched' c'
        | None => None
        end
  | Drop fd :: sched' => run sched' (drop fd c)
  end.

(** Both callers find the slot empty, both accept (descriptors 5 and 6),
    then [A] commits before [B]. *)
Definition sched_both : list action :=
  [Move A 0; Move B 0; Move A 0; Move B 0; Move A 5; Move B 6;
   Move A 0; Move B 0; Move A 0; Move B 0].

Definition after_both : config :=
  match run sched_both (init world_idle) with
  | Some c => c
  | None => init world_idle
  end.

(** With a peer on descriptor 5: [A] reads the slot, then the other loop
    drops the peer before [A] returns. *)
Definition sched_stale : list action := [Move A 0; Drop 5].

Definition before_stale_return : config :=
  match run sched_stale (init world_peer) with
  | Some c => c
  | None => init world_peer
  end.

End RaceRun.


(** * Further observations and the module's life cycle *)

(** ** More observations on traces *)

(** The [read] calls of a trace: offset, count, result. *)
Fixpoint reads_of (tr : list event) : list (Z * Z * Z) :=
  match tr with
  | [] => []
  | EvRead _ off count _ ret :: tr' => (off, count, ret) :: reads_of tr'
  | _ :: tr' => reads_of tr'
  end.

(** The microseconds passed to [usleep]. *)
Fixpoint sleeps_of (tr : list event) : list Z :=
  match tr with
  | [] => []
  | EvUsleep d :: tr' => d :: sleeps_of tr'
  | _ :: tr' => sleeps_of tr'
  end.

(** The frames handed to the host, by [rh] or [wh]. *)
Fixpoint frames_of (tr : list event) : list auframe :=
  match tr with
  | [] => []
  | EvRh af _ :: tr' => af :: frames_of tr'
  | EvWh af _ :: tr' => af :: frames_of tr'
  | _ :: tr' => frames_of tr'
  end.

(** The calls of [accept]: the socket accepted on, and the result. *)
Fixpoint accepts_of (tr : list event) : list (Z * Z) :=
  match tr with
  | [] => []
  | EvAccept lfd ret :: tr' => (lfd, ret) :: accepts_of tr'
  | _ :: tr' => accepts_of tr'
  end.

(** The descriptors passed to [poll]. *)
Fixpoint polled (tr : list event) : list Z :=
  match tr with
  | [] => []
  | EvPoll fd _ _ _ :: tr' => fd :: polled tr'
  | _ :: tr' => polled tr'
  end.

(** The calls in [rs] go through the buffer front to back: each starts
    where the previous one ended, asks for all that is missing up to
    [nbytes], and gets no more than it asked for. *)
Fixpoint contiguous (off nbytes : Z) (rs : list (Z * Z * Z)) : Prop :=
  match rs with
  | [] => True
  | (o, c, n) :: rs' =>
      o = off /\ 0 <= off < nbytes /\ c = nbytes - off /\ n <= c /\
      contiguous (off + Z.max 0 n) nbytes rs'
  end.

(** The bytes the successive [read]s of one pass hand over, in order, up
    to the first failure or end of file. *)
Fixpoint received (fuel : nat) (nbytes : Z) (rd : nat -> read_ans)
    (k : nat) (off : Z) : list byte :=
  if off <? nbytes then
    match fuel with
    | O => []
    | S fuel' =>
        let '(n, got) := sys_read (nbytes - off) (rd k) in
        if n <=? 0 then []
        else got ++ received fuel' nbytes rd (S k) (off + n)
    end
  else [].

(** The bytes the peer took: for each successful [write], the part of
    the offered bytes that was accepted. *)
Fixpoint written (ws : list (Z * list byte * Z)) : list byte :=
  match ws with
  | [] => []
  | (_, d, n) :: ws' =>
      (if 0 <? n then take (Z.to_nat n) d else []) ++ written ws'
  end.

(** ** Descriptor accounting *)

(** The descriptors the module is responsible for. *)
Definition module_fds (w : world) : gset Z :=
  (if 0 <=? listen_fd w then {[listen_fd w]} else ∅)
    ∪ (if 0 <=? client_fd w then {[client_fd w]} else ∅).

(** Besides [base], the descriptors of the rest of the process, exactly
    the module's own descriptors are open, and they are distinct. *)
Definition accounted (base : gset Z) (w : world) : Prop :=
  open_fds w = base ∪ module_fds w /\
  (0 <= listen_fd w -> listen_fd w ∉ base) /\
  (0 <= client_fd w -> (client_fd w ∉ base) /\ client_fd w <> listen_fd w).

(** ** Module entry points *)

Definition DEFAULT_PATH : list byte :=
  ["/"; "t"; "m"; "p"; "/"; "a"; "u"; "s"; "o"; "c"; "k"; "."; "s"; "o";
   "c"; "k"]%byte.

(** [sizeof(sock_path)]. *)
Definition SOCK_PATH_SIZE : nat := 256.

(** Calls made by the entry points: those of [event], and the ones only
    the entry points make. *)
Inductive mod_event :=
| MSys (ev : event)
| MSignalIgnore
| MMtxInit (ok : bool)
| MMtxDestroy
| MGetenv (val : option (list byte))
| MUnlink (path : list byte)
| MSocket (ret : Z)
| MSetNonblock (fd : Z)
| MBind (fd : Z) (path : list byte) (ret : Z)
| MListen (fd backlog ret : Z)
| MRegisterSrc (err : Z)
| MRegisterPlay (err : Z)
| MDerefSrc
| MDerefPlay.

(** All module-level variables: the two descriptors (in [m_world]),
    [sock_path], whether [sock_mtx] is initialised, and whether
    [mod_ausrc] and [mod_auplay] point to a registration. *)
Record module_st := {
  m_world : world;
  sock_path : list byte;
  sock_mtx : bool;
  mod_ausrc : bool;
  mod_auplay : bool
}.

Definition set_world (w : world) (m : module_st) : module_st :=
  {| m_world := w; sock_path := sock_path m; sock_mtx := sock_mtx m;
     mod_ausrc := mod_ausrc m; mod_auplay := mod_auplay m |}.

Definition set_mtx (b : bool) (m : module_st) : module_st :=
  {| m_world := m_world m; sock_path := sock_path m; sock_mtx := b;
     mod_ausrc := mod_ausrc m; mod_auplay := mod_auplay m |}.

Definition set_registered (s p : bool) (m : module_st) : module_st :=
  {| m_world := m_world m; sock_path := sock_path m; sock_mtx := sock_mtx m;
     mod_ausrc := s; mod_auplay := p |}.

Definition set_listen_fd (fd : Z) (w : world) : world :=
  {| listen_fd := fd; client_fd := client_fd w;
     open_fds := open_fds w; blocking_fds := blocking_fds w |}.

(** [socket]: a non-negative answer is a new descriptor, in blocking
    mode. *)
Definition sys_socket (ans : Z) (w : world) : world :=
  if ans <? 0 then w
  else {| listen_fd := listen_fd w; client_fd := client_fd w;
          open_fds := {[ans]} ∪ open_fds w;
          blocking_fds := {[ans]} ∪ blocking_fds w |}.

(** [fcntl(fd, F_SETFL, O_NONBLOCK)]. *)
Definition sys_set_nonblocking (fd : Z) (w : world) : world :=
  {| listen_fd := listen_fd w; client_fd := client_fd w;
     open_fds := open_fds w;
     blocking_fds := blocking_fds w ∖ {[fd]} |}.

(** [strncpy(dst, src, n)] into a destination that holds zeros from
    position [n] on: the string left in [dst]. *)
Definition strncpy (n : nat) (src : list byte) : list byte := take n src.

(** What the kernel answers during [setup_listen]; [le_errno] is [errno]
    after the call that failed. *)
Record listen_env := {
  le_socket : Z;
  le_bind : Z;
  le_listen : Z;
  le_errno : Z
}.

(** [setup_listen]; [sun_size] is [sizeof(addr.sun_path)]. *)
Definition setup_listen (sun_size : nat) (path : list byte) (e : listen_env)
    (m : module_st) : Z * module_st * list mod_event :=
  let fd := le_socket e in
  if fd <? 0 then (le_errno e, m, [MUnlink path; MSocket fd])
  else
    let w1 := sys_set_nonblocking fd (sys_socket fd (m_world m)) in
    let sun_path := strncpy (sun_size - 1) path in
    let pre := [MUnlink path; MSocket fd; MSetNonblock fd;
                MBind fd sun_path (le_bind e)] in
    if le_bind e <? 0 then
      let '(w2, ev) := sys_close fd w1 in
      (le_errno e, set_world w2 m, pre ++ [MSys ev])
    else if le_listen e <? 0 then
      let '(w2, ev) := sys_close fd w1 in
      (le_errno e, set_world w2 m,
       pre ++ [MListen fd 5 (le_listen e); MSys ev])
    else
      (0, {| m_world := set_listen_fd fd w1;
             sock_path := strncpy (SOCK_PATH_SIZE - 1) path;
             sock_mtx := sock_mtx m;
             mod_ausrc := mod_ausrc m; mod_auplay := mod_auplay m |},
       pre ++ [MListen fd 5 (le_listen e)]).

(** What the environment answers during [module_init].  A registration
    that succeeds (returns 0) stores the new object in [mod_ausrc] or
    [mod_auplay]; one that fails leaves the pointer as it was. *)
Record init_env := {
  ie_mtx_ok : bool;
  ie_getenv : option (list byte);
  ie_listen : listen_env;
  ie_reg_src : Z;
  ie_reg_play : Z
}.

(** The path the module listens on: [AUSOCK_PATH] unless unset or empty. *)
Definition choose_path (val : option (list byte)) : list byte :=
  match val with
  | None => DEFAULT_PATH
  | Some [] => DEFAULT_PATH
  | Some p => p
  end.

Definition module_init (sun_size : nat) (e : init_env) (m : module_st)
  : Z * module_st * list mod_event :=
  let ev0 := [MSignalIgnore; MMtxInit (ie_mtx_ok e)] in
  if negb (ie_mtx_ok e) then (ENOMEM, m, ev0)
  else
    let m1 := set_mtx true m in
    let path := choose_path (ie_getenv e) in
    let '(err, m2, ev1) := setup_listen sun_size path (ie_listen e) m1 in
    let ev01 := ev0 ++ [MGetenv (ie_getenv e)] ++ ev1 in
    if negb (err =? 0) then
      (err, set_mtx false m2, ev01 ++ [MMtxDestroy])
    else
      let m3 :=
        set_registered
          (if ie_reg_src e =? 0 then true else mod_ausrc m2)
          (if ie_reg_play e =? 0 then true else mod_auplay m2) m2 in
      let err := Z.lor (ie_reg_src e) (ie_reg_play e) in
      let ev2 := ev01 ++ [MRegisterSrc (ie_reg_src e);
                          MRegisterPlay (ie_reg_play e)] in
      if negb (err =? 0) then
        (err, set_registered false false m3, ev2 ++ [MDerefSrc; MDerefPlay])
      else (err, m3, ev2).

Definition module_close (m : module_st) : Z * module_st * list mod_event :=
  let w0 := m_world m in
  let '(w1, ev1) :=
    if 0 <=? client_fd w0 then
      let '(w', ev) := sys_close (client_fd w0) w0 in
      (set_client_fd (-1) w', [MSys ev])
    else (w0, []) in
  let '(w2, ev2) :=
    if 0 <=? listen_fd w1 then
      let '(w', ev) := sys_close (listen_fd w1) w1 in
      (set_listen_fd (-1) w', [MSys ev])
    else (w1, []) in
  let ev3 :=
    match sock_path m with
    | [] => []
    | _ :: _ => [MUnlink (sock_path m)]
    end in
  (0,
   {| m_world := w2; sock_path := sock_path m; sock_mtx := false;
      mod_ausrc := false; mod_auplay := false |},
   [MDerefSrc; MDerefPlay] ++ ev1 ++ ev2 ++ ev3 ++ [MMtxDestroy]).

(** The module before [module_init]: the static initialisers. *)
Definition module_unloaded (open : gset Z) (blocking : gset Z) : module_st :=
  {| m_world := {| listen_fd := -1; client_fd := -1;
                   open_fds := open; blocking_fds := blocking |};
     sock_path := []; sock_mtx := false;
     mod_ausrc := false; mod_auplay := false |}.

(** The descriptors closed, the paths unlinked and the path bound by a
    trace of the entry points. *)
Fixpoint mod_closes (tr : list mod_event) : list Z :=
  match tr with
  | [] => []
  | MSys (EvClose fd _) :: tr' => fd :: mod_closes tr'
  | _ :: tr' => mod_closes tr'
  end.

Fixpoint mod_unlinks (tr : list mod_event) : list (list byte) :=
  match tr with
  | [] => []
  | MUnlink p :: tr' => p :: mod_unlinks tr'
  | _ :: tr' => mod_unlinks tr'
  end.

Fixpoint mod_binds (tr : list mod_event) : list (list byte) :=
  match tr with
  | [] => []
  | MBind _ p _ :: tr' => p :: mod_binds tr'
  | _ :: tr' => mod_binds tr'
  end.

Fixpoint mod_listens (tr : list mod_event) : list Z :=
  match tr with
  | [] => []
  | MListen fd _ _ :: tr' => fd :: mod_listens tr'
  | _ :: tr' => mod_listens tr'
  end.

(** ** A session: load, passes of the two loops, unload *)

(** One pass of one of the two threads, with the answers of its
    environment and the loop state it starts from. *)
Inductive pass :=
| SrcPass (st : ausrc_st) (e : src_env) (s : loop_st)
| PlayPass (st : auplay_st) (e : play_env) (s : loop_st).

Definition pass_accept (p : pass) : Z :=
  match p with
  | SrcPass _ e _ => se_accept e
  | PlayPass _ e _ => pe_accept e
  end.

Definition pass_world (p : pass) (w : world) : world :=
  match p with
  | SrcPass st e s => snd (fst (src_iter st e s w))
  | PlayPass st e s => snd (fst (play_iter st e s w))
  end.

Definition pass_trace (p : pass) (w : world) : list event :=
  match p with
  | SrcPass st e s => snd (src_iter st e s w)
  | PlayPass st e s => snd (play_iter st e s w)
  end.

(** The shared state after the passes [ps], taken one after the other. *)
Definition run_passes (ps : list pass) (w : world) : world :=
  fold_left (fun w p => pass_world p w) ps w.

(** Every [accept] of the passes answers as the kernel promises. *)
Fixpoint passes_fresh (ps : list pass) (w : world) : Prop :=
  match ps with
  | [] => True
  | p :: ps' => Race.fresh (pass_accept p) w /\ passes_fresh ps' (pass_world p w)
  end.

(** ** Sample inputs for the entry points *)

Definition listen_env_ok : listen_env :=
  {| le_socket := 3; le_bind := 0; le_listen := 0; le_errno := 98 |}.

Definition listen_env_in_use : listen_env :=
  {| le_socket := 3; le_bind := -1; le_listen := 0; le_errno := 98 |}.

Definition init_env_ok : init_env :=
  {| ie_mtx_ok := true; ie_getenv := None; ie_listen := listen_env_ok;
     ie_reg_src := 0; ie_reg_play := 0 |}.

(** [sizeof(addr.sun_path)] on Linux. *)
Definition SUN_PATH_LINUX : nat := 108.

Definition module_loaded : module_st :=
  snd (fst (module_init SUN_PATH_LINUX init_env_ok (module_unloaded ∅ ∅))).

(** ** Runs on a monotonic clock *)

(** All calls of a run, in order. *)
Definition run_trace (run : list (loop_st * world * list event))
  : list event :=
  concat (map snd run).

(** The clock readings of the passes of a run (the one before [poll] and
    the one of the pacing step) are those of a monotonic clock on which
    [usleep] sleeps at least as long as asked: [t] is the earliest time
    the next reading can show, [nf] the cursor, [p] the period. *)
Fixpoint timely (p t nf : Z) (nows : list (Z * Z)) : Prop :=
  match nows with
  | [] => True
  | (now1, now2) :: rest =>
      t <= now1 /\ now1 <= now2 /\ now2 + p < 2 ^ 64 /\
      let pc := pace p nf now2 in
      timely p (now2 + fold_right Z.add 0 (sleeps_of (snd pc))) (fst pc) rest
  end.

Definition src_readings (envs : list src_env) : list (Z * Z) :=
  map (fun e => (clock_us (se_now_poll e), clock_us (se_now_pace e))) envs.

(** [play_thread] reads the clock once per pass. *)
Definition play_readings (envs : list play_env) : list (Z * Z) :=
  map (fun e => (clock_us (pe_now_pace e), clock_us (pe_now_pace e))) envs.

(** Three passes 20 ms apart, the first one late. *)
Definition src_envs_timely : list src_env :=
  [src_env_data 25000; src_env_idle 45000; src_env_data 65000].

Definition play_envs_timely : list play_env :=
  [play_env_idle 25000; play_env_fail 45000; play_env_idle 65000].

(** ** Frames *)

(** The frame a session describes to the host. *)
Definition frame_as_declared (prm : au_prm) (af : auframe) : Prop :=
  af_fmt af = AUFMT_S16LE /\ af_ch af = 1 /\
  af_srate af = prm_srate prm /\ af_sampc af = frame_sampc prm /\
  Z.of_nat (length (af_sampv af)) = 2 * frame_sampc prm.

(** ** Two callers of [get_client] with [drop_client] running too *)

Module RaceDrop.
Import Race.

(** What stays true in every interleaving of two callers of [get_client]
    and any number of [drop_client]s. *)
Record dinv (w0 : world) (c : config) : Prop := {
  dinv_listen : listen_fd (c_world c) = listen_fd w0;
  dinv_slot_open : slot_open (c_world c);
  dinv_holding : forall t fd,
    t_pc (c_thr c t) = Holding fd ->
    0 <= fd /\ (fd ∈ open_fds (c_world c)) /\ fd <> client_fd (c_world c);
  dinv_distinct : forall t fa fb,
    t_pc (c_thr c t) = Holding fa -> t_pc (c_thr c (other t)) = Holding fb ->
    fa <> fb;
  dinv_closes : forall t,
    List.filter is_bad_close (t_trace (c_thr c t)) = [];
  dinv_owned : forall x,
    x ∈ open_fds (c_world c) ->
    x ∈ open_fds w0 \/ (0 <= x /\ x = client_fd (c_world c)) \/
    exists t, t_pc (c_thr c t) = Holding x;
  dinv_kept : forall x,
    0 <= x -> x ∈ open_fds w0 -> x <> client_fd w0 ->
    (x ∈ open_fds (c_world c)) /\ x <> client_fd (c_world c) /\
    forall t, t_pc (c_thr c t) <> Holding x
}.

(** [A] accepts descriptor 5 and publishes it, the peer is dropped before
    [A] returns, and [B] then accepts a new peer, to which the kernel
    gives the number 5 again. *)
Definition sched_reuse : list RaceRun.action :=
  [RaceRun.Move A 0; RaceRun.Move A 0; RaceRun.Move A 5; RaceRun.Move A 0;
   RaceRun.Drop 5; RaceRun.Move A 0;
   RaceRun.Move B 0; RaceRun.Move B 0; RaceRun.Move B 5; RaceRun.Move B 0;
   RaceRun.Move B 0].

Definition after_reuse : config :=
  match RaceRun.run sched_reuse (init world_idle) with
  | Some c => c
  | None => init world_idle
  end.

End RaceDrop.

(** * Proofs *)

(** ** Arithmetic of the machine integers *)

Lemma wrap32_small x : 0 <= x < 2 ^ 32 -> wrap32 x = x.
Proof. intros H. unfold wrap32. apply Z.mod_small. exact H. Qed.

Lemma wrap64_small x : 0 <= x < 2 ^ 64 -> wrap64 x = x.
Proof. intros H. unfold wrap64. apply Z.mod_small. exact H. Qed.

Lemma wrap32_range x : 0 <= wrap32 x < 2 ^ 32.
Proof. unfold wrap32. apply Z.mod_pos_bound. lia. Qed.

Lemma wrap64_range x : 0 <= wrap64 x < 2 ^ 64.
Proof. unfold wrap64. apply Z.mod_pos_bound. lia. Qed.

Lemma wrap32_mul_l x y : wrap32 (wrap32 x * y) = wrap32 (x * y).
Proof. unfold wrap32. apply Z.mul_mod_idemp_l. lia. Qed.

Lemma to_int_small x : 0 <= x < 2 ^ 31 -> to_int x = x.
Proof.
  intros H. unfold to_int. rewrite wrap32_small by lia.
  destruct (Z.ltb_spec x (2 ^ 31)); lia.
Qed.

Lemma frame_sampc_range prm : 0 <= frame_sampc prm < 2 ^ 32.
Proof.
  unfold frame_sampc.
  pose proof (wrap32_range (wrap32 (prm_srate prm * prm_ch prm) * prm_ptime prm)) as H.
  split.
  - apply Z.div_pos; lia.
  - apply Z.div_lt_upper_bound; lia.
Qed.

Lemma frame_nbytes_eq sampc : 0 <= sampc < 2 ^ 32 -> frame_nbytes sampc = 2 * sampc.
Proof. intros H. unfold frame_nbytes. rewrite wrap64_small; lia. Qed.

Lemma frame_ptime_us_eq ptime :
  0 <= ptime -> ptime * 1000 < 2 ^ 32 -> frame_ptime_us ptime = ptime * 1000.
Proof.
  intros H0 H1. unfold frame_ptime_us.
  rewrite wrap32_small by lia. apply wrap64_small. lia.
Qed.

Lemma frame_ptime_us_range ptime : 0 <= frame_ptime_us ptime < 2 ^ 32.
Proof.
  unfold frame_ptime_us. pose proof (wrap32_range (ptime * 1000)).
  rewrite wrap64_small; lia.
Qed.

(** ** Buffers keep their size *)

Lemma length_store off data (b : list byte) :
  0 <= off ->
  (Z.to_nat off + length data <= length b)%nat ->
  length (store off data b) = length b.
Proof.
  intros H0 H. unfold store.
  rewrite !length_app, length_take, length_drop. lia.
Qed.

Lemma length_memset0 off n (b : list byte) :
  0 <= off -> 0 <= n -> (Z.to_nat (off + n) <= length b)%nat ->
  length (memset0 off n b) = length b.
Proof.
  intros H0 H1 H. unfold memset0. apply length_store; [lia|].
  rewrite length_replicate. lia.
Qed.

Lemma memset0_all n (b : list byte) :
  length b = Z.to_nat n -> memset0 0 n b = replicate (Z.to_nat n) x00.
Proof.
  intros H. unfold memset0, store. simpl.
  rewrite length_replicate, drop_ge by lia. apply app_nil_r.
Qed.

Lemma length_host_fill audio (b : list byte) :
  length (host_fill audio b) = length b.
Proof.
  unfold host_fill. rewrite length_app, length_take, length_drop. lia.
Qed.

Lemma sys_read_bound count a n got :
  sys_read count a = (n, got) ->
  n <= Z.max 0 count /\ (0 < n -> n = Z.of_nat (length got)).
Proof.
  destruct a as [l|l avail]; simpl; intros H; inversion H; subst; clear H.
  - lia.
  - rewrite length_take. lia.
Qed.

Lemma length_read_frame fuel fd nbytes rd k off b w :
  0 <= off <= nbytes -> length b = Z.to_nat nbytes ->
  length (fst (fst (read_frame fuel fd nbytes rd k off b w))) = length b.
Proof.
  revert k off b w. induction fuel as [|fuel IH]; intros k off b w Hoff Hlen; simpl.
  - destruct (off <? nbytes); reflexivity.
  - destruct (Z.ltb_spec off nbytes) as [Hlt|Hge]; [|reflexivity].
    destruct (sys_read (nbytes - off) (rd k)) as [n got] eqn:Hrd.
    apply sys_read_bound in Hrd as [Hn Hgot].
    destruct (Z.leb_spec n 0) as [Hz|Hpos].
    + destruct (drop_client fd w) as [w1 evs]. simpl.
      apply length_memset0; lia.
    + specialize (Hgot Hpos).
      assert (Hst : length (store off got b) = length b)
        by (apply length_store; lia).
      specialize (IH (S k) (off + n) (store off got b) w).
      destruct (read_frame fuel fd nbytes rd (S k) (off + n) (store off got b) w)
        as [[b' w'] evs]. simpl in *.
      rewrite IH; [exact Hst | lia | lia].
Qed.

(** ** The inner loops never use up their fuel *)

Lemma read_frame_fuel f1 f2 fd nbytes rd k off b w :
  (Z.to_nat (nbytes - off) <= f1)%nat ->
  (Z.to_nat (nbytes - off) <= f2)%nat ->
  read_frame f1 fd nbytes rd k off b w = read_frame f2 fd nbytes rd k off b w.
Proof.
  revert f2 k off b w.
  induction f1 as [|f1 IH]; intros f2 k off b w H1 H2.
  - destruct f2; simpl; destruct (Z.ltb_spec off nbytes); try reflexivity; lia.
  - destruct f2 as [|f2]; simpl;
      destruct (Z.ltb_spec off nbytes) as [Hlt|Hge]; try reflexivity; [lia|].
    destruct (sys_read (nbytes - off) (rd k)) as [n got] eqn:Hrd.
    destruct (Z.leb_spec n 0) as [Hz|Hpos]; [reflexivity|].
    rewrite (IH f2) by lia. reflexivity.
Qed.

Lemma write_frame_fuel f1 f2 fd nbytes wr k off b w :
  (Z.to_nat (nbytes - off) <= f1)%nat ->
  (Z.to_nat (nbytes - off) <= f2)%nat ->
  write_frame f1 fd nbytes wr k off b w = write_frame f2 fd nbytes wr k off b w.
Proof.
  revert f2 k off w.
  induction f1 as [|f1 IH]; intros f2 k off w H1 H2.
  - destruct f2; simpl; destruct (Z.ltb_spec off nbytes); try reflexivity; lia.
  - destruct f2 as [|f2]; simpl;
      destruct (Z.ltb_spec off nbytes) as [Hlt|Hge]; try reflexivity; [lia|].
    destruct (Z.leb_spec (sys_write (nbytes - off) (wr k)) 0) as [Hz|Hpos];
      [reflexivity|].
    rewrite (IH f2) by lia. reflexivity.
Qed.

(** ** Which calls each helper makes *)

Lemma sys_only_app tr1 tr2 : sys_only tr1 -> sys_only tr2 -> sys_only (tr1 ++ tr2).
Proof. unfold sys_only. intros H1 H2. rewrite List.filter_app, H1, H2. reflexivity. Qed.

Lemma sys_only_cons ev tr : is_host ev = false -> sys_only tr -> sys_only (ev :: tr).
Proof. unfold sys_only. simpl. intros -> H. exact H. Qed.

Lemma sys_only_no_rh tr : sys_only tr -> List.filter is_rh tr = [].
Proof.
  unfold sys_only. induction tr as [|ev tr IH]; simpl; [reflexivity|].
  destruct ev; simpl; try discriminate; exact IH.
Qed.

Lemma sys_only_no_wh tr : sys_only tr -> List.filter is_wh tr = [].
Proof.
  unfold sys_only. induction tr as [|ev tr IH]; simpl; [reflexivity|].
  destruct ev; simpl; try discriminate; exact IH.
Qed.

Lemma sys_only_no_errh tr : sys_only tr -> List.filter is_errh tr = [].
Proof.
  unfold sys_only. induction tr as [|ev tr IH]; simpl; [reflexivity|].
  destruct ev; simpl; try discriminate; exact IH.
Qed.

Lemma get_client_sys_only ans w : sys_only (snd (get_client ans w)).
Proof.
  unfold get_client, Slot.lookup, Slot.try_accept, Slot.commit, sys_accept, sys_close.
  repeat (case_match; simplify_eq/=); reflexivity.
Qed.

Lemma drop_client_sys_only fd w : sys_only (snd (drop_client fd w)).
Proof. unfold drop_client, sys_close. case_match; reflexivity. Qed.

Lemma pace_sys_only p nf now : sys_only (snd (pace p nf now)).
Proof. unfold pace. case_match; reflexivity. Qed.

Lemma read_frame_sys_only fuel fd nbytes rd k off b w :
  sys_only (snd (read_frame fuel fd nbytes rd k off b w)).
Proof.
  revert k off b w. induction fuel as [|fuel IH]; intros k off b w; simpl.
  - destruct (off <? nbytes); reflexivity.
  - destruct (off <? nbytes); [|reflexivity].
    destruct (sys_read (nbytes - off) (rd k)) as [n got].
    destruct (n <=? 0).
    + pose proof (drop_client_sys_only fd w) as H.
      destruct (drop_client fd w) as [w1 evs]. simpl in *.
      apply sys_only_cons; [reflexivity | exact H].
    + specialize (IH (S k) (off + n) (store off got b) w).
      destruct (read_frame fuel fd nbytes rd (S k) (off + n) (store off got b) w)
        as [[b' w'] evs]. simpl in *.
      apply sys_only_cons; [reflexivity | exact IH].
Qed.

Lemma write_frame_sys_only fuel fd nbytes wr k off b w :
  sys_only (snd (write_frame fuel fd nbytes wr k off b w)).
Proof.
  revert k off w. induction fuel as [|fuel IH]; intros k off w; simpl.
  - destruct (off <? nbytes); reflexivity.
  - destruct (off <? nbytes); [|reflexivity].
    destruct (sys_write (nbytes - off) (wr k) <=? 0).
    + pose proof (drop_client_sys_only fd w) as H.
      destruct (drop_client fd w) as [w1 evs]. simpl in *.
      apply sys_only_cons; [reflexivity | exact H].
    + specialize (IH (S k) (off + sys_write (nbytes - off) (wr k)) w).
      destruct (write_frame fuel fd nbytes wr (S k)
                  (off + sys_write (nbytes - off) (wr k)) b w) as [w' evs].
      simpl in *. apply sys_only_cons; [reflexivity | exact IH].
Qed.

(** ** Shape of one pass of each loop *)

Lemma src_iter_unfold st e s w :
  src_iter st e s w =
  let gc := get_client (se_accept e) w in
  let io := src_io st e s (fst (fst gc)) (snd (fst gc)) in
  let pc := pace (frame_ptime_us (src_ptime st)) (next_frame s)
              (clock_us (se_now_pace e)) in
  ({| next_frame := fst pc; buf := fst (fst io) |}, snd (fst io),
   snd gc ++ snd io ++ snd pc
     ++ [EvRh (auframe_init AUFMT_S16LE (fst (fst io)) (src_sampc st)
                 (src_srate st) 1) (src_arg st)]).
Proof.
  unfold src_iter.
  destruct (get_client (se_accept e) w) as [[fd w1] ev_gc]. simpl.
  destruct (src_io st e s fd w1) as [[b w2] ev_io]. simpl.
  destruct (pace _ _ _) as [nf ev_pace]. reflexivity.
Qed.

Lemma play_iter_unfold st e s w :
  play_iter st e s w =
  let b := host_fill (pe_audio e) (buf s) in
  let gc := get_client (pe_accept e) w in
  let io := play_io st b e (fst (fst gc)) (snd (fst gc)) in
  let pc := pace (frame_ptime_us (play_ptime st)) (next_frame s)
              (clock_us (pe_now_pace e)) in
  ({| next_frame := fst pc; buf := b |}, fst io,
   EvWh (auframe_init AUFMT_S16LE b (play_sampc st) (play_srate st) 1)
        (play_arg st)
     :: snd gc ++ snd io ++ snd pc).
Proof.
  unfold play_iter.
  destruct (get_client (pe_accept e) w) as [[fd w1] ev_gc]. simpl.
  destruct (play_io _ _ _ _ _) as [w2 ev_io]. simpl.
  destruct (pace _ _ _) as [nf ev_pace]. reflexivity.
Qed.

Lemma src_io_sys_only st e s fd w1 : sys_only (snd (src_io st e s fd w1)).
Proof.
  unfold src_io. destruct (0 <=? fd); [|reflexivity].
  destruct ((0 <? se_poll_ret e) && negb (Z.land (se_revents e) POLLIN =? 0));
    [|reflexivity].
  pose proof (read_frame_sys_only (Z.to_nat (frame_nbytes (src_sampc st))) fd
                (frame_nbytes (src_sampc st)) (se_read e) 0 0 (buf s) w1) as H.
  destruct (read_frame _ _ _ _ _ _ _ _) as [[b w'] evs]. simpl in *.
  apply sys_only_cons; [reflexivity | exact H].
Qed.

Lemma play_io_sys_only st b e fd w1 : sys_only (snd (play_io st b e fd w1)).
Proof.
  unfold play_io. destruct (0 <=? fd); [|reflexivity].
  apply write_frame_sys_only.
Qed.

(** ** The buffer keeps the size it was allocated with *)

Lemma length_src_io st e s fd w1 :
  length (buf s) = Z.to_nat (frame_nbytes (src_sampc st)) ->
  length (fst (fst (src_io st e s fd w1))) = length (buf s).
Proof.
  intros Hlen. unfold src_io.
  pose proof (wrap64_range (src_sampc st * 2)) as Hn.
  fold (frame_nbytes (src_sampc st)) in Hn.
  assert (Hms : length (memset0 0 (frame_nbytes (src_sampc st)) (buf s))
                = length (buf s)) by (apply length_memset0; lia).
  destruct (0 <=? fd); [|exact Hms].
  destruct ((0 <? se_poll_ret e) && negb (Z.land (se_revents e) POLLIN =? 0));
    [|exact Hms].
  pose proof (length_read_frame (Z.to_nat (frame_nbytes (src_sampc st))) fd
                (frame_nbytes (src_sampc st)) (se_read e) 0 0 (buf s) w1) as H.
  destruct (read_frame _ _ _ _ _ _ _ _) as [[b w'] evs]. simpl in *.
  apply H; lia.
Qed.

Lemma src_reach_length st s :
  src_reach st s -> length (buf s) = Z.to_nat (frame_nbytes (src_sampc st)).
Proof.
  induction 1 as [ts | e s w Hr IH].
  - simpl. apply length_replicate.
  - rewrite src_iter_unfold. simpl. rewrite length_src_io; assumption.
Qed.

Lemma play_reach_length st s :
  play_reach st s -> length (buf s) = Z.to_nat (frame_nbytes (play_sampc st)).
Proof.
  induction 1 as [ts | e s w Hr IH].
  - simpl. apply length_replicate.
  - rewrite play_iter_unfold. simpl. rewrite length_host_fill. exact IH.
Qed.

(** The states a thread goes through are the ones [src_reach] and
    [play_reach] describe. *)
Lemma src_loop_reach st envs : forall s w,
  src_reach st s ->
  Forall (fun r => src_reach st (fst (fst r))) (src_loop st envs s w).
Proof.
  induction envs as [|e envs IH]; intros s w Hr; simpl; constructor.
  - apply src_reach_iter, Hr.
  - apply IH, src_reach_iter, Hr.
Qed.

Lemma src_thread_reach st ok ts envs w :
  Forall (fun r => src_reach st (fst (fst r)))
    (snd (src_thread st ok ts envs w)).
Proof.
  unfold src_thread. destruct ok; simpl; [|constructor].
  apply src_loop_reach, src_reach_start.
Qed.

Lemma play_loop_reach st envs : forall s w,
  play_reach st s ->
  Forall (fun r => play_reach st (fst (fst r))) (play_loop st envs s w).
Proof.
  induction envs as [|e envs IH]; intros s w Hr; simpl; constructor.
  - apply play_reach_iter, Hr.
  - apply IH, play_reach_iter, Hr.
Qed.

Lemma play_thread_reach st ok ts envs w :
  Forall (fun r => play_reach st (fst (fst r)))
    (snd (play_thread st ok ts envs w)).
Proof.
  unfold play_thread. destruct ok; simpl; [|constructor].
  apply play_loop_reach, play_reach_start.
Qed.

Lemma samples_zero n :
  samples (replicate (2 * n) x00) = replicate n 0.
Proof.
  induction n as [|n IH]; [reflexivity|].
  replace (2 * S n)%nat with (S (S (2 * n))) by lia.
  change (replicate (S (S (2 * n))) x00) with (x00 :: x00 :: replicate (2 * n) x00).
  change (samples (x00 :: x00 :: replicate (2 * n) x00))
    with (s16le x00 x00 :: samples (replicate (2 * n) x00)).
  rewrite IH. reflexivity.
Qed.

Lemma src_alloc_inv ok thr prm rh errh arg st :
  src_alloc ok thr prm rh errh arg = inr st ->
  src_sampc st = frame_sampc prm /\ src_ptime st = prm_ptime prm /\
  src_srate st = prm_srate prm /\ src_arg st = arg /\ src_run st = true.
Proof.
  unfold src_alloc. destruct ok; [|discriminate].
  destruct (thr =? 0); [|discriminate].
  intros H. inversion H; subst; clear H. simpl. tauto.
Qed.

Lemma play_alloc_inv ok thr prm wh arg st :
  play_alloc ok thr prm wh arg = inr st ->
  play_sampc st = frame_sampc prm /\ play_ptime st = prm_ptime prm /\
  play_srate st = prm_srate prm /\ play_arg st = arg /\ play_run st = true.
Proof.
  unfold play_alloc. destruct ok; [|discriminate].
  destruct (thr =? 0); [|discriminate].
  intros H. inversion H; subst; clear H. simpl. tauto.
Qed.

Lemma src_iter_shape st e s w :
  exists pre af,
    snd (src_iter st e s w) = pre ++ [EvRh af (src_arg st)] /\ sys_only pre.
Proof.
  rewrite src_iter_unfold. cbv zeta. simpl snd.
  set (gc := get_client (se_accept e) w).
  set (io := src_io st e s (fst (fst gc)) (snd (fst gc))).
  set (pc := pace _ _ _).
  eexists (snd gc ++ snd io ++ snd pc), _. split.
  - rewrite <- !app_assoc. reflexivity.
  - apply sys_only_app; [apply get_client_sys_only|].
    apply sys_only_app; [apply src_io_sys_only | apply pace_sys_only].
Qed.

(** ** The model on concrete inputs *)

Example get_client_accepts_pending :
  get_client 5 world_idle
  = (5, set_client_fd 5 (sys_set_blocking 5 (snd (sys_accept 5 world_idle))),
     [EvAccept 3 5; EvSetFl 5 0]).
Proof. reflexivity. Qed.

Example get_client_nothing_pending :
  get_client (-1) world_idle = (-1, world_idle, [EvAccept 3 (-1)]).
Proof. reflexivity. Qed.

Example src_iter_full_frame :
  let r := src_iter src_8k (src_env_data 1500) (src_start src_8k (at_us 0))
             world_peer in
  List.filter is_rh (snd r)
  = [EvRh (auframe_init AUFMT_S16LE (replicate 320 x01) 160 8000 1) 3] /\
  next_frame (fst (fst r)) = 20000 /\ poll_timeouts (snd r) = [0].
Proof. vm_compute. repeat split. Qed.

Example src_iter_eof_after_partial :
  let r := src_iter src_8k (src_env_eof 1500) (src_start src_8k (at_us 0))
             world_peer in
  buf (fst (fst r)) = [x01; x01] ++ replicate 318 x00 /\
  closes_of (snd r) = [5] /\ client_fd (snd (fst r)) = -1.
Proof. vm_compute. repeat split. Qed.

Example play_iter_write_error :
  let r := play_iter play_8k (play_env_fail 1000)
             (play_start play_8k (at_us 0)) world_peer in
  writes_of (snd r)
  = [(5, replicate 320 x01, 100); (5, replicate 220 x01, -1)] /\
  closes_of (snd r) = [5] /\ client_fd (snd (fst r)) = -1 /\
  next_frame (fst (fst r)) = 20000.
Proof. vm_compute. repeat split. Qed.

(** ** Claims about the two loops *)

(** C1: in every pass of the inbound loop the read handler [rh] is called
    exactly once, as the last call of the pass, whatever [get_client],
    [poll] and [read] answered; in every pass of the outbound loop the
    write handler [wh] is called exactly once, as the first call of the
    pass, before [get_client] looks for a peer. *)
Theorem callback_once_per_iteration :
  (forall st e s w,
     exists pre af,
       snd (src_iter st e s w) = pre ++ [EvRh af (src_arg st)] /\
       sys_only pre /\
       length (List.filter is_rh (snd (src_iter st e s w))) = 1%nat) /\
  (forall st e s w,
     exists af post,
       snd (play_iter st e s w)
         = EvWh af (play_arg st) :: snd (get_client (pe_accept e) w) ++ post /\
       sys_only (snd (get_client (pe_accept e) w) ++ post) /\
       length (List.filter is_wh (snd (play_iter st e s w))) = 1%nat).
Proof.
  split; intros st e s w.
  - destruct (src_iter_shape st e s w) as (pre & af & Htr & Hpre).
    exists pre, af. rewrite Htr. split; [reflexivity|]. split; [exact Hpre|].
    rewrite List.filter_app, (sys_only_no_rh _ Hpre). reflexivity.
  - rewrite play_iter_unfold. cbv zeta. simpl snd.
    set (b := host_fill (pe_audio e) (buf s)).
    set (gc := get_client (pe_accept e) w).
    set (io := play_io st b e (fst (fst gc)) (snd (fst gc))).
    set (pc := pace _ _ _).
    assert (Hpost : sys_only (snd gc ++ snd io ++ snd pc)).
    { apply sys_only_app; [apply get_client_sys_only|].
      apply sys_only_app; [apply play_io_sys_only | apply pace_sys_only]. }
    eexists _, (snd io ++ snd pc). split; [reflexivity|]. split; [exact Hpost|].
    simpl. rewrite (sys_only_no_wh _ Hpost). reflexivity.
Qed.

(** C2: in a pass of the inbound loop of a session made by [src_alloc], if
    [get_client] finds no peer, or [poll] reports no readable data (it timed
    out, failed, or did not set [POLLIN]), the frame handed to [rh] has
    [sampc] samples and all of them are zero. *)
Theorem silence_without_data ok thr prm rh errh arg st e s w :
  src_alloc ok thr prm rh errh arg = inr st ->
  src_reach st s ->
  fst (fst (get_client (se_accept e) w)) < 0 \/
    se_poll_ret e <= 0 \/ Z.land (se_revents e) POLLIN = 0 ->
  exists pre af,
    snd (src_iter st e s w) = pre ++ [EvRh af (src_arg st)] /\
    sys_only pre /\
    af_sampc af = src_sampc st /\
    length (samples (af_sampv af)) = Z.to_nat (src_sampc st) /\
    samples (af_sampv af) = replicate (Z.to_nat (src_sampc st)) 0.
Proof.
  intros Halloc Hreach Hcase.
  apply src_alloc_inv in Halloc as (Hsampc & _).
  pose proof (frame_sampc_range prm) as Hrange. rewrite <- Hsampc in Hrange.
  pose proof (src_reach_length _ _ Hreach) as Hlen.
  rewrite src_iter_unfold. cbv zeta. simpl snd.
  set (gc := get_client (se_accept e) w) in *.
  assert (Hio : fst (fst (src_io st e s (fst (fst gc)) (snd (fst gc))))
                = replicate (Z.to_nat (frame_nbytes (src_sampc st))) x00).
  { unfold src_io.
    destruct (Z.leb_spec 0 (fst (fst gc))) as [Hfd|Hfd].
    - destruct (Z.ltb_spec 0 (se_poll_ret e)) as [Hret|Hret]; simpl.
      + destruct (Z.eqb_spec (Z.land (se_revents e) POLLIN) 0) as [Hrev|Hrev];
          simpl; [apply memset0_all, Hlen | lia].
      + apply memset0_all, Hlen.
    - simpl. apply memset0_all, Hlen. }
  set (io := src_io st e s (fst (fst gc)) (snd (fst gc))) in *.
  set (pc := pace _ _ _).
  eexists (snd gc ++ snd io ++ snd pc), _. split; [|split; [|split; [|split]]].
  - rewrite <- !app_assoc. reflexivity.
  - apply sys_only_app; [apply get_client_sys_only|].
    apply sys_only_app; [apply src_io_sys_only | apply pace_sys_only].
  - reflexivity.
  - simpl. rewrite Hio, frame_nbytes_eq by lia.
    replace (Z.to_nat (2 * src_sampc st)) with (2 * Z.to_nat (src_sampc st))%nat by lia.
    rewrite samples_zero. apply length_replicate.
  - simpl. rewrite Hio, frame_nbytes_eq by lia.
    replace (Z.to_nat (2 * src_sampc st)) with (2 * Z.to_nat (src_sampc st))%nat by lia.
    apply samples_zero.
Qed.

Lemma silence_without_data_witness :
  exists pre af,
    snd (src_iter src_8k (src_env_idle 1000) (src_start src_8k (at_us 0))
           world_idle) = pre ++ [EvRh af (src_arg src_8k)] /\
    sys_only pre /\
    af_sampc af = src_sampc src_8k /\
    length (samples (af_sampv af)) = Z.to_nat (src_sampc src_8k) /\
    samples (af_sampv af) = replicate (Z.to_nat (src_sampc src_8k)) 0.
Proof.
  apply (silence_without_data true 0 prm_8k 1 2 3 src_8k (src_env_idle 1000)
           (src_start src_8k (at_us 0)) world_idle).
  - reflexivity.
  - constructor.
  - left. vm_compute. reflexivity.
Defined.

(** ** Pacing *)

Lemma pace_cursor p c now :
  0 <= p -> 0 <= c -> c + p < 2 ^ 64 ->
  fst (pace p c now) = (if now <? c + p then c + p else now) /\
  c <= fst (pace p c now).
Proof.
  intros Hp Hc Hb. unfold pace. rewrite wrap64_small by lia.
  destruct (Z.ltb_spec now (c + p)); simpl; lia.
Qed.

Lemma pace_run_follows p nows : forall c B,
  0 <= p -> 0 <= c <= B ->
  Forall (fun now => now <= B) nows ->
  B + Z.of_nat (length nows) * p < 2 ^ 64 ->
  follows_pacing p c nows (pace_run p c nows) /\
  Forall (Z.le c) (pace_run p c nows) /\
  StronglySorted Z.le (c :: pace_run p c nows).
Proof.
  induction nows as [|now nows IH]; intros c B Hp Hc Hnows Hb.
  - simpl. repeat split; constructor; constructor.
  - inversion Hnows as [|? ? Hnow Hrest]; subst.
    simpl length in Hb.
    destruct (pace_cursor p c now) as [Heq Hle]; [lia | lia | nia |].
    assert (Hc' : 0 <= fst (pace p c now) <= B + p).
    { rewrite Heq. destruct (Z.ltb_spec now (c + p)); lia. }
    destruct (IH (fst (pace p c now)) (B + p)) as (Hf & Hall & Hs).
    + exact Hp.
    + exact Hc'.
    + eapply Forall_impl; [exact Hrest|]. simpl. intros; lia.
    + nia.
    + assert (Hall' : Forall (Z.le c) (pace_run p c (now :: nows))).
      { simpl. constructor; [exact Hle|].
        eapply Forall_impl; [exact Hall|]. simpl. intros; lia. }
      simpl. repeat split; try assumption.
      constructor; assumption.
Qed.

Lemma src_loop_cursors st envs : forall s w,
  cursors (src_loop st envs s w)
  = pace_run (frame_ptime_us (src_ptime st)) (next_frame s)
      (map (fun e => clock_us (se_now_pace e)) envs).
Proof.
  induction envs as [|e envs IH]; intros s w; [reflexivity|].
  simpl. rewrite IH. rewrite src_iter_unfold. reflexivity.
Qed.

Lemma play_loop_cursors st envs : forall s w,
  cursors (play_loop st envs s w)
  = pace_run (frame_ptime_us (play_ptime st)) (next_frame s)
      (map (fun e => clock_us (pe_now_pace e)) envs).
Proof.
  induction envs as [|e envs IH]; intros s w; [reflexivity|].
  simpl. rewrite IH. rewrite play_iter_unfold. reflexivity.
Qed.

(** C3: in both loops the timing cursor moves, pass by pass, to its
    previous value plus one frame period ([ptime] milliseconds) when that
    deadline is still ahead of the clock, and to the clock reading
    otherwise; hence it never decreases during the run.  The cursor is a
    [uint64_t] count of microseconds and the period is computed in
    [uint32_t]: the statement is for periods and clock readings that fit
    (the clock stays below [B], and [B] plus one period per pass is below
    2^64). *)
Theorem cursor_advances_or_resets
    (sst : ausrc_st) (senvs : list src_env) (s1 : loop_st) (w1 : world)
    (pst : auplay_st) (penvs : list play_env) (s2 : loop_st) (w2 : world)
    (B : Z) :
  0 <= src_ptime sst -> src_ptime sst * 1000 < 2 ^ 32 ->
  0 <= play_ptime pst -> play_ptime pst * 1000 < 2 ^ 32 ->
  0 <= next_frame s1 <= B -> 0 <= next_frame s2 <= B ->
  Forall (fun e => clock_us (se_now_pace e) <= B) senvs ->
  Forall (fun e => clock_us (pe_now_pace e) <= B) penvs ->
  B + Z.of_nat (length senvs) * (src_ptime sst * 1000) < 2 ^ 64 ->
  B + Z.of_nat (length penvs) * (play_ptime pst * 1000) < 2 ^ 64 ->
  (follows_pacing (src_ptime sst * 1000) (next_frame s1)
     (map (fun e => clock_us (se_now_pace e)) senvs)
     (cursors (src_loop sst senvs s1 w1)) /\
   StronglySorted Z.le (next_frame s1 :: cursors (src_loop sst senvs s1 w1)))
  /\
  (follows_pacing (play_ptime pst * 1000) (next_frame s2)
     (map (fun e => clock_us (pe_now_pace e)) penvs)
     (cursors (play_loop pst penvs s2 w2)) /\
   StronglySorted Z.le (next_frame s2 :: cursors (play_loop pst penvs s2 w2))).
Proof.
  intros Hs0 Hs1 Hp0 Hp1 Hc1 Hc2 Hbs Hbp Hns Hnp.
  rewrite src_loop_cursors, play_loop_cursors.
  rewrite !frame_ptime_us_eq by assumption.
  split.
  - destruct (pace_run_follows (src_ptime sst * 1000)
                (map (fun e => clock_us (se_now_pace e)) senvs)
                (next_frame s1) B) as (Hf & _ & Hsorted).
    + lia.
    + exact Hc1.
    + rewrite Forall_map. exact Hbs.
    + rewrite length_map. exact Hns.
    + split; assumption.
  - destruct (pace_run_follows (play_ptime pst * 1000)
                (map (fun e => clock_us (pe_now_pace e)) penvs)
                (next_frame s2) B) as (Hf & _ & Hsorted).
    + lia.
    + exact Hc2.
    + rewrite Forall_map. exact Hbp.
    + rewrite length_map. exact Hnp.
    + split; assumption.
Qed.

Lemma cursor_advances_or_resets_witness :
  (follows_pacing 20000 0 [1000; 50000; 60000]
     (cursors (src_loop src_8k
                 [src_env_idle 1000; src_env_idle 50000; src_env_idle 60000]
                 (src_start src_8k (at_us 0)) world_idle)) /\
   StronglySorted Z.le
     (0 :: cursors (src_loop src_8k
                 [src_env_idle 1000; src_env_idle 50000; src_env_idle 60000]
                 (src_start src_8k (at_us 0)) world_idle)))
  /\
  (follows_pacing 20000 0 [1000; 50000]
     (cursors (play_loop play_8k [play_env_idle 1000; play_env_idle 50000]
                 (play_start play_8k (at_us 0)) world_idle)) /\
   StronglySorted Z.le
     (0 :: cursors (play_loop play_8k [play_env_idle 1000; play_env_idle 50000]
                 (play_start play_8k (at_us 0)) world_idle))).
Proof.
  apply (cursor_advances_or_resets
           src_8k [src_env_idle 1000; src_env_idle 50000; src_env_idle 60000]
           (src_start src_8k (at_us 0)) world_idle
           play_8k [play_env_idle 1000; play_env_idle 50000]
           (play_start play_8k (at_us 0)) world_idle 100000).
  - simpl; lia.
  - simpl; lia.
  - simpl; lia.
  - simpl; lia.
  - vm_compute. split; discriminate.
  - vm_compute. split; discriminate.
  - repeat constructor; vm_compute; discriminate.
  - repeat constructor; vm_compute; discriminate.
  - vm_compute. reflexivity.
  - vm_compute. reflexivity.
Defined.

(** ** The connection slot, one caller at a time *)

Lemma get_client_result ans w :
  let r := get_client ans w in
  (fst (fst r) = -1 /\ closes_of (snd r) = []) \/
  (0 <= fst (fst r) /\ client_fd (snd (fst r)) = fst (fst r) /\
   closes_of (snd r) = [] /\
   ((0 <= client_fd w -> client_fd w ∈ open_fds w) ->
    fst (fst r) ∈ open_fds (snd (fst r)))).
Proof.
  unfold get_client, Slot.lookup, Slot.try_accept, Slot.commit, sys_accept.
  destruct (0 <=? client_fd w) eqn:Hslot; simpl.
  - apply Z.leb_le in Hslot. right. repeat split; auto.
  - destruct (ans <? 0) eqn:Hans; repeat (simpl; rewrite ?Hans, ?Hslot).
    + left. split; reflexivity.
    + apply Z.ltb_ge in Hans.
      right. repeat split; auto. intros _. set_solver.
Qed.

Lemma drop_client_held fd w :
  client_fd w = fd ->
  drop_client fd w
  = (set_client_fd (-1) (fst (sys_close fd w)), [snd (sys_close fd w)]).
Proof. intros H. unfold drop_client. rewrite H, Z.eqb_refl. reflexivity. Qed.

Lemma drop_client_other fd w : client_fd w <> fd -> drop_client fd w = (w, []).
Proof.
  intros H. unfold drop_client.
  destruct (Z.eqb_spec (client_fd w) fd); [contradiction | reflexivity].
Qed.

(** C5: for a handle [fd] (a non-negative descriptor), [drop_client fd]
    closes a descriptor exactly when the slot holds [fd]; it then closes
    [fd], once, and empties the slot, leaving every other descriptor as it
    was.  Otherwise it changes nothing and closes nothing, so a second drop
    of the same handle does nothing. *)
Theorem drop_client_only_held fd w :
  0 <= fd ->
  let r := drop_client fd w in
  (closes_of (snd r) <> [] <-> client_fd w = fd) /\
  (client_fd w = fd ->
     snd r = [EvClose fd (bool_decide (fd ∈ open_fds w))] /\
     client_fd (fst r) = -1 /\
     open_fds (fst r) = open_fds w ∖ {[fd]}) /\
  (client_fd w <> fd -> r = (w, [])) /\
  drop_client fd (fst r) = (fst r, []).
Proof.
  intros Hfd r. subst r.
  destruct (Z.eq_dec (client_fd w) fd) as [Heq|Hne].
  - rewrite (drop_client_held fd w Heq). cbn [fst snd sys_close closes_of].
    repeat split; try (intros; congruence); try discriminate.
    apply drop_client_other. cbn. lia.
  - rewrite (drop_client_other fd w Hne). cbn [fst snd closes_of].
    repeat split; try (intros; congruence).
    apply drop_client_other, Hne.
Qed.

Lemma drop_client_only_held_witness :
  let r := drop_client 5 world_peer in
  (closes_of (snd r) <> [] <-> client_fd world_peer = 5) /\
  (client_fd world_peer = 5 ->
     snd r = [EvClose 5 (bool_decide (5 ∈ open_fds world_peer))] /\
     client_fd (fst r) = -1 /\
     open_fds (fst r) = open_fds world_peer ∖ {[5]}) /\
  (client_fd world_peer <> 5 -> r = (world_peer, [])) /\
  drop_client 5 (fst r) = (fst r, []).
Proof. apply (drop_client_only_held 5 world_peer). lia. Defined.

(** ** Frame size *)

Lemma length_samples : forall b : list byte,
  length (samples b) = Nat.div2 (length b).
Proof.
  fix IH 1. intros [|lo [|hi r]]; [reflexivity | reflexivity |].
  simpl. f_equal. apply IH.
Qed.

Lemma frame_sampc_one_channel prm :
  prm_ch prm = 1 -> 0 <= prm_srate prm -> 0 <= prm_ptime prm ->
  prm_srate prm * prm_ptime prm < 2 ^ 32 ->
  frame_sampc prm = prm_srate prm * prm_ptime prm / 1000.
Proof.
  intros Hch Hs Hp Hb. unfold frame_sampc.
  rewrite Hch, Z.mul_1_r, wrap32_mul_l, wrap32_small by nia. reflexivity.
Qed.

(** C9: for a session made by [src_alloc] or [play_alloc] with one channel
    (and a rate and period whose product fits [uint32_t], in which the code
    computes), the frame length [sampc] is [srate * ptime / 1000] with
    integer division; the buffer of the running loop holds that many
    samples in every state the loop reaches; at 8000 Hz and 20 ms it is
    160 samples. *)
Theorem frame_length_fixed ok thr prm rh errh wh arg :
  prm_ch prm = 1 -> 0 <= prm_srate prm -> 0 <= prm_ptime prm ->
  prm_srate prm * prm_ptime prm < 2 ^ 32 ->
  (forall st, src_alloc ok thr prm rh errh arg = inr st ->
     src_sampc st = prm_srate prm * prm_ptime prm / 1000 /\
     (forall s, src_reach st s ->
        Z.of_nat (length (samples (buf s)))
        = prm_srate prm * prm_ptime prm / 1000) /\
     (prm_srate prm = 8000 -> prm_ptime prm = 20 -> src_sampc st = 160)) /\
  (forall st, play_alloc ok thr prm wh arg = inr st ->
     play_sampc st = prm_srate prm * prm_ptime prm / 1000 /\
     (forall s, play_reach st s ->
        Z.of_nat (length (samples (buf s)))
        = prm_srate prm * prm_ptime prm / 1000) /\
     (prm_srate prm = 8000 -> prm_ptime prm = 20 -> play_sampc st = 160)).
Proof.
  intros Hch Hs Hp Hb.
  pose proof (frame_sampc_one_channel prm Hch Hs Hp Hb) as Hsampc.
  pose proof (frame_sampc_range prm) as Hrange.
  assert (Hhalf : forall b : list byte,
             length b = Z.to_nat (frame_nbytes (frame_sampc prm)) ->
             Z.of_nat (length (samples b)) = frame_sampc prm).
  { intros b Hlen. rewrite length_samples, Hlen, frame_nbytes_eq by lia.
    replace (Z.to_nat (2 * frame_sampc prm))
      with (2 * Z.to_nat (frame_sampc prm))%nat by lia.
    rewrite Nat.div2_double. lia. }
  split; intros st Hst.
  - apply src_alloc_inv in Hst as (Hsc & _). repeat split.
    + congruence.
    + intros s Hr. apply src_reach_length in Hr. rewrite Hsc in Hr.
      rewrite <- Hsampc. apply Hhalf, Hr.
    + intros H1 H2. rewrite Hsc, Hsampc, H1, H2. reflexivity.
  - apply play_alloc_inv in Hst as (Hsc & _). repeat split.
    + congruence.
    + intros s Hr. apply play_reach_length in Hr. rewrite Hsc in Hr.
      rewrite <- Hsampc. apply Hhalf, Hr.
    + intros H1 H2. rewrite Hsc, Hsampc, H1, H2. reflexivity.
Qed.

Lemma frame_length_fixed_witness :
  (forall st, src_alloc true 0 prm_8k 1 2 3 = inr st ->
     src_sampc st = prm_srate prm_8k * prm_ptime prm_8k / 1000 /\
     (forall s, src_reach st s ->
        Z.of_nat (length (samples (buf s)))
        = prm_srate prm_8k * prm_ptime prm_8k / 1000) /\
     (prm_srate prm_8k = 8000 -> prm_ptime prm_8k = 20 -> src_sampc st = 160)) /\
  (forall st, play_alloc true 0 prm_8k 1 3 = inr st ->
     play_sampc st = prm_srate prm_8k * prm_ptime prm_8k / 1000 /\
     (forall s, play_reach st s ->
        Z.of_nat (length (samples (buf s)))
        = prm_srate prm_8k * prm_ptime prm_8k / 1000) /\
     (prm_srate prm_8k = 8000 -> prm_ptime prm_8k = 20 -> play_sampc st = 160)).
Proof.
  apply (frame_length_fixed true 0 prm_8k 1 2 1 3).
  - reflexivity.
  - simpl; lia.
  - simpl; lia.
  - simpl; lia.
Defined.

(** ** Projections of traces *)

Lemma poll_timeouts_app tr1 tr2 :
  poll_timeouts (tr1 ++ tr2) = poll_timeouts tr1 ++ poll_timeouts tr2.
Proof. induction tr1 as [|[] tr1 IH]; simpl; rewrite ?IH; reflexivity. Qed.

Lemma writes_of_app tr1 tr2 :
  writes_of (tr1 ++ tr2) = writes_of tr1 ++ writes_of tr2.
Proof. induction tr1 as [|[] tr1 IH]; simpl; rewrite ?IH; reflexivity. Qed.

Lemma closes_of_app tr1 tr2 :
  closes_of (tr1 ++ tr2) = closes_of tr1 ++ closes_of tr2.
Proof. induction tr1 as [|[] tr1 IH]; simpl; rewrite ?IH; reflexivity. Qed.

Lemma get_client_quiet ans w :
  poll_timeouts (snd (get_client ans w)) = [] /\
  writes_of (snd (get_client ans w)) = [].
Proof.
  unfold get_client, Slot.lookup, Slot.try_accept, Slot.commit, sys_accept, sys_close.
  repeat (case_match; simplify_eq/=); split; reflexivity.
Qed.

Lemma drop_client_quiet fd w :
  poll_timeouts (snd (drop_client fd w)) = [] /\
  writes_of (snd (drop_client fd w)) = [].
Proof. unfold drop_client, sys_close. case_match; split; reflexivity. Qed.

Lemma pace_quiet p nf now :
  poll_timeouts (snd (pace p nf now)) = [] /\
  writes_of (snd (pace p nf now)) = [] /\
  closes_of (snd (pace p nf now)) = [].
Proof. unfold pace. case_match; repeat split; reflexivity. Qed.

Lemma read_frame_no_poll fuel fd nbytes rd k off b w :
  poll_timeouts (snd (read_frame fuel fd nbytes rd k off b w)) = [].
Proof.
  revert k off b w. induction fuel as [|fuel IH]; intros k off b w; simpl.
  - destruct (off <? nbytes); reflexivity.
  - destruct (off <? nbytes); [|reflexivity].
    destruct (sys_read (nbytes - off) (rd k)) as [n got].
    destruct (n <=? 0).
    + destruct (drop_client_quiet fd w) as [H _].
      destruct (drop_client fd w) as [w1 evs]. exact H.
    + specialize (IH (S k) (off + n) (store off got b) w).
      destruct (read_frame fuel fd nbytes rd (S k) (off + n) (store off got b) w)
        as [[b' w'] evs]. exact IH.
Qed.

(** C6: in a pass of the inbound loop in which [get_client] returned a
    peer, [poll] is called once, and its timeout (in whole milliseconds) is
    the time left from the clock reading to the frame deadline, rounded
    down; it is zero when the deadline has passed and is never longer than
    the time left.  The time left is taken to fit the [int] that [poll]
    receives (it is less than one frame period in a running loop). *)
Theorem poll_timeout_is_remaining st e s w :
  0 <= fst (fst (get_client (se_accept e) w)) ->
  (next_frame s - clock_us (se_now_poll e)) / 1000 < 2 ^ 31 ->
  let now := clock_us (se_now_poll e) in
  let remaining := Z.max 0 (next_frame s - now) in
  exists t,
    poll_timeouts (snd (src_iter st e s w)) = [t] /\
    t = remaining / 1000 /\
    t * 1000 <= remaining /\ remaining < t * 1000 + 1000 /\
    (next_frame s <= now -> t = 0).
Proof.
  intros Hfd Hfit now remaining.
  exists (poll_timeout (next_frame s) now).
  assert (Ht : poll_timeout (next_frame s) now = remaining / 1000).
  { unfold poll_timeout, remaining.
    destruct (Z.ltb_spec now (next_frame s)) as [Hlt|Hge].
    - rewrite Z.max_r by lia. apply to_int_small. split; [|exact Hfit].
      apply Z.div_pos; lia.
    - rewrite Z.max_l by lia. reflexivity. }
  split; [|split; [exact Ht|]].
  - rewrite src_iter_unfold. cbv zeta. cbn [snd].
    rewrite !poll_timeouts_app.
    destruct (get_client_quiet (se_accept e) w) as [-> _].
    destruct (pace_quiet (frame_ptime_us (src_ptime st)) (next_frame s)
                (clock_us (se_now_pace e))) as [-> _].
    unfold src_io. destruct (Z.leb_spec 0 (fst (fst (get_client (se_accept e) w))));
      [|lia].
    destruct ((0 <? se_poll_ret e) && negb (Z.land (se_revents e) POLLIN =? 0)).
    + pose proof (read_frame_no_poll
                    (Z.to_nat (frame_nbytes (src_sampc st)))
                    (fst (fst (get_client (se_accept e) w)))
                    (frame_nbytes (src_sampc st)) (se_read e) 0 0 (buf s)
                    (snd (fst (get_client (se_accept e) w)))) as Hrf.
      destruct (read_frame _ _ _ _ _ _ _ _) as [[b w'] evs].
      cbn [snd poll_timeouts] in *. rewrite Hrf. reflexivity.
    + reflexivity.
  - rewrite Ht.
    assert (0 <= remaining) by (unfold remaining; lia).
    pose proof (Z.div_mod remaining 1000 ltac:(lia)) as Hdm.
    pose proof (Z.mod_pos_bound remaining 1000 ltac:(lia)) as Hmb.
    repeat split; lia.
Qed.

Lemma poll_timeout_is_remaining_witness :
  let now := clock_us (se_now_poll (src_env_data 1500)) in
  let remaining :=
    Z.max 0 (next_frame (src_start src_8k (at_us 20000)) - now) in
  exists t,
    poll_timeouts (snd (src_iter src_8k (src_env_data 1500)
                          (src_start src_8k (at_us 20000)) world_peer)) = [t] /\
    t = remaining / 1000 /\
    t * 1000 <= remaining /\ remaining < t * 1000 + 1000 /\
    (next_frame (src_start src_8k (at_us 20000)) <= now -> t = 0).
Proof.
  apply (poll_timeout_is_remaining src_8k (src_env_data 1500)
           (src_start src_8k (at_us 20000)) world_peer).
  - vm_compute. discriminate.
  - vm_compute. reflexivity.
Defined.

(** ** The write loop *)

Lemma write_frame_spec fuel fd nbytes wr b : forall k off w,
  let r := write_frame fuel fd nbytes wr k off b w in
  Forall (fun x => fst (fst x) = fd /\
                   exists o l, snd (fst x) = take l (drop o b))
    (writes_of (snd r)) /\
  ((Forall (fun x => 0 < snd x) (writes_of (snd r)) /\
    fst r = w /\ closes_of (snd r) = []) \/
   (exists ws d n,
      writes_of (snd r) = ws ++ [(fd, d, n)] /\ n <= 0 /\
      Forall (fun x => 0 < snd x) ws /\
      fst r = fst (drop_client fd w) /\
      closes_of (snd r) = closes_of (snd (drop_client fd w)))).
Proof.
  induction fuel as [|fuel IH]; intros k off w; simpl.
  - destruct (off <? nbytes); simpl; (split; [constructor | left; repeat split; constructor]).
  - destruct (off <? nbytes); simpl;
      [|split; [constructor | left; repeat split; constructor]].
    set (n := sys_write (nbytes - off) (wr k)).
    set (d := take (Z.to_nat (nbytes - off)) (drop (Z.to_nat off) b)).
    destruct (Z.leb_spec n 0) as [Hz|Hpos].
    + destruct (drop_client_quiet fd w) as [_ Hq].
      destruct (drop_client fd w) as [w1 evs]. simpl in *. rewrite Hq.
      split.
      * constructor; [|constructor]. simpl. split; [reflexivity|].
        eexists _, _. reflexivity.
      * right. exists [], d, n. repeat split; auto.
    + specialize (IH (S k) (off + n) w).
      destruct (write_frame fuel fd nbytes wr (S k) (off + n) b w) as [w' evs].
      simpl in *. destruct IH as [Hall Hcase]. split.
      * constructor; [|exact Hall]. simpl. split; [reflexivity|].
        eexists _, _. reflexivity.
      * destruct Hcase as [(Hp & Hw & Hc) | (ws & d' & n' & Hws & Hn & Hp & Hw & Hc)].
        -- left. repeat split; auto.
        -- right. exists ((fd, d, n) :: ws), d', n'. rewrite Hws.
           repeat split; auto.
Qed.

(** C8: in a pass of the outbound loop nothing is reported to the host:
    [errh] is never called (in the inbound loop neither).  Without a peer
    nothing is written and nothing is closed.  Every [write] offers bytes
    of the frame pulled in this very pass, so a frame that was not sent is
    never sent later.  A failed [write] is the last one of the pass, and
    the peer is dropped: its descriptor is closed and the slot is empty. *)
Theorem peer_errors_stay_local st e s w :
  let r := play_iter st e s w in
  let frame := buf (fst (fst r)) in
  let fd := fst (fst (get_client (pe_accept e) w)) in
  List.filter is_errh (snd r) = [] /\
  (forall sst se ss sw, List.filter is_errh (snd (src_iter sst se ss sw)) = []) /\
  frame = host_fill (pe_audio e) (buf s) /\
  (fd < 0 -> writes_of (snd r) = [] /\ closes_of (snd r) = []) /\
  Forall (fun x => fst (fst x) = fd /\
                   exists o l, snd (fst x) = take l (drop o frame))
    (writes_of (snd r)) /\
  (forall x, x ∈ writes_of (snd r) -> snd x <= 0 ->
     last (writes_of (snd r)) = Some x /\
     closes_of (snd r) = [fd] /\
     client_fd (snd (fst r)) = -1 /\
     fd ∉ open_fds (snd (fst r))).
Proof.
  intros r frame fd. subst r frame fd.
  assert (Hsrc : forall sst se ss sw,
             List.filter is_errh (snd (src_iter sst se ss sw)) = []).
  { intros sst se ss sw.
    destruct (src_iter_shape sst se ss sw) as (pre & af & -> & Hpre).
    rewrite List.filter_app, (sys_only_no_errh _ Hpre). reflexivity. }
  rewrite play_iter_unfold. cbv zeta. cbn [fst snd buf].
  set (b := host_fill (pe_audio e) (buf s)).
  set (gc := get_client (pe_accept e) w) in *.
  set (pc := pace _ _ _).
  destruct (get_client_quiet (pe_accept e) w) as [_ Hgw]. fold gc in Hgw.
  destruct (pace_quiet (frame_ptime_us (play_ptime st)) (next_frame s)
              (clock_us (pe_now_pace e))) as (_ & Hpw & Hpc).
  fold pc in Hpw, Hpc.
  assert (Hgc0 : closes_of (snd gc) = []).
  { destruct (get_client_result (pe_accept e) w) as [[_ H]|(_ & _ & H & _)];
      exact H. }
  cbn [writes_of closes_of].
  rewrite !writes_of_app, !closes_of_app, Hgw, Hpw, Hpc, Hgc0, !app_nil_r.
  cbn [app].
  split; [|split; [exact Hsrc|split; [reflexivity|]]].
  { cbn [List.filter is_errh]. apply sys_only_no_errh.
    apply sys_only_app; [apply get_client_sys_only|].
    apply sys_only_app; [apply play_io_sys_only | apply pace_sys_only]. }
  unfold play_io.
  pose proof (get_client_result (pe_accept e) w) as Hres.
  cbv zeta in Hres. fold gc in Hres.
  remember (fst (fst gc)) as fd eqn:Hfdeq.
  destruct (Z.leb_spec 0 fd) as [Hfd|Hfd].
  - pose proof (write_frame_spec (Z.to_nat (frame_nbytes (play_sampc st)))
                  fd (frame_nbytes (play_sampc st)) (pe_write e) b 0 0
                  (snd (fst gc))) as Hw.
    cbv zeta in Hw.
    destruct (write_frame _ _ _ _ _ _ _ _) as [w2 evs].
    cbn [fst snd] in *. destruct Hw as [Hall Hcase].
    split; [lia|]. split; [exact Hall|].
    intros x Hx Hneg.
    destruct Hcase as [(Hp & _) | (ws & d & n & Hws & Hn & Hp & Hw2 & Hc)].
    + rewrite Forall_forall in Hp. specialize (Hp x Hx). lia.
    + rewrite Hws in Hx |- *. apply elem_of_app in Hx as [Hx|Hx].
      * rewrite Forall_forall in Hp. specialize (Hp x Hx). lia.
      * apply list_elem_of_singleton in Hx. subst x.
        assert (Hslot : client_fd (snd (fst gc)) = fd).
        { destruct Hres as [[H _]|(_ & H & _)]; [lia | exact H]. }
        rewrite (drop_client_held fd _ Hslot) in Hw2, Hc.
        cbn [fst snd sys_close closes_of] in Hw2, Hc.
        rewrite Hc, Hw2. cbn [client_fd open_fds set_client_fd].
        split; [apply last_snoc|]. repeat split.
        rewrite elem_of_difference, elem_of_singleton. tauto.
  - cbn [fst snd writes_of closes_of]. split; [intros _; split; reflexivity|].
    split; [constructor|]. intros x Hx. inversion Hx.
Qed.

(** ** A stalled peer *)

Lemma read_blocked_app tr1 tr2 :
  read_blocked (tr1 ++ tr2) = read_blocked tr1 + read_blocked tr2.
Proof. induction tr1 as [|[] tr1 IH]; simpl; rewrite ?IH; lia. Qed.

Lemma pace_no_read p nf now : read_blocked (snd (pace p nf now)) = 0.
Proof. unfold pace. case_match; reflexivity. Qed.

(** C7 fails on the code.  With a peer connected on a blocking descriptor,
    [poll] is given at most the time to the deadline (here 18 ms), but once
    it reports data the loop calls [read] until the frame is full without
    any timeout: when the peer sends one byte and goes quiet for [d]
    microseconds, the pass spends [d] microseconds inside [read], for any
    [d], hence beyond any bound. *)
Theorem read_stall_has_no_bound (bound : Z) :
  exists d,
    let tr := snd (src_iter src_8k (src_env_stall 1500 d)
                     (src_start src_8k (at_us 20000)) world_peer) in
    poll_timeouts tr = [18] /\
    read_blocked tr = d /\
    bound < read_blocked tr.
Proof.
  exists (Z.max 0 bound + 1). cbv zeta.
  set (d := Z.max 0 bound + 1).
  rewrite src_iter_unfold. cbv zeta. cbn [snd].
  change (get_client (se_accept (src_env_stall 1500 d)) world_peer)
    with (5, world_peer, @nil event).
  cbn [fst snd].
  assert (Hio : snd (src_io src_8k (src_env_stall 1500 d)
                       (src_start src_8k (at_us 20000)) 5 world_peer)
                = [EvPoll 5 18 1 1; EvRead 5 0 320 0 1; EvRead 5 1 319 d 319]).
  { clearbody d. vm_compute. reflexivity. }
  rewrite !poll_timeouts_app, !read_blocked_app, Hio, pace_no_read.
  destruct (pace_quiet (frame_ptime_us (src_ptime src_8k))
              (next_frame (src_start src_8k (at_us 20000)))
              (clock_us (se_now_pace (src_env_stall 1500 d)))) as [-> _].
  cbn [poll_timeouts read_blocked app]. repeat split; lia.
Qed.

(** ** Two concurrent callers of [get_client] *)

Module RaceFacts.
Import Race.

(** A caller that is not interrupted computes [get_client]. *)
Lemma run_thread_get_client ans w :
  let r := run_thread 5 ans start w in
  t_pc (fst r) = Done (fst (fst (get_client ans w))) /\
  snd r = snd (fst (get_client ans w)) /\
  t_trace (fst r) = snd (get_client ans w).
Proof.
  unfold get_client, run_thread, step_thread, start. cbn [t_pc t_trace].
  unfold Slot.lookup.
  destruct (0 <=? client_fd w) eqn:Hslot; cbn [t_pc t_trace fst snd].
  - repeat split.
  - destruct (Slot.try_accept ans w) as [[fd w1] ev1] eqn:Hacc.
    cbn [t_pc t_trace fst snd].
    destruct (fd <? 0) eqn:Hfd; cbn [t_pc t_trace fst snd app].
    + unfold Slot.try_accept, sys_accept in Hacc.
      destruct (ans <? 0) eqn:Hans; cbn in Hacc.
      * rewrite Hans in Hacc. inversion Hacc; subst. repeat split.
      * rewrite Hans in Hacc. inversion Hacc; subst. congruence.
    + destruct (Slot.commit fd w1) as [[r w2] ev2]. repeat split.
Qed.

Lemma tid_eqb_refl t : tid_eqb t t = true.
Proof. destruct t; reflexivity. Qed.

Lemma tid_eqb_other t : tid_eqb (other t) t = false.
Proof. destruct t; reflexivity. Qed.

Lemma tid_cases t who : t = who \/ t = other who.
Proof. destruct t, who; auto. Qed.

Lemma other_other t : other (other t) = t.
Proof. destruct t; reflexivity. Qed.

Ltac by_thread t who :=
  destruct (tid_cases t who) as [->| ->];
  rewrite ?other_other, ?tid_eqb_refl, ?tid_eqb_other.

Lemma inv_init w0 : slot_open w0 -> inv w0 (init w0).
Proof.
  intros Hwf. split; simpl.
  - reflexivity.
  - reflexivity.
  - exact Hwf.
  - left. reflexivity.
  - intros t. reflexivity.
  - intros t fa fb [H|[[H|H] _]]; discriminate.
  - intros x Hx. left. exact Hx.
Qed.

Lemma won_facts w0 w t x :
  tinv w0 w t -> won (listen_fd w0) t x -> published w0 w (t_trace t) x.
Proof.
  unfold tinv, won, committed. intros H [[Hpc|Hpc] Htr]; rewrite Hpc in H.
  - destruct H as [H|(fd & Ht & _)]; [exact H|].
    rewrite Htr in Ht. discriminate.
  - destruct H as [(Ht & _)|[(a & Ht & _)|[H|(fd & Ht & _)]]];
      try (rewrite Htr in Ht; discriminate).
    exact H.
Qed.

Lemma owns_facts w0 w t x :
  tinv w0 w t -> owns (listen_fd w0) t x ->
  0 <= x /\ (x ∈ open_fds w) /\ (x ∉ open_fds w0) /\ client_fd w0 < 0.
Proof.
  intros H [Hpc|Hwon].
  - unfold tinv in H. rewrite Hpc in H. tauto.
  - destruct (won_facts _ _ _ _ H Hwon) as (_ & ? & _ & ? & ? & ?). tauto.
Qed.

Lemma won_not_lost lfd t x y : won lfd t x -> lost lfd t y -> False.
Proof. intros [_ H1] [_ H2]. rewrite H1 in H2. discriminate. Qed.

(** A caller that has not left the second critical section did not fill
    the slot: if the slot is filled although it started empty, the other
    caller did it. *)
Lemma winner_is_other w0 c who :
  inv w0 c ->
  (forall r, ~ committed (c_thr c who) r) ->
  0 <= client_fd (c_world c) -> client_fd w0 < 0 ->
  won (listen_fd w0) (c_thr c (other who)) (client_fd (c_world c)).
Proof.
  intros Hinv Hpc Hslot H0.
  destruct (inv_slot _ _ Hinv) as [Heq|(_ & t & Hwon)]; [lia|].
  destruct (tid_cases t who) as [->| ->]; [|exact Hwon].
  destruct Hwon as [Hd _]. exfalso. exact (Hpc _ Hd).
Qed.

(** Steps that leave the shared state alone and move a caller that owns
    nothing to a position where it owns nothing. *)
Lemma inv_local w0 c who t' :
  inv w0 c ->
  (forall x, ~ owns (listen_fd w0) (c_thr c who) x) ->
  (forall x, ~ owns (listen_fd w0) t' x) ->
  tinv w0 (c_world c) t' ->
  inv w0 {| c_world := c_world c;
            c_thr := fun t => if tid_eqb t who then t' else c_thr c t |}.
Proof.
  intros [Hl Ho0 Hso Hslot Hthr Hdist Ho1] Hold Hnew Ht'. split; simpl.
  - exact Hl.
  - exact Ho0.
  - exact Hso.
  - destruct Hslot as [Heq|(H0 & t & Hwon)]; [left; exact Heq|].
    right. split; [exact H0|]. exists (other who). rewrite tid_eqb_other.
    destruct (tid_cases t who) as [->| ->]; [|exact Hwon].
    exfalso. apply (Hold (client_fd (c_world c))). right. exact Hwon.
  - intros t. by_thread t who; [exact Ht' | apply Hthr].
  - intros t fa fb. by_thread t who.
    + intros H _. exfalso. exact (Hnew _ H).
    + intros _ H. exfalso. exact (Hnew _ H).
  - intros x Hx. destruct (Ho1 x Hx) as [H|(t & H)]; [left; exact H|].
    right. exists (other who). rewrite tid_eqb_other.
    destruct (tid_cases t who) as [->| ->]; [|exact H].
    exfalso. exact (Hold _ H).
Qed.

(** The [return] after the second critical section. *)
Lemma inv_return w0 c who r :
  inv w0 c -> t_pc (c_thr c who) = Committed r ->
  inv w0 {| c_world := c_world c;
            c_thr := fun t => if tid_eqb t who
                              then {| t_pc := Done r;
                                      t_trace := t_trace (c_thr c who) |}
                              else c_thr c t |}.
Proof.
  intros [Hl Ho0 Hso Hslot Hthr Hdist Ho1] Hpc.
  assert (Hwon : forall x,
    won (listen_fd w0) (c_thr c who) x <->
    won (listen_fd w0) {| t_pc := Done r; t_trace := t_trace (c_thr c who) |} x).
  { intros x. unfold won, committed. simpl. rewrite Hpc.
    split; intros [[H|H] Ht]; (split; [|exact Ht]);
      first [left; congruence | right; congruence]. }
  assert (Hown : forall x,
    owns (listen_fd w0) (c_thr c who) x <->
    owns (listen_fd w0) {| t_pc := Done r; t_trace := t_trace (c_thr c who) |} x).
  { intros x. unfold owns. rewrite <- Hwon. simpl. rewrite Hpc.
    split; intros [H|H]; auto; discriminate. }
  split; simpl.
  - exact Hl.
  - exact Ho0.
  - exact Hso.
  - destruct Hslot as [Heq|(H0 & t & Hw)]; [left; exact Heq|].
    right. split; [exact H0|]. exists t. by_thread t who; [|exact Hw].
    apply Hwon, Hw.
  - intros t. by_thread t who; [|apply Hthr].
    pose proof (Hthr who) as H. unfold tinv in *. rewrite Hpc in H. simpl.
    tauto.
  - intros t fa fb. by_thread t who.
    + intros Ha Hb. apply Hown in Ha. apply (Hdist who); assumption.
    + intros Ha Hb. apply Hown in Hb. apply (Hdist (other who)); [exact Ha|].
      rewrite other_other. exact Hb.
  - intros x Hx. destruct (Ho1 x Hx) as [H|(t & H)]; [left; exact H|].
    right. exists t. by_thread t who; [|exact H]. apply Hown, H.
Qed.

(** Another thread's step that keeps the slot and only touches descriptors
    this caller is not concerned with. *)
Lemma tinv_change w0 w w' t :
  tinv w0 w t ->
  client_fd w' = client_fd w ->
  (forall x, owns (listen_fd w0) t x -> x ∈ open_fds w -> x ∈ open_fds w') ->
  (forall x, lost (listen_fd w0) t x -> x ∉ open_fds w -> x ∉ open_fds w') ->
  tinv w0 w' t.
Proof.
  unfold tinv, owns, won, lost, committed. intros H Hc Hown Hlost.
  destruct (t_pc t) as [|fd| |fd|r|r] eqn:Hpc.
  - exact H.
  - rewrite Hc. exact H.
  - exact H.
  - destruct H as (? & ? & ? & ? & ?). repeat split; auto.
  - destruct H as [(Ht & ? & ? & ? & ? & ?)|(fd & Ht & ? & ? & ? & ? & ? & ? & ?)].
    + left. unfold published. rewrite Hc. repeat split; auto;
        try (apply Hown; auto; right; split; auto).
    + right. exists fd. rewrite Hc. repeat split; auto;
        try (apply Hlost; auto; split; eauto).
  - destruct H as [H|[H|[(Ht & ? & ? & ? & ? & ?)
                        |(fd & Ht & ? & ? & ? & ? & ? & ? & ?)]]].
    + left. rewrite Hc. exact H.
    + right. left. exact H.
    + right. right. left. unfold published. rewrite Hc. repeat split; auto;
        try (apply Hown; auto; right; split; auto).
    + right. right. right. exists fd. rewrite Hc. repeat split; auto;
        try (apply Hlost; auto; split; eauto).
Qed.

(** Another thread fills the empty slot. *)
Lemma tinv_publish w0 w fd t :
  tinv w0 w t -> client_fd w < 0 -> tinv w0 (set_client_fd fd w) t.
Proof.
  unfold tinv, published, discarded. simpl. intros H Hfree.
  destruct (t_pc t) as [|fd'| |fd'|r|r].
  - exact H.
  - destruct H as (? & Hpos & ?). repeat split; auto. intros Hge.
    specialize (Hpos Hge). lia.
  - exact H.
  - exact H.
  - destruct H as [(_ & ? & ? & _)|(fd' & _ & _ & ? & ? & _)]; lia.
  - destruct H as [(_ & ? & ?)|[H|[(_ & ? & ? & _)|(fd' & _ & _ & ? & ? & _)]]];
      try lia.
    right. left. exact H.
Qed.

Lemma inv_step w0 c who ans c' :
  inv w0 c ->
  (t_pc (c_thr c who) = Accepting -> fresh ans (c_world c)) ->
  step who ans c = Some c' ->
  inv w0 c'.
Proof.
  intros Hinv Hfresh Hstep.
  pose proof (inv_thr _ _ Hinv who) as Hwho.
  pose proof (inv_thr _ _ Hinv (other who)) as Hoth.
  pose proof (winner_is_other w0 c who Hinv) as Hwin.
  unfold step, step_thread in Hstep.
  destruct (t_pc (c_thr c who)) as [|fd| |fd|r|r] eqn:Hpc.
  - (* first critical section *)
    inversion Hstep; subst c'; clear Hstep. unfold Slot.lookup.
    unfold tinv in Hwho. rewrite Hpc in Hwho.
    apply inv_local; [exact Hinv | | |].
    + intros x [H|[[H|H] _]]; congruence.
    + intros x [H|[[H|H] _]]; discriminate.
    + unfold tinv. simpl. repeat split; auto. intros Hfree.
      destruct (inv_slot _ _ Hinv) as [Heq|(H0 & _)]; lia.
  - (* the test on what was read *)
    inversion Hstep; subst c'; clear Hstep.
    unfold tinv in Hwho. rewrite Hpc in Hwho. destruct Hwho as (Htr & Hheld & Hfree).
    apply inv_local; [exact Hinv | | |].
    + intros x [H|[[H|H] _]]; congruence.
    + intros x [H|[_ H]]; simpl in H.
      * destruct (0 <=? fd); discriminate.
      * rewrite Htr in H. discriminate.
    + unfold tinv. simpl. destruct (Z.leb_spec 0 fd).
      * left. auto.
      * auto.
  - (* accept *)
    unfold tinv in Hwho. rewrite Hpc in Hwho. destruct Hwho as [Htr H0].
    specialize (Hfresh eq_refl).
    unfold Slot.try_accept, sys_accept in Hstep.
    destruct (ans <? 0) eqn:Hans; cbn in Hstep; rewrite Hans in Hstep;
      inversion Hstep; subst c'; clear Hstep;
      rewrite ?Hans, Htr, (inv_listen _ _ Hinv); cbn [app].
    + (* nothing pending *)
      apply Z.ltb_lt in Hans.
      apply inv_local; [exact Hinv | | |].
      * intros x [H|[[H|H] _]]; congruence.
      * intros x [H|[_ H]]; discriminate.
      * unfold tinv. simpl. right. left. exists ans. auto.
    + (* a descriptor *)
      apply Z.ltb_ge in Hans.
      assert (Hnew : ans ∉ open_fds (c_world c)).
      { destruct Hfresh as [H|H]; [lia | exact H]. }
      assert (Hown : forall x,
        owns (listen_fd w0)
          {| t_pc := Holding ans;
             t_trace := [EvAccept (listen_fd w0) ans; EvSetFl ans 0] |} x ->
        x = ans).
      { intros x [H|[[H|H] _]]; simpl in H; congruence. }
      destruct Hinv as [Hl Ho0 Hso Hslot Hthr Hdist Ho1].
      split; simpl.
      * first [exact Hl | reflexivity].
      * etrans; [exact Ho0 | apply union_subseteq_r].
      * intros H. apply elem_of_union_r, Hso, H.
      * destruct Hslot as [Heq|(_ & t & Hwon)]; [left; exact Heq|].
        right. split; [exact H0|]. exists (other who). rewrite tid_eqb_other.
        destruct (tid_cases t who) as [->| ->]; [|exact Hwon].
        destruct Hwon as [[Hd|Hd] _]; congruence.
      * intros t. by_thread t who.
        -- unfold tinv. simpl. repeat split; auto.
           apply elem_of_union_l, elem_of_singleton. reflexivity.
        -- apply (tinv_change w0 (c_world c)); [exact Hoth | reflexivity | |].
           ++ intros x _ Hx. simpl. apply elem_of_union_r, Hx.
           ++ intros x Hlost _. exfalso.
              assert (Hc : 0 <= client_fd (c_world c)).
              { pose proof Hoth as H. destruct Hlost as [[r [Hr|Hr]] Ht];
                  unfold tinv in H; rewrite Hr in H.
                - destruct H as [(Ht' & _)|(fd' & _ & _ & ? & ? & _)]; [|lia].
                  rewrite Ht in Ht'. discriminate.
                - destruct H as [(Ht' & _)|[(a & Ht' & _)|[(Ht' & _)
                                |(fd' & _ & _ & ? & ? & _)]]];
                    try (rewrite Ht in Ht'; discriminate). lia. }
              apply (won_not_lost (listen_fd w0) (c_thr c (other who))
                       (client_fd (c_world c)) x); [|exact Hlost].
              apply Hwin; [|exact Hc|exact H0].
              intros r [H|H]; congruence.
      * intros t fa fb. by_thread t who.
        -- intros Ha Hb. apply Hown in Ha. subst fa.
           destruct (owns_facts _ _ _ _ Hoth Hb) as (_ & Hin & _).
           intros ->. exact (Hnew Hin).
        -- intros Ha Hb. apply Hown in Hb. subst fb.
           destruct (owns_facts _ _ _ _ Hoth Ha) as (_ & Hin & _).
           intros ->. exact (Hnew Hin).
      * intros x Hx. apply elem_of_union in Hx as [Hx|Hx].
        -- apply elem_of_singleton in Hx. subst x. right. exists who.
           rewrite tid_eqb_refl. left. reflexivity.
        -- destruct (Ho1 x Hx) as [H|(t & H)]; [left; exact H|].
           right. exists (other who). rewrite tid_eqb_other.
           destruct (tid_cases t who) as [->| ->]; [|exact H].
           destruct H as [H|[[H|H] _]]; congruence.
  - (* second critical section *)
    unfold tinv in Hwho. rewrite Hpc in Hwho.
    destruct Hwho as (Htr & Hfd & Hin & Hnin0 & H0).
    assert (Hownw : owns (listen_fd w0) (c_thr c who) fd) by (left; exact Hpc).
    assert (Hself : forall x, owns (listen_fd w0) (c_thr c who) x -> x = fd).
    { intros x [H|[[H|H] _]]; congruence. }
    destruct Hinv as [Hl Ho0 Hso Hslot Hthr Hdist Ho1].
    unfold Slot.commit, sys_close in Hstep.
    destruct (0 <=? client_fd (c_world c)) eqn:Hheld; cbn in Hstep;
      inversion Hstep; subst c'; clear Hstep; rewrite Htr; cbn [app].
    + (* the slot was filled meanwhile: close the duplicate *)
      apply Z.leb_le in Hheld.
      assert (Hw : won (listen_fd w0) (c_thr c (other who))
                     (client_fd (c_world c))).
      { apply Hwin; [|exact Hheld|exact H0]. intros r [H|H]; congruence. }
      assert (Hne : fd <> client_fd (c_world c)).
      { apply (Hdist who); [exact Hownw | right; exact Hw]. }
      rewrite (bool_decide_eq_true_2 _ Hin).
      assert (Hnown : forall x,
        ~ owns (listen_fd w0)
            {| t_pc := Committed (client_fd (c_world c));
               t_trace := [EvAccept (listen_fd w0) fd; EvSetFl fd 0;
                           EvClose fd true] |} x).
      { intros x [H|[_ H]]; discriminate. }
      split; simpl.
      * exact Hl.
      * intros x Hx. apply elem_of_difference. split; [apply Ho0, Hx|].
        rewrite elem_of_singleton. intros ->. exact (Hnin0 Hx).
      * unfold slot_open. simpl. intros H.
        apply elem_of_difference. split; [apply Hso, H|].
        rewrite elem_of_singleton. congruence.
      * right. split; [exact H0|]. exists (other who).
        rewrite tid_eqb_other. exact Hw.
      * intros t. by_thread t who.
        -- unfold tinv. simpl. right. exists fd.
           repeat split; auto. simpl.
           rewrite elem_of_difference, elem_of_singleton. tauto.
        -- apply (tinv_change w0 (c_world c)); [exact Hoth | reflexivity | |].
           ++ intros x Hx Hxin. simpl. apply elem_of_difference.
              split; [exact Hxin|]. rewrite elem_of_singleton. intros ->.
              exact (Hdist who fd fd Hownw Hx eq_refl).
           ++ intros x _ Hx. simpl. rewrite elem_of_difference. tauto.
      * intros t fa fb. by_thread t who.
        -- intros H _. exfalso. exact (Hnown _ H).
        -- intros _ H. exfalso. exact (Hnown _ H).
      * intros x Hx. apply elem_of_difference in Hx as [Hx Hxfd].
        rewrite elem_of_singleton in Hxfd.
        destruct (Ho1 x Hx) as [H|(t & H)]; [left; exact H|].
        right. exists (other who). rewrite tid_eqb_other.
        destruct (tid_cases t who) as [->| ->]; [|exact H].
        apply Hself in H. contradiction.
    + (* the slot is still empty: publish *)
      apply Z.leb_gt in Hheld.
      assert (Hwonw : won (listen_fd w0)
                        {| t_pc := Committed fd;
                           t_trace := [EvAccept (listen_fd w0) fd; EvSetFl fd 0] |}
                        fd) by (split; [left|]; reflexivity).
      assert (Hown : forall x,
        owns (listen_fd w0)
          {| t_pc := Committed fd;
             t_trace := [EvAccept (listen_fd w0) fd; EvSetFl fd 0] |} x ->
        x = fd).
      { intros x [H|[[H|H] _]]; simpl in H; congruence. }
      split; simpl.
      * exact Hl.
      * exact Ho0.
      * intros _. exact Hin.
      * right. split; [exact H0|]. exists who. rewrite tid_eqb_refl.
        exact Hwonw.
      * intros t. by_thread t who.
        -- unfold tinv. simpl. left. repeat split; auto.
        -- apply tinv_publish; assumption.
      * intros t fa fb. by_thread t who.
        -- intros Ha Hb. apply Hown in Ha. subst fa.
           apply (Hdist who); [exact Hownw | exact Hb].
        -- intros Ha Hb. apply Hown in Hb. subst fb.
           apply (Hdist (other who)); [exact Ha|].
           rewrite other_other. exact Hownw.
      * intros x Hx.
        destruct (Ho1 x Hx) as [H|(t & H)]; [left; exact H|].
        right. destruct (tid_cases t who) as [->| ->].
        -- apply Hself in H. subst x. exists who. rewrite tid_eqb_refl.
           right. exact Hwonw.
        -- exists (other who). rewrite tid_eqb_other. exact H.
  - (* return *)
    inversion Hstep; subst c'; clear Hstep.
    apply inv_return; assumption.
  - (* returned *)
    discriminate.
Qed.

Lemma inv_reach w0 c : slot_open w0 -> reach w0 c -> inv w0 c.
Proof.
  intros Hwf Hr. induction Hr as [|c who ans c' Hr IH Hfresh Hstep].
  - apply inv_init, Hwf.
  - eapply inv_step; eassumption.
Qed.

Import RaceRun.

Lemma fresh_b_spec ans w : fresh_b ans w = true -> fresh ans w.
Proof.
  unfold fresh_b, fresh. intros H. apply orb_true_iff in H as [H|H].
  - left. apply Z.ltb_lt, H.
  - right. apply negb_true_iff, bool_decide_eq_false in H. exact H.
Qed.

Lemma accepting_fresh c who ans :
  accepting (c_thr c who) && negb (fresh_b ans (c_world c)) = false ->
  t_pc (c_thr c who) = Accepting -> fresh ans (c_world c).
Proof.
  intros Hchk Hpc. apply fresh_b_spec.
  unfold accepting in Hchk. rewrite Hpc in Hchk. simpl in Hchk.
  apply negb_false_iff in Hchk. exact Hchk.
Qed.

Lemma run_reach w0 sched : forall c c',
  forallb is_move sched = true ->
  reach w0 c -> run sched c = Some c' -> reach w0 c'.
Proof.
  induction sched as [|[who ans|fd] sched IH]; intros c c' Hmv Hr Hrun;
    simpl in Hrun, Hmv.
  - inversion Hrun; subst. exact Hr.
  - destruct (accepting (c_thr c who) && negb (fresh_b ans (c_world c)))
      eqn:Hchk; [discriminate|].
    destruct (step who ans c) as [c1|] eqn:Hstep; [|discriminate].
    apply (IH c1 c'); [exact Hmv | | exact Hrun].
    apply (reach_step w0 c who ans c1 Hr); [|exact Hstep].
    apply accepting_fresh, Hchk.
  - discriminate.
Qed.

Lemma run_reach_drop w0 sched : forall c c',
  reach_drop w0 c -> run sched c = Some c' -> reach_drop w0 c'.
Proof.
  induction sched as [|[who ans|fd] sched IH]; intros c c' Hr Hrun;
    simpl in Hrun.
  - inversion Hrun; subst. exact Hr.
  - destruct (accepting (c_thr c who) && negb (fresh_b ans (c_world c)))
      eqn:Hchk; [discriminate|].
    destruct (step who ans c) as [c1|] eqn:Hstep; [|discriminate].
    apply (IH c1 c'); [|exact Hrun].
    apply (reach_drop_step w0 c who ans c1 Hr); [|exact Hstep].
    apply accepting_fresh, Hchk.
  - apply (IH (drop fd c) c'); [|exact Hrun]. apply reach_drop_drop, Hr.
Qed.

(** What a returned caller that accepted something has done. *)
Lemma returned_after_accept w0 w t r lfd fd :
  tinv w0 w t -> t_pc t = Done r -> In (EvAccept lfd fd) (t_trace t) -> 0 <= fd ->
  (won (listen_fd w0) t fd /\ r = fd) \/
  (lost (listen_fd w0) t fd /\ 0 <= r /\ r = client_fd w /\ r <> fd /\
   (fd ∉ open_fds w) /\ client_fd w0 < 0).
Proof.
  unfold tinv, published, discarded. intros H Hpc Hin Hfd. rewrite Hpc in H.
  destruct H as [(Ht & _)|[(a & Ht & Ha & _)|[(Ht & H)|(fd' & Ht & H)]]];
    rewrite Ht in Hin; simpl in Hin.
  - contradiction.
  - destruct Hin as [Hin|[]]. inversion Hin; subst. lia.
  - destruct Hin as [Hin|[Hin|[]]]; inversion Hin; subst.
    left. split; [split; [right|]; assumption | reflexivity].
  - destruct Hin as [Hin|[Hin|[Hin|[]]]]; inversion Hin; subst.
    right. split; [split; [exists r; right|]; assumption | tauto].
Qed.

(** The outcome when one caller published [win] and the other closed
    [lose]. *)
Lemma winner_and_loser w0 c tw tl win lose :
  inv w0 c -> tl = other tw ->
  won (listen_fd w0) (c_thr c tw) win ->
  lost (listen_fd w0) (c_thr c tl) lose ->
  client_fd (c_world c) = win /\
  closes_of (t_trace (c_thr c tw)) = [] /\
  closes_of (t_trace (c_thr c tl)) = [lose] /\
  List.filter is_bad_close (t_trace (c_thr c tw)) = [] /\
  List.filter is_bad_close (t_trace (c_thr c tl)) = [] /\
  open_fds (c_world c) = {[win]} ∪ open_fds w0.
Proof.
  intros Hinv -> Hwon Hlost.
  destruct (won_facts _ _ _ _ (inv_thr _ _ Hinv tw) Hwon)
    as (_ & Hw0 & Hweq & Hwin & Hwn0 & H0).
  pose proof Hwon as [_ Htw]. pose proof Hlost as [_ Htl].
  rewrite Htw, Htl. repeat split; auto.
  apply set_eq. intros x. rewrite elem_of_union, elem_of_singleton. split.
  - intros Hx. destruct (inv_open1 _ _ Hinv x Hx) as [H|(t & H)]; [right; exact H|].
    left. destruct (tid_cases t tw) as [->| ->].
    + destruct H as [H|[[H|H] _]]; destruct Hwon as [[Hpc|Hpc] _]; congruence.
    + exfalso. destruct H as [H|H].
      * destruct Hlost as [[r [Hpc|Hpc]] _]; congruence.
      * exact (won_not_lost _ _ _ _ H Hlost).
  - intros [->|Hx]; [exact Hwin | exact (inv_open0 _ _ Hinv x Hx)].
Qed.

(** C4: when two callers run [get_client] concurrently from a state in
    which neither has started, and both obtain a descriptor from [accept]
    ([fa] and [fb]), then in the end the slot holds exactly one of the two,
    both calls return that one, the other was closed exactly once, no
    [close] hit a descriptor that was not open, and of the two only the
    one in the slot is still open. *)
Theorem race_keeps_one_handle w0 c lfa fa lfb fb ra rb :
  slot_open w0 -> reach w0 c ->
  t_pc (c_thr c A) = Done ra -> t_pc (c_thr c B) = Done rb ->
  In (EvAccept lfa fa) (t_trace (c_thr c A)) -> 0 <= fa ->
  In (EvAccept lfb fb) (t_trace (c_thr c B)) -> 0 <= fb ->
  fa <> fb /\
  exists win lose,
    ((win = fa /\ lose = fb) \/ (win = fb /\ lose = fa)) /\
    client_fd (c_world c) = win /\ ra = win /\ rb = win /\
    closes_of (t_trace (c_thr c A) ++ t_trace (c_thr c B)) = [lose] /\
    List.filter is_bad_close (t_trace (c_thr c A) ++ t_trace (c_thr c B)) = [] /\
    open_fds (c_world c) = {[win]} ∪ open_fds w0 /\
    (lose ∉ open_fds (c_world c)).
Proof.
  intros Hwf Hreach HpA HpB HinA HfA HinB HfB.
  pose proof (inv_reach w0 c Hwf Hreach) as Hinv.
  destruct (returned_after_accept _ _ _ _ _ _ (inv_thr _ _ Hinv A) HpA HinA HfA)
    as [[HwA HrA]|(HlA & HrA0 & HrA & HneA & HclA & H0A)];
  destruct (returned_after_accept _ _ _ _ _ _ (inv_thr _ _ Hinv B) HpB HinB HfB)
    as [[HwB HrB]|(HlB & HrB0 & HrB & HneB & HclB & H0B)].
  - (* both published: impossible *)
    exfalso. apply (inv_distinct _ _ Hinv A fa fb); [right; exact HwA | right; exact HwB|].
    destruct (won_facts _ _ _ _ (inv_thr _ _ Hinv A) HwA) as (_ & _ & -> & _).
    destruct (won_facts _ _ _ _ (inv_thr _ _ Hinv B) HwB) as (_ & _ & -> & _).
    reflexivity.
  - (* A published, B closed its duplicate *)
    destruct (winner_and_loser w0 c A B fa fb Hinv eq_refl HwA HlB)
      as (Hslot & Hc1 & Hc2 & Hb1 & Hb2 & Hopen).
    split; [congruence|]. exists fa, fb.
    rewrite closes_of_app, List.filter_app, Hc1, Hc2, Hb1, Hb2.
    repeat split; auto; congruence.
  - (* B published, A closed its duplicate *)
    destruct (winner_and_loser w0 c B A fb fa Hinv eq_refl HwB HlA)
      as (Hslot & Hc1 & Hc2 & Hb1 & Hb2 & Hopen).
    split; [congruence|]. exists fb, fa.
    rewrite closes_of_app, List.filter_app, Hc1, Hc2, Hb1, Hb2.
    repeat split; auto; congruence.
  - (* both closed: impossible, somebody filled the slot *)
    exfalso. destruct (inv_slot _ _ Hinv) as [Heq|(_ & t & Hw)]; [lia|].
    destruct t; eapply won_not_lost; eassumption.
Qed.

Lemma race_keeps_one_handle_witness :
  5 <> 6 /\
  exists win lose,
    ((win = 5 /\ lose = 6) \/ (win = 6 /\ lose = 5)) /\
    client_fd (c_world after_both) = win /\ 5 = win /\ 5 = win /\
    closes_of (t_trace (c_thr after_both A) ++ t_trace (c_thr after_both B))
      = [lose] /\
    List.filter is_bad_close
      (t_trace (c_thr after_both A) ++ t_trace (c_thr after_both B)) = [] /\
    open_fds (c_world after_both) = {[win]} ∪ open_fds world_idle /\
    (lose ∉ open_fds (c_world after_both)).
Proof.
  apply (race_keeps_one_handle world_idle after_both 3 5 3 6 5 5).
  - unfold slot_open. simpl. lia.
  - apply (run_reach world_idle sched_both (init world_idle)).
    + reflexivity.
    + apply reach_init.
    + vm_compute. reflexivity.
  - vm_compute. reflexivity.
  - vm_compute. reflexivity.
  - vm_compute. left. reflexivity.
  - lia.
  - vm_compute. left. reflexivity.
  - lia.
Defined.

Lemma slot_never_closed w0 c t :
  inv w0 c -> ~ In (client_fd (c_world c)) (closes_of (t_trace (c_thr c t))).
Proof.
  intros Hinv. pose proof (inv_thr _ _ Hinv t) as H.
  unfold tinv, published, discarded in H.
  destruct (t_pc (c_thr c t)) as [|fd| |fd|r|r].
  - rewrite H. simpl. tauto.
  - destruct H as [-> _]. simpl. tauto.
  - destruct H as [-> _]. simpl. tauto.
  - destruct H as [-> _]. simpl. tauto.
  - destruct H as [(-> & _)|(fd & -> & _ & _ & Hr & Hne & _)]; simpl; [tauto|].
    intros [Heq|[]]. congruence.
  - destruct H as [(-> & _)|[(a & -> & _)|[(-> & _)|(fd & -> & _ & _ & Hr & Hne & _)]]];
      simpl; try tauto.
    intros [Heq|[]]. congruence.
Qed.

Lemma commit_returns_slot fd w :
  let cm := Slot.commit fd w in
  fst (fst cm) = client_fd (snd (fst cm)) /\
  (fd <> client_fd w -> ~ In (fst (fst cm)) (closes_of (snd cm))).
Proof.
  unfold Slot.commit, sys_close.
  destruct (0 <=? client_fd w); simpl.
  - split; [reflexivity|]. intros Hne [Heq|[]]. congruence.
  - split; [reflexivity|]. tauto.
Qed.

(** C10 as stated fails: [get_client] returns after it has released the
    mutex, and a [drop_client] that runs in between empties the slot and
    closes the very descriptor the caller is about to receive. *)
Lemma stale_return_after_drop :
  ~ (forall w0 c who ans c' r,
       slot_open w0 -> reach_drop w0 c ->
       step who ans c = Some c' -> t_pc (c_thr c' who) = Done r ->
       returns_held c' r).
Proof.
  intros H.
  destruct (step A 0 before_stale_return) as [c'|] eqn:Hstep;
    [|vm_compute in Hstep; discriminate Hstep].
  assert (Hc' : c_world c' = c_world before_stale_return /\
                t_pc (c_thr c' A) = Done 5).
  { vm_compute in Hstep. inversion Hstep; subst c'. split; reflexivity. }
  destruct Hc' as [Hw Hpc].
  specialize (H world_peer before_stale_return A 0 c' 5).
  destruct H as [H|(_ & H & _)].
  - unfold slot_open. simpl. intros _.
    rewrite elem_of_union, !elem_of_singleton. right. reflexivity.
  - apply (run_reach_drop world_peer sched_stale (init world_peer)).
    + apply reach_drop_init.
    + vm_compute. reflexivity.
  - exact Hstep.
  - exact Hpc.
  - discriminate H.
  - rewrite Hw in H. vm_compute in H. discriminate H.
Qed.

(** C10, amended: as long as no [drop_client] runs concurrently, a call of
    [get_client] returns -1 or the descriptor the slot holds; that
    descriptor is open and was never closed by either caller.  This holds
    for every interleaving of two callers and for a caller that runs alone.
    In any case the second critical section returns what the slot holds
    when the mutex is released, never the duplicate it closed. *)
Theorem get_client_returns_held w0 c who r ans fd w :
  slot_open w0 -> reach w0 c -> t_pc (c_thr c who) = Done r ->
  (returns_held c r /\
   forall t, 0 <= r -> ~ In r (closes_of (t_trace (c_thr c t)))) /\
  (let g := get_client ans w0 in
   fst (fst g) = -1 \/
   (0 <= fst (fst g) /\ client_fd (snd (fst g)) = fst (fst g) /\
    (fst (fst g) ∈ open_fds (snd (fst g))) /\
    ~ In (fst (fst g)) (closes_of (snd g)))) /\
  (let cm := Slot.commit fd w in
   fst (fst cm) = client_fd (snd (fst cm)) /\
   (fd <> client_fd w -> ~ In (fst (fst cm)) (closes_of (snd cm)))).
Proof.
  intros Hwf Hreach Hpc. split; [|split].
  - pose proof (inv_reach w0 c Hwf Hreach) as Hinv.
    assert (Hheld : 0 <= r -> r = client_fd (c_world c) ->
              returns_held c r /\
              forall t, 0 <= r -> ~ In r (closes_of (t_trace (c_thr c t)))).
    { intros H0 Hr. split.
      - right. repeat split; auto.
        rewrite Hr. apply (inv_slot_open _ _ Hinv). lia.
      - intros t _. rewrite Hr. apply (slot_never_closed w0), Hinv. }
    pose proof (inv_thr _ _ Hinv who) as H.
    unfold tinv, published, discarded in H. rewrite Hpc in H.
    destruct H as [(_ & H0 & Hr)|[(a & _ & _ & Hr & _)
                  |[(_ & H0 & Hr & _)|(fd' & _ & _ & H0 & Hr & _)]]].
    + apply Hheld; assumption.
    + split; [left; exact Hr | intros t Hneg; lia].
    + apply Hheld; assumption.
    + apply Hheld; assumption.
  - cbv zeta.
    destruct (get_client_result ans w0) as [[H _]|(H0 & Hs & Hc & Ho)].
    + left. exact H.
    + right. repeat split; auto. rewrite Hc. simpl. tauto.
  - apply commit_returns_slot.
Qed.

Lemma get_client_returns_held_witness :
  (returns_held after_both 5 /\
   forall t, 0 <= 5 -> ~ In 5 (closes_of (t_trace (c_thr after_both t)))) /\
  (let g := get_client 5 world_idle in
   fst (fst g) = -1 \/
   (0 <= fst (fst g) /\ client_fd (snd (fst g)) = fst (fst g) /\
    (fst (fst g) ∈ open_fds (snd (fst g))) /\
    ~ In (fst (fst g)) (closes_of (snd g)))) /\
  (let cm := Slot.commit 6 (c_world after_both) in
   fst (fst cm) = client_fd (snd (fst cm)) /\
   (6 <> client_fd (c_world after_both) ->
    ~ In (fst (fst cm)) (closes_of (snd cm)))).
Proof.
  apply (get_client_returns_held world_idle after_both B 5 5 6
           (c_world after_both)).
  - unfold slot_open. simpl. lia.
  - apply (run_reach world_idle sched_both (init world_idle)).
    + reflexivity.
    + apply reach_init.
    + vm_compute. reflexivity.
  - vm_compute. reflexivity.
Defined.

End RaceFacts.

(** * Further properties *)

(** ** The read loop assembles the frame *)

Lemma reads_of_app tr1 tr2 : reads_of (tr1 ++ tr2) = reads_of tr1 ++ reads_of tr2.
Proof. induction tr1 as [|[] tr1 IH]; simpl; rewrite ?IH; reflexivity. Qed.

Lemma sleeps_of_app tr1 tr2 : sleeps_of (tr1 ++ tr2) = sleeps_of tr1 ++ sleeps_of tr2.
Proof. induction tr1 as [|[] tr1 IH]; simpl; rewrite ?IH; reflexivity. Qed.

Lemma frames_of_app tr1 tr2 : frames_of (tr1 ++ tr2) = frames_of tr1 ++ frames_of tr2.
Proof. induction tr1 as [|[] tr1 IH]; simpl; rewrite ?IH; reflexivity. Qed.

Lemma accepts_of_app tr1 tr2 : accepts_of (tr1 ++ tr2) = accepts_of tr1 ++ accepts_of tr2.
Proof. induction tr1 as [|[] tr1 IH]; simpl; rewrite ?IH; reflexivity. Qed.

Lemma take_store off got (b : list byte) :
  0 <= off -> (Z.to_nat off <= length b)%nat ->
  take (Z.to_nat off + length got) (store off got b)
  = take (Z.to_nat off) b ++ got.
Proof.
  intros H0 Hle. unfold store. rewrite app_assoc.
  apply take_app_length'. rewrite length_app, length_take. lia.
Qed.

Lemma sys_read_got count a n got :
  sys_read count a = (n, got) -> 0 < n ->
  n = Z.of_nat (length got) /\ n <= count.
Proof.
  destruct a as [l|l avail]; simpl; intros H Hn; inversion H; subst; clear H.
  - lia.
  - rewrite length_take in *. lia.
Qed.

Lemma read_frame_content fuel fd nbytes rd : forall k off b w,
  0 <= off <= nbytes -> length b = Z.to_nat nbytes ->
  (Z.to_nat (nbytes - off) <= fuel)%nat ->
  fst (fst (read_frame fuel fd nbytes rd k off b w))
  = take (Z.to_nat off) b ++ received fuel nbytes rd k off
      ++ replicate (Z.to_nat nbytes - Z.to_nat off
                    - length (received fuel nbytes rd k off)) x00.
Proof.
  induction fuel as [|fuel IH]; intros k off b w Hoff Hlen Hfuel; simpl.
  - destruct (Z.ltb_spec off nbytes); [lia|]. simpl.
    replace (Z.to_nat nbytes - Z.to_nat off - 0)%nat with 0%nat by lia.
    simpl. rewrite app_nil_r, take_ge by lia. reflexivity.
  - destruct (Z.ltb_spec off nbytes) as [Hlt|Hge].
    + destruct (sys_read (nbytes - off) (rd k)) as [n got] eqn:Hrd.
      destruct (Z.leb_spec n 0) as [Hz|Hpos].
      * destruct (drop_client fd w) as [w1 evs]. simpl.
        unfold memset0, store. rewrite length_replicate.
        rewrite drop_ge by lia. rewrite app_nil_r.
        f_equal. f_equal. lia.
      * destruct (sys_read_got _ _ _ _ Hrd Hpos) as [Hn Hcnt].
        specialize (IH (S k) (off + n) (store off got b) w).
        destruct (read_frame fuel fd nbytes rd (S k) (off + n) (store off got b) w)
          as [[b' w'] evs]. simpl in *.
        rewrite IH; [| lia | rewrite length_store; lia | lia].
        replace (Z.to_nat (off + n)) with (Z.to_nat off + length got)%nat by lia.
        rewrite take_store by lia. rewrite <- !app_assoc.
        f_equal. f_equal. f_equal. rewrite length_app. f_equal. lia.
    + simpl. replace (Z.to_nat nbytes - Z.to_nat off - 0)%nat with 0%nat by lia.
      simpl. rewrite app_nil_r, take_ge by lia. reflexivity.
Qed.

Lemma length_received fuel nbytes rd : forall k off,
  0 <= off <= nbytes ->
  (length (received fuel nbytes rd k off) <= Z.to_nat (nbytes - off))%nat.
Proof.
  induction fuel as [|fuel IH]; intros k off Hoff; simpl.
  - destruct (off <? nbytes); simpl; lia.
  - destruct (Z.ltb_spec off nbytes) as [Hlt|Hge]; [|simpl; lia].
    destruct (sys_read (nbytes - off) (rd k)) as [n got] eqn:Hrd.
    destruct (Z.leb_spec n 0) as [Hz|Hpos]; [simpl; lia|].
    destruct (sys_read_got _ _ _ _ Hrd Hpos) as [Hn Hcnt].
    rewrite length_app. specialize (IH (S k) (off + n)). lia.
Qed.

Lemma drop_client_no_read fd w : reads_of (snd (drop_client fd w)) = [].
Proof. unfold drop_client, sys_close. case_match; reflexivity. Qed.

Lemma get_client_no_read ans w :
  reads_of (snd (get_client ans w)) = [] /\
  sleeps_of (snd (get_client ans w)) = [] /\
  frames_of (snd (get_client ans w)) = [].
Proof.
  unfold get_client, Slot.lookup, Slot.try_accept, Slot.commit, sys_accept, sys_close.
  repeat (case_match; simplify_eq/=); repeat split; reflexivity.
Qed.

Lemma pace_reads_none p nf now :
  reads_of (snd (pace p nf now)) = [] /\ frames_of (snd (pace p nf now)) = [] /\
  accepts_of (snd (pace p nf now)) = [].
Proof. unfold pace. case_match; repeat split; reflexivity. Qed.

Lemma read_frame_structure fuel fd nbytes rd : forall k off b w,
  0 <= off <= nbytes ->
  (Z.to_nat (nbytes - off) <= fuel)%nat ->
  let r := read_frame fuel fd nbytes rd k off b w in
  let rs := reads_of (snd r) in
  contiguous off nbytes rs /\
  (length rs <= Z.to_nat (nbytes - off))%nat /\
  ((Forall (fun x => 0 < snd x) rs /\ snd (fst r) = w /\
    closes_of (snd r) = [] /\
    Z.of_nat (length (received fuel nbytes rd k off)) = nbytes - off) \/
   (exists rs0 o n,
      rs = rs0 ++ [(o, nbytes - o, n)] /\ n <= 0 /\
      Forall (fun x => 0 < snd x) rs0 /\
      snd (fst r) = fst (drop_client fd w) /\
      closes_of (snd r) = closes_of (snd (drop_client fd w)) /\
      o = off + Z.of_nat (length (received fuel nbytes rd k off)))).
Proof.
  induction fuel as [|fuel IH]; intros k off b w Hoff Hfuel; simpl.
  - destruct (Z.ltb_spec off nbytes); [lia|]. simpl.
    split; [exact I|]. split; [lia|]. left. repeat split; auto. lia.
  - destruct (Z.ltb_spec off nbytes) as [Hlt|Hge].
    + destruct (sys_read (nbytes - off) (rd k)) as [n got] eqn:Hrd.
      destruct (Z.leb_spec n 0) as [Hz|Hpos].
      * pose proof (drop_client_no_read fd w) as Hnr.
        destruct (drop_client fd w) as [w1 evs]. simpl in *. rewrite Hnr.
        split; [repeat split; auto; lia|]. split; [simpl; lia|].
        right. exists [], off, n. repeat split; auto. lia.
      * destruct (sys_read_got _ _ _ _ Hrd Hpos) as [Hn Hcnt].
        specialize (IH (S k) (off + n) (store off got b) w).
        destruct (read_frame fuel fd nbytes rd (S k) (off + n) (store off got b) w)
          as [[b' w'] evs]. simpl in *.
        destruct IH as (Hc & Hl & Hcase); [lia | lia |].
        split; [repeat split; auto; try lia; rewrite Z.max_r by lia; exact Hc|].
        split; [lia|].
        rewrite length_app.
        destruct Hcase as [(Hp & Hw & Hcl & Hr)|(rs0 & o & n' & Hrs & Hn' & Hp & Hw & Hcl & Ho)].
        -- left. repeat split; auto. lia.
        -- right. exists ((off, nbytes - off, n) :: rs0), o, n'.
           rewrite Hrs. repeat split; auto. lia.
    + simpl. split; [exact I|]. split; [lia|]. left. repeat split; auto. lia.
Qed.

(** X1: with a peer and readable data, the frame handed to [rh] consists
    of the bytes the successive [read]s returned, in the order received,
    followed by zeros up to the frame size; the buffer kept for the next
    pass is that same frame. *)
Theorem src_frame_is_received st e s w :
  src_reach st s ->
  0 <= fst (fst (get_client (se_accept e) w)) ->
  0 < se_poll_ret e -> Z.land (se_revents e) POLLIN <> 0 ->
  let r := src_iter st e s w in
  let nbytes := frame_nbytes (src_sampc st) in
  let data := received (Z.to_nat nbytes) nbytes (se_read e) 0 0 in
  (length data <= Z.to_nat nbytes)%nat /\
  buf (fst (fst r))
  = data ++ replicate (Z.to_nat nbytes - length data) x00 /\
  frames_of (snd r)
  = [auframe_init AUFMT_S16LE (buf (fst (fst r))) (src_sampc st)
       (src_srate st) 1].
Proof.
  intros Hreach Hfd Hret Hrev r nbytes data. subst r.
  pose proof (src_reach_length _ _ Hreach) as Hlen. fold nbytes in Hlen.
  pose proof (wrap64_range (src_sampc st * 2)) as Hn.
  fold (frame_nbytes (src_sampc st)) in Hn. fold nbytes in Hn.
  split.
  { pose proof (length_received (Z.to_nat nbytes) nbytes (se_read e) 0 0).
    fold data in H. lia. }
  rewrite src_iter_unfold. cbv zeta. cbn [fst snd buf].
  set (gc := get_client (se_accept e) w) in *.
  destruct (get_client_no_read (se_accept e) w) as (_ & _ & Hgf). fold gc in Hgf.
  destruct (pace_reads_none (frame_ptime_us (src_ptime st)) (next_frame s)
              (clock_us (se_now_pace e))) as (_ & Hpf & _).
  assert (Hio : fst (fst (src_io st e s (fst (fst gc)) (snd (fst gc))))
                = data ++ replicate (Z.to_nat nbytes - length data) x00 /\
                frames_of (snd (src_io st e s (fst (fst gc)) (snd (fst gc)))) = []).
  { unfold src_io. fold nbytes. clearbody nbytes gc.
    destruct (Z.leb_spec 0 (fst (fst gc))); [|lia].
    destruct (Z.ltb_spec 0 (se_poll_ret e)); [|lia].
    destruct (Z.eqb_spec (Z.land (se_revents e) POLLIN) 0); [contradiction|].
    cbn [andb negb].
    pose proof (read_frame_content (Z.to_nat nbytes) (fst (fst gc)) nbytes
                  (se_read e) 0 0 (buf s) (snd (fst gc))) as Hc.
    pose proof (read_frame_sys_only (Z.to_nat nbytes) (fst (fst gc)) nbytes
                  (se_read e) 0 0 (buf s) (snd (fst gc))) as Hs.
    destruct (read_frame _ _ _ _ _ _ _ _) as [[b w'] evs]. cbn [fst snd] in *.
    split.
    - assert (H1 : 0 <= 0 <= nbytes) by lia.
      assert (H2 : (Z.to_nat (nbytes - 0) <= Z.to_nat nbytes)%nat) by lia.
      rewrite (Hc H1 Hlen H2). change (Z.to_nat 0) with 0%nat.
      rewrite take_0, Nat.sub_0_r. reflexivity.
    - cbn [frames_of]. clear -Hs. unfold sys_only in Hs.
      induction evs as [|ev evs IH]; [reflexivity|].
      destruct ev; simpl in *; try discriminate; auto. }
  destruct Hio as [Hb Hf]. split; [exact Hb|].
  rewrite !frames_of_app, Hgf, Hf, Hpf. reflexivity.
Qed.

Lemma src_frame_is_received_witness :
  let r := src_iter src_8k (src_env_data 1000) (src_start src_8k (at_us 0))
             world_peer in
  let data := received 320 320 (se_read (src_env_data 1000)) 0 0 in
  (length data <= 320)%nat /\
  buf (fst (fst r)) = data ++ replicate (320 - length data) x00 /\
  frames_of (snd r)
  = [auframe_init AUFMT_S16LE (buf (fst (fst r))) 160 8000 1].
Proof.
  apply (src_frame_is_received src_8k (src_env_data 1000)
           (src_start src_8k (at_us 0)) world_peer).
  - constructor.
  - simpl. lia.
  - simpl. lia.
  - vm_compute. discriminate.
Defined.

(** X2: in every pass of the inbound loop the [read] calls go through the
    buffer front to back, each asking for exactly the bytes still missing,
    so no [read] can write past the end of the buffer, and there are at
    most [nbytes] of them.  Either every [read] returned data, and the pass
    closes nothing and leaves the peer in the slot; or the first [read]
    that returned 0 or an error is the last one, it happened right after
    the bytes received so far, and the peer was closed and the slot
    emptied. *)
Theorem src_reads_stay_in_buffer st e s w :
  let r := src_iter st e s w in
  let gc := get_client (se_accept e) w in
  let nbytes := frame_nbytes (src_sampc st) in
  let rs := reads_of (snd r) in
  contiguous 0 nbytes rs /\
  (length rs <= Z.to_nat nbytes)%nat /\
  ((Forall (fun x => 0 < snd x) rs /\ closes_of (snd r) = [] /\
    snd (fst r) = snd (fst gc)) \/
   (exists rs0 o n,
      rs = rs0 ++ [(o, nbytes - o, n)] /\ n <= 0 /\
      Forall (fun x => 0 < snd x) rs0 /\
      o = Z.of_nat (length (received (Z.to_nat nbytes) nbytes (se_read e) 0 0)) /\
      closes_of (snd r) = [fst (fst gc)] /\
      client_fd (snd (fst r)) = -1 /\
      (fst (fst gc) ∉ open_fds (snd (fst r))))).
Proof.
  intros r gc nbytes rs. subst r rs.
  pose proof (wrap64_range (src_sampc st * 2)) as Hn.
  fold (frame_nbytes (src_sampc st)) in Hn. fold nbytes in Hn.
  rewrite src_iter_unfold. cbv zeta. cbn [fst snd]. fold gc.
  destruct (get_client_no_read (se_accept e) w) as (Hgr & _). fold gc in Hgr.
  destruct (pace_reads_none (frame_ptime_us (src_ptime st)) (next_frame s)
              (clock_us (se_now_pace e))) as (Hpr & _).
  destruct (pace_quiet (frame_ptime_us (src_ptime st)) (next_frame s)
              (clock_us (se_now_pace e))) as (_ & _ & Hpc).
  pose proof (get_client_result (se_accept e) w) as Hres.
  cbv zeta in Hres. fold gc in Hres.
  assert (Hgc0 : closes_of (snd gc) = []).
  { destruct Hres as [[_ H]|(_ & _ & H & _)]; exact H. }
  rewrite !reads_of_app, !closes_of_app, Hgr, Hpr, Hpc, Hgc0.
  cbn [reads_of closes_of app]. rewrite !app_nil_r.
  unfold src_io. fold nbytes.
  destruct (Z.leb_spec 0 (fst (fst gc))) as [Hfd|Hfd];
    [|cbn; split; [exact I|]; split; [lia|]; left; repeat split; constructor].
  destruct ((0 <? se_poll_ret e) && negb (Z.land (se_revents e) POLLIN =? 0));
    [|cbn; split; [exact I|]; split; [lia|]; left; repeat split; constructor].
  pose proof (read_frame_structure (Z.to_nat nbytes) (fst (fst gc)) nbytes
                (se_read e) 0 0 (buf s) (snd (fst gc))) as Hst.
  cbv zeta in Hst.
  destruct (read_frame _ _ _ _ _ _ _ _) as [[b w'] evs]. cbn [fst snd] in *.
  destruct Hst as (Hc & Hl & Hcase); [lia | lia |].
  cbn [reads_of closes_of].
  split; [exact Hc|]. split; [lia|].
  destruct Hcase as [(Hp & Hw & Hcl & _)|(rs0 & o & n & Hrs & Hn' & Hp & Hw & Hcl & Ho)].
  - left. repeat split; auto.
  - right. exists rs0, o, n.
    assert (Hslot : client_fd (snd (fst gc)) = fst (fst gc)).
    { destruct Hres as [[H _]|(_ & H & _)]; [lia | exact H]. }
    rewrite (drop_client_held _ _ Hslot) in Hw, Hcl.
    cbn [fst snd sys_close closes_of] in Hw, Hcl.
    rewrite Hcl, Hw. cbn [client_fd open_fds set_client_fd].
    repeat split; auto; try lia.
    rewrite elem_of_difference, elem_of_singleton. tauto.
Qed.

(** ** The write loop sends the frame in order *)

Lemma write_frame_written fuel fd nbytes wr (b : list byte) : forall k off w,
  0 <= off <= nbytes -> length b = Z.to_nat nbytes ->
  (Z.to_nat (nbytes - off) <= fuel)%nat ->
  let r := write_frame fuel fd nbytes wr k off b w in
  exists m,
    off <= m <= nbytes /\
    written (writes_of (snd r))
    = take (Z.to_nat (m - off)) (drop (Z.to_nat off) b) /\
    (Forall (fun x => 0 < snd x) (writes_of (snd r)) -> m = nbytes).
Proof.
  induction fuel as [|fuel IH]; intros k off w Hoff Hlen Hfuel; simpl.
  - destruct (Z.ltb_spec off nbytes); [lia|]. simpl.
    exists off. split; [lia|]. split; [|lia].
    replace (Z.to_nat (off - off)) with 0%nat by lia. reflexivity.
  - destruct (Z.ltb_spec off nbytes) as [Hlt|Hge].
    + set (n := sys_write (nbytes - off) (wr k)).
      assert (Hn : n <= nbytes - off) by (unfold n, sys_write; lia).
      destruct (Z.leb_spec n 0) as [Hz|Hpos].
      * destruct (drop_client_quiet fd w) as [_ Hq].
        destruct (drop_client fd w) as [w1 evs]. simpl in *. rewrite Hq.
        destruct (Z.ltb_spec 0 n); [lia|]. simpl.
        exists off. split; [lia|]. split.
        -- replace (Z.to_nat (off - off)) with 0%nat by lia. reflexivity.
        -- intros Hall. inversion Hall; subst. simpl in *. lia.
      * specialize (IH (S k) (off + n) w).
        destruct (write_frame fuel fd nbytes wr (S k) (off + n) b w) as [w' evs].
        simpl in *. destruct IH as (m & Hm & Hw & Hall); [lia | exact Hlen | lia |].
        destruct (Z.ltb_spec 0 n); [|lia].
        exists m. split; [lia|]. split.
        -- rewrite Hw, take_take.
           replace (Z.to_nat n `min` Z.to_nat (nbytes - off))%nat
             with (Z.to_nat n) by lia.
           replace (Z.to_nat (off + n)) with (Z.to_nat off + Z.to_nat n)%nat by lia.
           rewrite <- drop_drop, take_take_drop. f_equal. lia.
        -- intros H'. inversion H'; subst. auto.
    + simpl. exists off. split; [lia|]. split; [|lia].
      replace (Z.to_nat (off - off)) with 0%nat by lia. reflexivity.
Qed.

(** X3: in every pass of the outbound loop the bytes the peer accepted,
    taken over all [write] calls of the pass, are an initial part of the
    frame pulled from the host in this pass, in order and without gaps or
    repetition; when no [write] fails they are the whole frame. *)
Theorem play_sends_frame_in_order st e s w :
  play_reach st s ->
  let r := play_iter st e s w in
  let frame := buf (fst (fst r)) in
  let sent := written (writes_of (snd r)) in
  (exists m, (m <= length frame)%nat /\ sent = take m frame) /\
  (0 <= fst (fst (get_client (pe_accept e) w)) ->
   Forall (fun x => 0 < snd x) (writes_of (snd r)) -> sent = frame).
Proof.
  intros Hreach r frame sent. subst r frame sent.
  pose proof (play_reach_length _ _ Hreach) as Hlen.
  pose proof (wrap64_range (play_sampc st * 2)) as Hn.
  fold (frame_nbytes (play_sampc st)) in Hn.
  rewrite play_iter_unfold. cbv zeta. cbn [fst snd buf].
  set (b := host_fill (pe_audio e) (buf s)).
  assert (Hb : length b = Z.to_nat (frame_nbytes (play_sampc st))).
  { unfold b. rewrite length_host_fill. exact Hlen. }
  set (gc := get_client (pe_accept e) w) in *.
  destruct (get_client_quiet (pe_accept e) w) as [_ Hgw]. fold gc in Hgw.
  destruct (pace_quiet (frame_ptime_us (play_ptime st)) (next_frame s)
              (clock_us (pe_now_pace e))) as (_ & Hpw & _).
  cbn [writes_of]. rewrite !writes_of_app, Hgw, Hpw, app_nil_r. cbn [app].
  unfold play_io.
  destruct (Z.leb_spec 0 (fst (fst gc))) as [Hfd|Hfd].
  - pose proof (write_frame_written (Z.to_nat (frame_nbytes (play_sampc st)))
                  (fst (fst gc)) (frame_nbytes (play_sampc st)) (pe_write e) b
                  0 0 (snd (fst gc))) as Hw.
    cbv zeta in Hw.
    destruct (write_frame _ _ _ _ _ _ _ _) as [w2 evs]. cbn [fst snd] in *.
    destruct Hw as (m & Hm & Hw & Hall); [lia | exact Hb | lia |].
    change (Z.to_nat 0) with 0%nat in Hw. rewrite drop_0 in Hw.
    split.
    + exists (Z.to_nat (m - 0)). split; [lia | exact Hw].
    + intros _ Hok. rewrite Hw, (Hall Hok). apply take_ge. lia.
  - cbn [snd writes_of written]. split.
    + exists 0%nat. split; [lia | reflexivity].
    + intros H. lia.
Qed.

Lemma play_sends_frame_in_order_witness :
  let r := play_iter play_8k (play_env_fail 1000)
             (play_start play_8k (at_us 0)) world_peer in
  (exists m, (m <= length (buf (fst (fst r))))%nat /\
             written (writes_of (snd r)) = take m (buf (fst (fst r)))) /\
  (0 <= fst (fst (get_client (pe_accept (play_env_fail 1000)) world_peer)) ->
   Forall (fun x => 0 < snd x) (writes_of (snd r)) ->
   written (writes_of (snd r)) = buf (fst (fst r))).
Proof.
  apply (play_sends_frame_in_order play_8k (play_env_fail 1000)
           (play_start play_8k (at_us 0)) world_peer).
  constructor.
Defined.

(** ** Descriptor accounting *)

Lemma module_fds_eq w l c :
  listen_fd w = l -> client_fd w = c ->
  module_fds w
  = (if 0 <=? l then {[l]} else ∅) ∪ (if 0 <=? c then {[c]} else ∅).
Proof. intros <- <-. reflexivity. Qed.

Ltac set_facts :=
  repeat match goal with
  | H : _ ∉ _ |- _ =>
      progress repeat first
        [ rewrite elem_of_union in H | rewrite elem_of_difference in H
        | rewrite elem_of_singleton in H | rewrite elem_of_empty in H ]
  end;
  try (apply set_eq; intros ?);
  repeat first
    [ rewrite elem_of_union | rewrite elem_of_difference
    | rewrite elem_of_singleton | rewrite elem_of_empty ];
  intuition (subst; try congruence; try tauto).

Lemma get_client_accounted base ans w :
  Race.fresh ans w -> accounted base w ->
  accounted base (snd (fst (get_client ans w))).
Proof.
  intros Hfresh (Hopen & Hl & Hc).
  unfold get_client, Slot.lookup, Slot.try_accept, Slot.commit, sys_accept.
  destruct (0 <=? client_fd w) eqn:Hslot; cbn [fst snd].
  - exact (conj Hopen (conj Hl Hc)).
  - destruct (ans <? 0) eqn:Hans; repeat (cbn; rewrite ?Hans, ?Hslot).
    + exact (conj Hopen (conj Hl Hc)).
    + apply Z.ltb_ge in Hans. apply Z.leb_gt in Hslot.
      assert (Hnew : ans ∉ open_fds w).
      { destruct Hfresh as [H|H]; [lia | exact H]. }
      unfold accounted, module_fds in *. cbn.
      destruct (Z.leb_spec 0 ans); [|lia].
      destruct (Z.leb_spec 0 (client_fd w)); [lia|].
      destruct (Z.leb_spec 0 (listen_fd w)) as [Hlf|Hlf].
      * rewrite Hopen in Hnew. repeat split.
        -- rewrite Hopen. set_facts.
        -- exact Hl.
        -- set_facts.
        -- set_facts.
      * rewrite Hopen in Hnew. repeat split.
        -- rewrite Hopen. set_facts.
        -- exact Hl.
        -- set_facts.
        -- lia.
Qed.

Lemma drop_client_accounted base fd w :
  0 <= fd -> accounted base w -> accounted base (fst (drop_client fd w)).
Proof.
  intros Hfd (Hopen & Hl & Hc).
  destruct (Z.eq_dec (client_fd w) fd) as [Heq|Hne].
  - rewrite (drop_client_held fd w Heq). cbn [fst sys_close].
    destruct Hc as [Hcb Hcl]; [lia|]. subst fd.
    unfold accounted, module_fds in *. cbn.
    destruct (Z.leb_spec 0 (client_fd w)); [|lia].
    destruct (Z.leb_spec 0 (listen_fd w)).
    + repeat split; [| auto | lia | lia]. rewrite Hopen. set_facts.
    + repeat split; [| auto | lia | lia]. rewrite Hopen. set_facts.
  - rewrite (drop_client_other fd w Hne). exact (conj Hopen (conj Hl Hc)).
Qed.

Lemma get_client_listen ans w :
  listen_fd (snd (fst (get_client ans w))) = listen_fd w.
Proof.
  unfold get_client, Slot.lookup, Slot.try_accept, Slot.commit, sys_accept,
    sys_close.
  repeat (case_match; simplify_eq/=); reflexivity.
Qed.

Lemma drop_client_listen fd w :
  listen_fd (fst (drop_client fd w)) = listen_fd w.
Proof. unfold drop_client, sys_close. case_match; reflexivity. Qed.

Lemma src_iter_accounted base st e s w :
  accounted base w -> Race.fresh (se_accept e) w ->
  accounted base (snd (fst (src_iter st e s w))) /\
  listen_fd (snd (fst (src_iter st e s w))) = listen_fd w.
Proof.
  intros Hacc Hf1.
  rewrite src_iter_unfold. cbv zeta. cbn [fst snd].
  pose proof (get_client_accounted base _ _ Hf1 Hacc) as Hg.
  rewrite <- (get_client_listen (se_accept e) w).
  set (gc := get_client (se_accept e) w) in *.
  unfold src_io.
  destruct (Z.leb_spec 0 (fst (fst gc))) as [Hfd|Hfd]; [|split; [exact Hg | reflexivity]].
  destruct ((0 <? se_poll_ret e) && negb (Z.land (se_revents e) POLLIN =? 0));
    [|split; [exact Hg | reflexivity]].
  pose proof (wrap64_range (src_sampc st * 2)) as Hn.
  fold (frame_nbytes (src_sampc st)) in Hn.
  pose proof (read_frame_structure (Z.to_nat (frame_nbytes (src_sampc st)))
                (fst (fst gc)) (frame_nbytes (src_sampc st))
                (se_read e) 0 0 (buf s) (snd (fst gc))) as Hst.
  cbv zeta in Hst.
  destruct (read_frame _ _ _ _ _ _ _ _) as [[b w'] evs]. cbn [fst snd] in *.
  destruct Hst as (_ & _ & [(_ & -> & _)|(? & ? & ? & _ & _ & _ & -> & _)]);
    [lia | lia | split; [exact Hg | reflexivity] |].
  split; [apply drop_client_accounted; assumption | apply drop_client_listen].
Qed.

Lemma play_iter_accounted base pst pe s w :
  accounted base w -> Race.fresh (pe_accept pe) w ->
  accounted base (snd (fst (play_iter pst pe s w))) /\
  listen_fd (snd (fst (play_iter pst pe s w))) = listen_fd w.
Proof.
  intros Hacc Hf2.
  rewrite play_iter_unfold. cbv zeta. cbn [fst snd].
  pose proof (get_client_accounted base _ _ Hf2 Hacc) as Hg.
  rewrite <- (get_client_listen (pe_accept pe) w).
  set (gc := get_client (pe_accept pe) w) in *.
  unfold play_io.
  destruct (Z.leb_spec 0 (fst (fst gc))) as [Hfd|Hfd]; [|split; [exact Hg | reflexivity]].
  pose proof (write_frame_spec (Z.to_nat (frame_nbytes (play_sampc pst)))
                (fst (fst gc)) (frame_nbytes (play_sampc pst)) (pe_write pe)
                (host_fill (pe_audio pe) (buf s)) 0 0 (snd (fst gc))) as Hw.
  cbv zeta in Hw.
  destruct (write_frame _ _ _ _ _ _ _ _) as [w2 evs]. cbn [fst snd] in *.
  destruct Hw as (_ & [(_ & -> & _)|(? & ? & ? & _ & _ & _ & -> & _)]);
    [split; [exact Hg | reflexivity]|].
  split; [apply drop_client_accounted; assumption | apply drop_client_listen].
Qed.

(** X4: every pass of either loop keeps the descriptor table accounted
    for: if, besides the descriptors of the rest of the process, exactly
    the listening socket and the held peer (if any) are open before the
    pass, the same holds after it.  A pass therefore never leaks an
    accepted descriptor and never closes the listening socket or a
    descriptor that is not the module's.  ([accept] is assumed never to
    return a descriptor that is already open.) *)
Theorem pass_keeps_descriptors_accounted base st pst e pe s w :
  accounted base w ->
  Race.fresh (se_accept e) w -> Race.fresh (pe_accept pe) w ->
  accounted base (snd (fst (src_iter st e s w))) /\
  listen_fd (snd (fst (src_iter st e s w))) = listen_fd w /\
  accounted base (snd (fst (play_iter pst pe s w))) /\
  listen_fd (snd (fst (play_iter pst pe s w))) = listen_fd w.
Proof.
  intros Hacc Hf1 Hf2.
  destruct (src_iter_accounted base st e s w Hacc Hf1) as [H1 H2].
  destruct (play_iter_accounted base pst pe s w Hacc Hf2) as [H3 H4].
  exact (conj H1 (conj H2 (conj H3 H4))).
Qed.

Lemma pass_keeps_descriptors_accounted_witness :
  accounted ∅ (snd (fst (src_iter src_8k (src_env_eof 1000)
                            (src_start src_8k (at_us 0)) world_peer))) /\
  listen_fd (snd (fst (src_iter src_8k (src_env_eof 1000)
                         (src_start src_8k (at_us 0)) world_peer))) = 3 /\
  accounted ∅ (snd (fst (play_iter play_8k (play_env_fail 1000)
                            (src_start src_8k (at_us 0)) world_peer))) /\
  listen_fd (snd (fst (play_iter play_8k (play_env_fail 1000)
                         (src_start src_8k (at_us 0)) world_peer))) = 3.
Proof.
  apply (pass_keeps_descriptors_accounted ∅ src_8k play_8k (src_env_eof 1000)
           (play_env_fail 1000) (src_start src_8k (at_us 0)) world_peer).
  - unfold accounted, module_fds. simpl.
    split; [set_facts|]. split; [intros _; apply not_elem_of_empty|].
    intros _. split; [apply not_elem_of_empty | lia].
  - left. simpl. lia.
  - left. simpl. lia.
Defined.

(** ** Module entry points *)

Lemma setup_listen_cases sun path e m :
  let r := setup_listen sun path e m in
  (le_socket e < 0 /\ r = (le_errno e, m, [MUnlink path; MSocket (le_socket e)])) \/
  (0 <= le_socket e /\ (le_bind e < 0 \/ le_listen e < 0) /\
   fst (fst r) = le_errno e /\
   listen_fd (m_world (snd (fst r))) = listen_fd (m_world m) /\
   client_fd (m_world (snd (fst r))) = client_fd (m_world m) /\
   sock_path (snd (fst r)) = sock_path m /\
   sock_mtx (snd (fst r)) = sock_mtx m /\
   mod_ausrc (snd (fst r)) = mod_ausrc m /\
   mod_auplay (snd (fst r)) = mod_auplay m /\
   open_fds (m_world (snd (fst r)))
   = ({[le_socket e]} ∪ open_fds (m_world m)) ∖ {[le_socket e]} /\
   mod_closes (snd r) = [le_socket e] /\
   (le_bind e < 0 -> mod_listens (snd r) = [])) \/
  (0 <= le_socket e /\ 0 <= le_bind e /\ 0 <= le_listen e /\
   fst (fst r) = 0 /\
   listen_fd (m_world (snd (fst r))) = le_socket e /\
   client_fd (m_world (snd (fst r))) = client_fd (m_world m) /\
   sock_path (snd (fst r)) = take (SOCK_PATH_SIZE - 1) path /\
   sock_mtx (snd (fst r)) = sock_mtx m /\
   mod_ausrc (snd (fst r)) = mod_ausrc m /\
   mod_auplay (snd (fst r)) = mod_auplay m /\
   open_fds (m_world (snd (fst r))) = {[le_socket e]} ∪ open_fds (m_world m) /\
   blocking_fds (m_world (snd (fst r)))
   = ({[le_socket e]} ∪ blocking_fds (m_world m)) ∖ {[le_socket e]} /\
   mod_closes (snd r) = [] /\
   mod_listens (snd r) = [le_socket e] /\
   mod_binds (snd r) = [take (sun - 1) path] /\
   mod_unlinks (snd r) = [path]).
Proof.
  unfold setup_listen, sys_socket, sys_close, strncpy.
  destruct (Z.ltb_spec (le_socket e) 0) as [Hs|Hs]; [left; split; [exact Hs | reflexivity]|].
  right.
  destruct (Z.ltb_spec (le_bind e) 0) as [Hb|Hb].
  - left. cbn. repeat split; auto.
  - destruct (Z.ltb_spec (le_listen e) 0) as [Hl|Hl].
    + left. cbn. repeat split; auto. lia.
    + right. cbn. repeat split; auto.
Qed.

(** X5: [setup_listen] succeeds (returns 0) exactly when [socket], [bind]
    and [listen] all succeed.  On failure it returns the [errno] of the
    failing call, leaves [listen_fd] and [sock_path] alone and has closed
    the socket it created, so the set of open descriptors is unchanged;
    [listen] is not called after a failed [bind].  On success [listen_fd]
    is the new socket, open and non-blocking, and [sock_path] holds the
    first 255 bytes of the path. *)
Theorem setup_listen_all_or_nothing sun path e m :
  le_errno e <> 0 -> Race.fresh (le_socket e) (m_world m) ->
  let r := setup_listen sun path e m in
  let m' := snd (fst r) in
  (fst (fst r) = 0 <->
   0 <= le_socket e /\ 0 <= le_bind e /\ 0 <= le_listen e) /\
  (fst (fst r) <> 0 ->
   fst (fst r) = le_errno e /\
   open_fds (m_world m') = open_fds (m_world m) /\
   listen_fd (m_world m') = listen_fd (m_world m) /\
   sock_path m' = sock_path m /\
   (le_bind e < 0 -> mod_listens (snd r) = [])) /\
  (fst (fst r) = 0 ->
   listen_fd (m_world m') = le_socket e /\
   (le_socket e ∈ open_fds (m_world m')) /\
   (le_socket e ∉ blocking_fds (m_world m')) /\
   sock_path m' = take 255 path).
Proof.
  intros Herr Hfresh r m'. subst m' r.
  destruct (setup_listen_cases sun path e m)
    as [(Hs & ->)|[(Hs & Hbl & Hr & Hl & Hc & Hp & _ & _ & _ & Ho & _ & Hli)
                  |(Hs & Hb & Hl & Hr & Hlf & _ & Hp & _ & _ & _ & Ho & Hbk & _)]];
    cbn [fst snd].
  - split; [split; [intros H; congruence | lia]|].
    split; [intros _; repeat split; auto; lia | intros H; congruence].
  - assert (Hnew : le_socket e ∉ open_fds (m_world m)).
    { destruct Hfresh as [H|H]; [lia | exact H]. }
    split; [split; [intros H; congruence | lia]|].
    split; [|intros H; congruence].
    intros _. repeat split; auto. rewrite Ho. set_facts.
  - split; [split; [intros _; lia | intros _; exact Hr]|].
    split; [intros H; congruence|].
    intros _. repeat split; auto.
    + rewrite Ho. apply elem_of_union_l, elem_of_singleton. reflexivity.
    + rewrite Hbk. set_facts.
Qed.

Lemma setup_listen_all_or_nothing_witness :
  let e := listen_env_in_use in
  let m := module_unloaded ∅ ∅ in
  let r := setup_listen SUN_PATH_LINUX DEFAULT_PATH e m in
  let m' := snd (fst r) in
  (fst (fst r) = 0 <->
   0 <= le_socket e /\ 0 <= le_bind e /\ 0 <= le_listen e) /\
  (fst (fst r) <> 0 ->
   fst (fst r) = le_errno e /\
   open_fds (m_world m') = open_fds (m_world m) /\
   listen_fd (m_world m') = listen_fd (m_world m) /\
   sock_path m' = sock_path m /\
   (le_bind e < 0 -> mod_listens (snd r) = [])) /\
  (fst (fst r) = 0 ->
   listen_fd (m_world m') = le_socket e /\
   (le_socket e ∈ open_fds (m_world m')) /\
   (le_socket e ∉ blocking_fds (m_world m')) /\
   sock_path m' = take 255 DEFAULT_PATH).
Proof.
  apply (setup_listen_all_or_nothing SUN_PATH_LINUX DEFAULT_PATH
           listen_env_in_use (module_unloaded ∅ ∅)).
  - simpl. lia.
  - right. simpl. apply not_elem_of_empty.
Defined.

Lemma choose_path_nonempty val : choose_path val <> [].
Proof. destruct val as [[|b p]|]; discriminate. Qed.

(** With only the listening socket held, the module's descriptors are
    accounted for. *)
Lemma listening_accounted base w fd :
  0 <= fd -> fd ∉ base ->
  listen_fd w = fd -> client_fd w = -1 -> open_fds w = {[fd]} ∪ base ->
  accounted base w.
Proof.
  intros Hfd Hnew Hl Hc Ho. unfold accounted, module_fds.
  rewrite Hl, Hc, Ho.
  destruct (Z.leb_spec 0 fd) as [_|Hneg]; [|lia].
  change (0 <=? -1) with false.
  split; [|split].
  - set_facts.
  - intros _. exact Hnew.
  - intros Hbad. lia.
Qed.

(** X6: starting from the unloaded module, [module_init] returns 0
    exactly when the mutex, the listening socket and both registrations
    succeed.  Then the listening socket is the only descriptor the module
    has opened, the slot is empty, and both registrations are stored.
    When the mutex or the socket set-up fails, nothing stays open, the
    mutex is not left initialised and nothing is registered.  When only a
    registration fails, both registrations are released, but the listening
    socket stays open and the mutex stays initialised. *)
Theorem module_init_outcome sun e open blocking :
  le_errno (ie_listen e) <> 0 ->
  le_socket (ie_listen e) < 0 \/ le_socket (ie_listen e) ∉ open ->
  let r := module_init sun e (module_unloaded open blocking) in
  let m' := snd (fst r) in
  let listening :=
    0 <= le_socket (ie_listen e) /\ 0 <= le_bind (ie_listen e) /\
    0 <= le_listen (ie_listen e) in
  (fst (fst r) = 0 <->
   ie_mtx_ok e = true /\ listening /\ ie_reg_src e = 0 /\ ie_reg_play e = 0) /\
  (fst (fst r) = 0 ->
   accounted open (m_world m') /\
   listen_fd (m_world m') = le_socket (ie_listen e) /\
   client_fd (m_world m') = -1 /\
   sock_mtx m' = true /\ mod_ausrc m' = true /\ mod_auplay m' = true) /\
  (ie_mtx_ok e = false \/ ~ listening ->
   fst (fst r) <> 0 /\
   open_fds (m_world m') = open /\ listen_fd (m_world m') = -1 /\
   sock_mtx m' = false /\ mod_ausrc m' = false /\ mod_auplay m' = false) /\
  (ie_mtx_ok e = true -> listening ->
   ie_reg_src e <> 0 \/ ie_reg_play e <> 0 ->
   fst (fst r) = Z.lor (ie_reg_src e) (ie_reg_play e) /\ fst (fst r) <> 0 /\
   mod_ausrc m' = false /\ mod_auplay m' = false /\
   accounted open (m_world m') /\
   listen_fd (m_world m') = le_socket (ie_listen e) /\
   sock_mtx m' = true).
Proof.
  intros Herr Hfresh r m' listening. subst m' r listening.
  unfold module_init.
  destruct (ie_mtx_ok e) eqn:Hmtx; cbn [negb].
  2:{ cbn [fst snd module_unloaded m_world open_fds listen_fd sock_mtx
            mod_ausrc mod_auplay].
      unfold ENOMEM.
      split; [split; [intros H; discriminate | intros (H & _); discriminate]|].
      split; [intros H; discriminate|].
      split; [intros _; repeat split; auto; discriminate|].
      intros H; discriminate. }
  set (m1 := set_mtx true (module_unloaded open blocking)).
  pose proof (setup_listen_cases sun (choose_path (ie_getenv e)) (ie_listen e) m1)
    as Hcases.
  cbv zeta in Hcases.
  assert (Hlor : Z.lor (ie_reg_src e) (ie_reg_play e) = 0 <->
                 ie_reg_src e = 0 /\ ie_reg_play e = 0) by apply Z.lor_eq_0_iff.
  destruct (setup_listen sun (choose_path (ie_getenv e)) (ie_listen e) m1)
    as [[err m2] ev1].
  cbn [fst snd] in Hcases.
  destruct Hcases as [(Hs & Hr)|[(Hs & Hbl & Hr & Hl & Hc & Hp & Hm & Ha & Hpl & Ho & _)
                  |(Hs & Hb & Hl & Hr & Hlf & Hc & Hp & Hm & Ha & Hpl & Ho & _)]].
  - (* socket failed *)
    inversion Hr; subst err m2 ev1; clear Hr.
    destruct (Z.eqb_spec (le_errno (ie_listen e)) 0) as [H0|H0]; [contradiction|].
    cbn [negb fst snd]. cbn.
    split; [split; [intros H; contradiction | intros (_ & (H & _) & _); lia]|].
    split; [intros H; contradiction|].
    split; [intros _; repeat split; auto|].
    intros _ (H & _). lia.
  - (* bind or listen failed *)
    subst err.
    destruct (Z.eqb_spec (le_errno (ie_listen e)) 0) as [H0|H0]; [contradiction|].
    cbn [negb fst snd]. cbn [set_mtx m_world sock_mtx mod_ausrc mod_auplay].
    assert (Hnew : le_socket (ie_listen e) ∉ open).
    { destruct Hfresh as [H|H]; [lia | exact H]. }
    split; [split; [intros H; contradiction | intros (_ & (_ & H1 & H2) & _); lia]|].
    split; [intros H; contradiction|].
    split; [|intros _ (_ & H1 & H2); lia].
    intros _. rewrite Ho, Hl, Ha, Hpl. cbn. repeat split; auto. set_facts.
  - (* listening *)
    subst err. cbn [Z.eqb negb fst snd].
    assert (Hacc : accounted open (m_world m2)).
    { apply (listening_accounted open (m_world m2) (le_socket (ie_listen e)));
        auto.
      destruct Hfresh as [H'|H']; [lia | exact H']. }
    destruct (Z.eqb_spec (Z.lor (ie_reg_src e) (ie_reg_play e)) 0) as [H0|H0];
      cbn [negb fst snd set_registered m_world sock_mtx mod_ausrc mod_auplay].
    + apply Hlor in H0 as [Hs0 Hp0]. rewrite Hs0, Hp0. cbn [Z.eqb Z.lor].
      split; [split; [intros _; repeat split; auto | reflexivity]|].
      split; [intros _; split; [exact Hacc|];
              rewrite Hlf, Hc, Hm; repeat split; reflexivity|].
      split; [intros [H'|H']; [discriminate | exfalso; apply H'; auto]|].
      intros _ _ [H'|H']; contradiction.
    + split; [split; [intros H'; contradiction
                     | intros (_ & _ & H1 & H2); exfalso; apply H0, Hlor; auto]|].
      split; [intros H'; contradiction|].
      split; [intros [H'|H']; [discriminate | exfalso; apply H'; auto]|].
      intros _ _ _. split; [reflexivity|]. split; [exact H0|].
      split; [reflexivity|]. split; [reflexivity|]. split; [exact Hacc|].
      split; [exact Hlf|]. rewrite Hm. reflexivity.
Qed.

Lemma module_init_outcome_witness :
  let e := init_env_ok in
  let r := module_init SUN_PATH_LINUX e (module_unloaded ∅ ∅) in
  let m' := snd (fst r) in
  let listening :=
    0 <= le_socket (ie_listen e) /\ 0 <= le_bind (ie_listen e) /\
    0 <= le_listen (ie_listen e) in
  (fst (fst r) = 0 <->
   ie_mtx_ok e = true /\ listening /\ ie_reg_src e = 0 /\ ie_reg_play e = 0) /\
  (fst (fst r) = 0 ->
   accounted ∅ (m_world m') /\
   listen_fd (m_world m') = le_socket (ie_listen e) /\
   client_fd (m_world m') = -1 /\
   sock_mtx m' = true /\ mod_ausrc m' = true /\ mod_auplay m' = true) /\
  (ie_mtx_ok e = false \/ ~ listening ->
   fst (fst r) <> 0 /\
   open_fds (m_world m') = ∅ /\ listen_fd (m_world m') = -1 /\
   sock_mtx m' = false /\ mod_ausrc m' = false /\ mod_auplay m' = false) /\
  (ie_mtx_ok e = true -> listening ->
   ie_reg_src e <> 0 \/ ie_reg_play e <> 0 ->
   fst (fst r) = Z.lor (ie_reg_src e) (ie_reg_play e) /\ fst (fst r) <> 0 /\
   mod_ausrc m' = false /\ mod_auplay m' = false /\
   accounted ∅ (m_world m') /\
   listen_fd (m_world m') = le_socket (ie_listen e) /\
   sock_mtx m' = true).
Proof.
  apply (module_init_outcome SUN_PATH_LINUX init_env_ok ∅ ∅).
  - simpl. lia.
  - right. simpl. apply not_elem_of_empty.
Defined.

Lemma mod_closes_app a b : mod_closes (a ++ b) = mod_closes a ++ mod_closes b.
Proof.
  induction a as [|[[]| | | | | | | | | | | | |] a IH]; simpl; rewrite ?IH; reflexivity.
Qed.

Lemma mod_unlinks_app a b :
  mod_unlinks (a ++ b) = mod_unlinks a ++ mod_unlinks b.
Proof.
  induction a as [|[] a IH]; simpl; rewrite ?IH; reflexivity.
Qed.

Lemma mod_binds_app a b : mod_binds (a ++ b) = mod_binds a ++ mod_binds b.
Proof.
  induction a as [|[] a IH]; simpl; rewrite ?IH; reflexivity.
Qed.

(** What [module_close] leaves, whatever the state it starts from. *)
Lemma module_close_fields m :
  let r := module_close m in
  let m' := snd (fst r) in
  let w := m_world m in
  fst (fst r) = 0 /\
  listen_fd (m_world m') = (if 0 <=? listen_fd w then -1 else listen_fd w) /\
  client_fd (m_world m') = (if 0 <=? client_fd w then -1 else client_fd w) /\
  open_fds (m_world m') =
    (open_fds w ∖ (if 0 <=? client_fd w then {[client_fd w]} else ∅))
      ∖ (if 0 <=? listen_fd w then {[listen_fd w]} else ∅) /\
  sock_path m' = sock_path m /\
  sock_mtx m' = false /\ mod_ausrc m' = false /\ mod_auplay m' = false /\
  mod_closes (snd r) =
    (if 0 <=? client_fd w then [client_fd w] else [])
      ++ (if 0 <=? listen_fd w then [listen_fd w] else []) /\
  mod_unlinks (snd r) =
    match sock_path m with [] => [] | _ :: _ => [sock_path m] end.
Proof.
  unfold module_close, sys_close.
  destruct m as [[l c o b] p mt s a].
  cbn [m_world client_fd listen_fd open_fds blocking_fds sock_path].
  destruct (0 <=? c) eqn:Hc;
    cbn [set_client_fd listen_fd client_fd open_fds blocking_fds];
    destruct (0 <=? l) eqn:Hl;
    cbn [fst snd m_world set_listen_fd set_client_fd listen_fd client_fd open_fds
         blocking_fds sock_path sock_mtx mod_ausrc mod_auplay];
    rewrite ?mod_closes_app, ?mod_unlinks_app;
    (split; [reflexivity|]); (split; [reflexivity|]); (split; [reflexivity|]);
    (split; [set_facts|]); (split; [reflexivity|]); (split; [reflexivity|]);
    (split; [reflexivity|]); (split; [reflexivity|]);
    (split; destruct p; reflexivity).
Qed.

(** X7: when the descriptor table is accounted for, [module_close]
    returns 0 and closes exactly the module's descriptors, each once and
    the peer before the listening socket: afterwards only the descriptors
    of the rest of the process are open, the module holds no descriptor,
    the registrations are released and the mutex is destroyed.  Closing
    again closes nothing. *)
Theorem module_close_releases base m :
  accounted base (m_world m) ->
  let r := module_close m in
  let m' := snd (fst r) in
  fst (fst r) = 0 /\
  open_fds (m_world m') = base /\
  listen_fd (m_world m') < 0 /\ client_fd (m_world m') < 0 /\
  sock_mtx m' = false /\ mod_ausrc m' = false /\ mod_auplay m' = false /\
  mod_closes (snd r) =
    (if 0 <=? client_fd (m_world m) then [client_fd (m_world m)] else [])
      ++ (if 0 <=? listen_fd (m_world m) then [listen_fd (m_world m)] else []) /\
  NoDup (mod_closes (snd r)) /\
  mod_closes (snd (module_close m')) = [].
Proof.
  intros (Hopen & Hl & Hc) r m'. subst m' r.
  pose proof (module_close_fields m) as Hf. cbv zeta in Hf.
  destruct Hf as (Hr & Hlf & Hcf & Ho & Hp & Hm & Ha & Hpl & Hcl & Hu).
  pose proof (module_close_fields (snd (fst (module_close m)))) as Hf2.
  cbv zeta in Hf2.
  destruct Hf2 as (_ & _ & _ & _ & _ & _ & _ & _ & Hcl2 & _).
  rewrite Hcl2, Hcl, Hlf, Hcf, Ho, Hopen. unfold module_fds.
  split; [exact Hr|].
  destruct (Z.leb_spec 0 (client_fd (m_world m))) as [Hc0|Hc0];
    destruct (Z.leb_spec 0 (listen_fd (m_world m))) as [Hl0|Hl0];
    change (0 <=? -1) with false; cbn [app].
  - destruct (Hc Hc0) as [Hcb Hne]. specialize (Hl Hl0).
    split; [set_facts|]. split; [lia|]. split; [lia|].
    repeat (split; [assumption || reflexivity|]).
    split; [|reflexivity].
    apply NoDup_cons. split; [|apply NoDup_singleton].
    intros Hin. apply list_elem_of_singleton in Hin. contradiction.
  - destruct (Hc Hc0) as [Hcb Hne].
    destruct (Z.leb_spec 0 (listen_fd (m_world m))); [lia|].
    split; [set_facts|]. split; [lia|]. split; [lia|].
    repeat (split; [assumption || reflexivity|]).
    split; [apply NoDup_singleton | reflexivity].
  - specialize (Hl Hl0).
    destruct (Z.leb_spec 0 (client_fd (m_world m))); [lia|].
    split; [set_facts|]. split; [lia|]. split; [lia|].
    repeat (split; [assumption || reflexivity|]).
    split; [apply NoDup_singleton | reflexivity].
  - destruct (Z.leb_spec 0 (client_fd (m_world m))); [lia|].
    destruct (Z.leb_spec 0 (listen_fd (m_world m))); [lia|].
    split; [set_facts|]. split; [lia|]. split; [lia|].
    repeat (split; [assumption || reflexivity|]).
    split; [apply NoDup_nil_2 | reflexivity].
Qed.

Lemma module_close_releases_witness :
  let m := set_world world_peer module_loaded in
  let r := module_close m in
  let m' := snd (fst r) in
  fst (fst r) = 0 /\
  open_fds (m_world m') = ∅ /\
  listen_fd (m_world m') < 0 /\ client_fd (m_world m') < 0 /\
  sock_mtx m' = false /\ mod_ausrc m' = false /\ mod_auplay m' = false /\
  mod_closes (snd r) =
    (if 0 <=? client_fd (m_world m) then [client_fd (m_world m)] else [])
      ++ (if 0 <=? listen_fd (m_world m) then [listen_fd (m_world m)] else []) /\
  NoDup (mod_closes (snd r)) /\
  mod_closes (snd (module_close m')) = [].
Proof.
  apply (module_close_releases ∅ (set_world world_peer module_loaded)).
  unfold accounted, module_fds. simpl.
  split; [set_facts|]. split; [intros _; apply not_elem_of_empty|].
  intros _. split; [apply not_elem_of_empty | lia].
Defined.

(** What a successful [module_init] leaves behind. *)
Lemma module_init_success sun e open blocking :
  le_errno (ie_listen e) <> 0 ->
  Race.fresh (le_socket (ie_listen e)) (m_world (module_unloaded open blocking)) ->
  let r := module_init sun e (module_unloaded open blocking) in
  let path := choose_path (ie_getenv e) in
  fst (fst r) = 0 ->
  accounted open (m_world (snd (fst r))) /\
  sock_path (snd (fst r)) = take (SOCK_PATH_SIZE - 1) path /\
  mod_binds (snd r) = [take (sun - 1) path] /\
  mod_unlinks (snd r) = [path] /\
  mod_closes (snd r) = [].
Proof.
  intros Herr Hfresh r path. subst r path. unfold module_init.
  destruct (ie_mtx_ok e); cbn [negb]; [|intros H; discriminate].
  set (m1 := set_mtx true (module_unloaded open blocking)).
  pose proof (setup_listen_cases sun (choose_path (ie_getenv e)) (ie_listen e) m1)
    as Hcases.
  cbv zeta in Hcases.
  destruct (setup_listen sun (choose_path (ie_getenv e)) (ie_listen e) m1)
    as [[err m2] ev1].
  cbn [fst snd] in Hcases.
  destruct Hcases as [(Hs & Hr)|[(Hs & Hbl & Hr & _)
                  |(Hs & Hb & Hl & Hr & Hlf & Hc & Hp & Hm & Ha & Hpl & Ho & _ &
                    Hcl & _ & Hbi & Hun)]].
  - inversion Hr; subst err m2 ev1.
    destruct (Z.eqb_spec (le_errno (ie_listen e)) 0); [contradiction|].
    cbn [negb fst]. intros H; contradiction.
  - subst err.
    destruct (Z.eqb_spec (le_errno (ie_listen e)) 0); [contradiction|].
    cbn [negb fst]. intros H; contradiction.
  - subst err. cbn [Z.eqb negb].
    assert (Hacc : accounted open (m_world m2)).
    { apply (listening_accounted open (m_world m2) (le_socket (ie_listen e)));
        auto.
      destruct Hfresh as [H'|H']; [lia | exact H']. }
    destruct (Z.eqb_spec (Z.lor (ie_reg_src e) (ie_reg_play e)) 0) as [H0|H0];
      cbn [negb fst snd]; [intros _ | intros H; contradiction].
    cbn [set_registered m_world sock_path].
    rewrite !mod_binds_app, !mod_unlinks_app, !mod_closes_app, Hbi, Hun, Hcl.
    split; [exact Hacc|]. split; [exact Hp|]. repeat split.
Qed.

Lemma take_take_eq_iff {A} (n k : nat) (l : list A) :
  (n < k)%nat -> (take k l = take n l <-> (length l <= n)%nat).
Proof.
  intros Hnk. split.
  - intros Heq. apply (f_equal length) in Heq.
    rewrite !length_take in Heq. lia.
  - intros Hlen. rewrite !take_ge by lia. reflexivity.
Qed.

(** X8: the socket path.  The module listens on [AUSOCK_PATH], or on
    /tmp/ausock.sock when that variable is unset or empty.  After a
    successful [module_init] the address bound is the path cut to the size
    of [sun_path] less one, while [module_close] unlinks the path cut to
    255 bytes.  With [sun_path] shorter than [sock_path] (108 against 256
    bytes on Linux), the file removed on unloading is the one that was
    bound exactly when the path fits [sun_path]. *)
Theorem unload_unlinks_bound_path sun e open blocking :
  (sun < SOCK_PATH_SIZE)%nat ->
  le_errno (ie_listen e) <> 0 ->
  Race.fresh (le_socket (ie_listen e)) (m_world (module_unloaded open blocking)) ->
  let r := module_init sun e (module_unloaded open blocking) in
  let path := choose_path (ie_getenv e) in
  fst (fst r) = 0 ->
  (path = DEFAULT_PATH <->
   ie_getenv e = None \/ ie_getenv e = Some [] \/ ie_getenv e = Some DEFAULT_PATH) /\
  mod_unlinks (snd r) = [path] /\
  mod_binds (snd r) = [take (sun - 1) path] /\
  mod_unlinks (snd (module_close (snd (fst r)))) = [take (SOCK_PATH_SIZE - 1) path] /\
  (mod_unlinks (snd (module_close (snd (fst r)))) = mod_binds (snd r) <->
   (length path <= sun - 1)%nat).
Proof.
  intros Hsun Herr Hfresh r path Hok.
  destruct (module_init_success sun e open blocking Herr Hfresh Hok)
    as (_ & Hp & Hb & Hu & _).
  fold r in Hp, Hb, Hu. fold path in Hp, Hb, Hu.
  pose proof (module_close_fields (snd (fst r))) as Hf. cbv zeta in Hf.
  destruct Hf as (_ & _ & _ & _ & _ & _ & _ & _ & _ & Hcu).
  assert (Hne : path <> []) by apply choose_path_nonempty.
  assert (Hcu' : mod_unlinks (snd (module_close (snd (fst r))))
                 = [take (SOCK_PATH_SIZE - 1) path]).
  { rewrite Hcu, Hp. destruct path as [|b p]; [contradiction|]. reflexivity. }
  split.
  { subst path. unfold choose_path.
    destruct (ie_getenv e) as [[|b p]|]; (split; [intros H | intros [H|[H|H]]]);
      first [ reflexivity | congruence
            | left; reflexivity | right; left; reflexivity
            | right; right; congruence ]. }
  split; [exact Hu|]. split; [exact Hb|]. split; [exact Hcu'|].
  rewrite Hcu', Hb. unfold SOCK_PATH_SIZE in *.
  rewrite <- (take_take_eq_iff (sun - 1) (256 - 1) path) by lia.
  split; intros H; congruence.
Qed.

Lemma unload_unlinks_bound_path_witness :
  let e := init_env_ok in
  let r := module_init SUN_PATH_LINUX e (module_unloaded ∅ ∅) in
  let path := choose_path (ie_getenv e) in
  (path = DEFAULT_PATH <->
   ie_getenv e = None \/ ie_getenv e = Some [] \/ ie_getenv e = Some DEFAULT_PATH) /\
  mod_unlinks (snd r) = [path] /\
  mod_binds (snd r) = [take (SUN_PATH_LINUX - 1) path] /\
  mod_unlinks (snd (module_close (snd (fst r)))) = [take (SOCK_PATH_SIZE - 1) path] /\
  (mod_unlinks (snd (module_close (snd (fst r)))) = mod_binds (snd r) <->
   (length path <= SUN_PATH_LINUX - 1)%nat).
Proof.
  apply (unload_unlinks_bound_path SUN_PATH_LINUX init_env_ok ∅ ∅).
  - vm_compute. lia.
  - simpl. lia.
  - right. simpl. apply not_elem_of_empty.
  - reflexivity.
Defined.

Lemma run_passes_accounted base ps : forall w,
  accounted base w -> passes_fresh ps w ->
  accounted base (run_passes ps w) /\
  listen_fd (run_passes ps w) = listen_fd w.
Proof.
  induction ps as [|p ps IH]; intros w Hacc Hfr; [split; [exact Hacc | reflexivity]|].
  destruct Hfr as [Hf Hrest]. unfold run_passes. cbn [fold_left].
  assert (Hstep : accounted base (pass_world p w) /\
                  listen_fd (pass_world p w) = listen_fd w).
  { destruct p as [st e s|st e s]; cbn [pass_world pass_accept] in *.
    - apply src_iter_accounted; assumption.
    - apply play_iter_accounted; assumption. }
  destruct Hstep as [Ha Hl].
  destruct (IH _ Ha Hrest) as [Ha' Hl'].
  split; [exact Ha' | unfold run_passes in Hl'; congruence].
Qed.

(** X9: a whole session.  After a successful [module_init], any passes of
    the two loops (taken one at a time, [accept] never returning an open
    descriptor) and then [module_close], the descriptors open in the
    process are the ones that were open before the module was loaded: the
    module leaks no descriptor and closes none of another owner.  During
    the passes the listening socket stays the one created on loading. *)
Theorem session_restores_descriptors sun e open blocking ps :
  le_errno (ie_listen e) <> 0 ->
  Race.fresh (le_socket (ie_listen e)) (m_world (module_unloaded open blocking)) ->
  let r := module_init sun e (module_unloaded open blocking) in
  let m := snd (fst r) in
  fst (fst r) = 0 ->
  passes_fresh ps (m_world m) ->
  let w := run_passes ps (m_world m) in
  let c := module_close (set_world w m) in
  listen_fd w = le_socket (ie_listen e) /\
  (listen_fd w ∈ open_fds w) /\
  fst (fst c) = 0 /\
  open_fds (m_world (snd (fst c))) = open /\
  (forall fd, In fd (mod_closes (snd c)) -> fd ∉ open).
Proof.
  intros Herr Hfresh r m Hok Hps w c.
  destruct (module_init_success sun e open blocking Herr Hfresh Hok)
    as (Hacc & _).
  fold r in Hacc. fold m in Hacc.
  destruct (run_passes_accounted open ps (m_world m) Hacc Hps) as [Haw Hlw].
  fold w in Haw, Hlw.
  assert (Hl0 : listen_fd (m_world m) = le_socket (ie_listen e) /\
                0 <= le_socket (ie_listen e)).
  { pose proof (setup_listen_cases sun (choose_path (ie_getenv e)) (ie_listen e)
                  (set_mtx true (module_unloaded open blocking))) as Hcases.
    cbv zeta in Hcases. subst m r. revert Hok. unfold module_init.
    destruct (ie_mtx_ok e); cbn [negb]; [|intros H; discriminate].
    destruct (setup_listen _ _ _ _) as [[err m2] ev1]. cbn [fst snd] in Hcases.
    destruct Hcases as [(Hs & Hr)|[(Hs & Hbl & Hr & _)
                  |(Hs & Hb & Hl & Hr & Hlf & _)]].
    - inversion Hr; subst err m2 ev1.
      destruct (Z.eqb_spec (le_errno (ie_listen e)) 0); [contradiction|].
      cbn [negb fst]. intros H; contradiction.
    - subst err.
      destruct (Z.eqb_spec (le_errno (ie_listen e)) 0); [contradiction|].
      cbn [negb fst]. intros H; contradiction.
    - subst err. cbn [Z.eqb negb].
      destruct (negb _); cbn [fst snd set_registered m_world]; intros _;
        split; assumption. }
  destruct Hl0 as [Hl0 Hs].
  assert (Haw' : accounted open (m_world (set_world w m))) by exact Haw.
  pose proof (module_close_fields (set_world w m)) as Hf. cbv zeta in Hf.
  fold c in Hf. destruct Hf as (Hr & _ & _ & Ho & _ & _ & _ & _ & Hcl & _).
  cbn [set_world m_world] in Ho, Hcl.
  destruct Haw as (Hopen & Hlb & Hcb).
  split; [congruence|].
  split.
  { rewrite Hopen. unfold module_fds.
    destruct (Z.leb_spec 0 (listen_fd w)); [|lia].
    apply elem_of_union_r, elem_of_union_l, elem_of_singleton. reflexivity. }
  split; [exact Hr|].
  split.
  { rewrite Ho, Hopen. unfold module_fds.
    destruct (Z.leb_spec 0 (listen_fd w)); [|lia].
    destruct (Z.leb_spec 0 (client_fd w)) as [Hc0|Hc0].
    - destruct (Hcb Hc0). specialize (Hlb ltac:(lia)). set_facts.
    - specialize (Hlb ltac:(lia)). set_facts. }
  intros fd. rewrite Hcl. rewrite in_app_iff.
  destruct (Z.leb_spec 0 (listen_fd w)); [|lia].
  destruct (Z.leb_spec 0 (client_fd w)) as [Hc0|Hc0]; cbn [In].
  - intros [[<-|[]]|[<-|[]]]; [apply Hcb; assumption | apply Hlb; lia].
  - intros [[]|[<-|[]]]. apply Hlb; lia.
Qed.

Lemma session_restores_descriptors_witness :
  let e := init_env_ok in
  let ps := [SrcPass src_8k
               {| se_accept := 5; se_now_poll := at_us 1000; se_poll_ret := 1;
                  se_revents := POLLIN; se_read := fun _ => RData 0 [];
                  se_now_pace := at_us 1000 |}
               (src_start src_8k (at_us 0));
             PlayPass play_8k (play_env_idle 1000)
               (play_start play_8k (at_us 0))] in
  let r := module_init SUN_PATH_LINUX e (module_unloaded ∅ ∅) in
  let m := snd (fst r) in
  let w := run_passes ps (m_world m) in
  let c := module_close (set_world w m) in
  listen_fd w = le_socket (ie_listen e) /\
  (listen_fd w ∈ open_fds w) /\
  fst (fst c) = 0 /\
  open_fds (m_world (snd (fst c))) = ∅ /\
  (forall fd, In fd (mod_closes (snd c)) -> fd ∉ (∅ : gset Z)).
Proof.
  apply (session_restores_descriptors SUN_PATH_LINUX init_env_ok ∅ ∅).
  - simpl. lia.
  - right. simpl. apply not_elem_of_empty.
  - reflexivity.
  - split; [right; apply (bool_decide_unpack _); vm_compute; exact I|].
    split; [left; simpl; lia | exact I].
Defined.

(** ** Timing on a monotonic clock *)

Lemma drop_client_no_sleep fd w :
  sleeps_of (snd (drop_client fd w)) = [] /\
  poll_timeouts (snd (drop_client fd w)) = [].
Proof. unfold drop_client, sys_close. case_match; split; reflexivity. Qed.

Lemma read_frame_no_sleep fuel fd nbytes rd : forall k off b w,
  sleeps_of (snd (read_frame fuel fd nbytes rd k off b w)) = [].
Proof.
  induction fuel as [|fuel IH]; intros k off b w; simpl.
  - destruct (off <? nbytes); reflexivity.
  - destruct (off <? nbytes); [|reflexivity].
    destruct (sys_read (nbytes - off) (rd k)) as [n got].
    destruct (n <=? 0).
    + pose proof (drop_client_no_sleep fd w) as [Hd _].
      destruct (drop_client fd w) as [w1 evs]. exact Hd.
    + specialize (IH (S k) (off + n) (store off got b) w).
      destruct (read_frame fuel fd nbytes rd (S k) (off + n) (store off got b) w)
        as [[b' w'] evs]. exact IH.
Qed.

Lemma write_frame_no_sleep fuel fd nbytes wr b : forall k off w,
  sleeps_of (snd (write_frame fuel fd nbytes wr k off b w)) = [] /\
  poll_timeouts (snd (write_frame fuel fd nbytes wr k off b w)) = [].
Proof.
  induction fuel as [|fuel IH]; intros k off w; simpl.
  - destruct (off <? nbytes); split; reflexivity.
  - destruct (off <? nbytes); [|split; reflexivity].
    destruct (sys_write (nbytes - off) (wr k) <=? 0).
    + pose proof (drop_client_no_sleep fd w) as Hd.
      destruct (drop_client fd w) as [w1 evs]. exact Hd.
    + specialize (IH (S k) (off + sys_write (nbytes - off) (wr k)) w).
      destruct (write_frame fuel fd nbytes wr (S k) _ b w) as [w' evs].
      exact IH.
Qed.

(** The timing-relevant calls of one pass of [src_thread]. *)
Lemma src_iter_timing st e s w :
  let r := src_iter st e s w in
  let pc := pace (frame_ptime_us (src_ptime st)) (next_frame s)
              (clock_us (se_now_pace e)) in
  next_frame (fst (fst r)) = fst pc /\
  sleeps_of (snd r) = sleeps_of (snd pc) /\
  (poll_timeouts (snd r) = [] \/
   poll_timeouts (snd r)
   = [poll_timeout (next_frame s) (clock_us (se_now_poll e))]).
Proof.
  rewrite src_iter_unfold. cbv zeta. cbn [fst snd next_frame].
  destruct (get_client_no_read (se_accept e) w) as (_ & Hgs & _).
  destruct (get_client_quiet (se_accept e) w) as (Hgp & _).
  destruct (pace_quiet (frame_ptime_us (src_ptime st)) (next_frame s)
              (clock_us (se_now_pace e))) as (Hpp & _).
  set (gc := get_client (se_accept e) w) in *.
  rewrite !sleeps_of_app, !poll_timeouts_app, Hgs, Hgp, Hpp.
  cbn [sleeps_of poll_timeouts app]. rewrite !app_nil_r.
  split; [reflexivity|].
  unfold src_io.
  destruct (0 <=? fst (fst gc)); [|split; [reflexivity | left; reflexivity]].
  destruct ((0 <? se_poll_ret e) && negb (Z.land (se_revents e) POLLIN =? 0)).
  - pose proof (read_frame_no_sleep (Z.to_nat (frame_nbytes (src_sampc st)))
                  (fst (fst gc)) (frame_nbytes (src_sampc st)) (se_read e)
                  0 0 (buf s) (snd (fst gc))) as Hs.
    pose proof (read_frame_no_poll (Z.to_nat (frame_nbytes (src_sampc st)))
                  (fst (fst gc)) (frame_nbytes (src_sampc st)) (se_read e)
                  0 0 (buf s) (snd (fst gc))) as Hp.
    destruct (read_frame _ _ _ _ _ _ _ _) as [[b w'] evs]. cbn [fst snd] in *.
    cbn [sleeps_of poll_timeouts]. rewrite Hs, Hp.
    split; [reflexivity | right; reflexivity].
  - cbn [snd sleeps_of poll_timeouts].
    split; [reflexivity | right; reflexivity].
Qed.

Lemma play_iter_timing st e s w :
  let r := play_iter st e s w in
  let pc := pace (frame_ptime_us (play_ptime st)) (next_frame s)
              (clock_us (pe_now_pace e)) in
  next_frame (fst (fst r)) = fst pc /\
  sleeps_of (snd r) = sleeps_of (snd pc) /\
  poll_timeouts (snd r) = [].
Proof.
  rewrite play_iter_unfold. cbv zeta.
  cbn [fst snd next_frame sleeps_of poll_timeouts].
  destruct (get_client_no_read (pe_accept e) w) as (_ & Hgs & _).
  destruct (get_client_quiet (pe_accept e) w) as (Hgp & _).
  destruct (pace_quiet (frame_ptime_us (play_ptime st)) (next_frame s)
              (clock_us (pe_now_pace e))) as (Hpp & _).
  set (gc := get_client (pe_accept e) w) in *.
  rewrite !sleeps_of_app, !poll_timeouts_app, Hgs, Hgp, Hpp.
  cbn [sleeps_of poll_timeouts app].
  split; [reflexivity|].
  unfold play_io.
  destruct (0 <=? fst (fst gc)); [|split; reflexivity].
  destruct (write_frame_no_sleep (Z.to_nat (frame_nbytes (play_sampc st)))
              (fst (fst gc)) (frame_nbytes (play_sampc st)) (pe_write e)
              (host_fill (pe_audio e) (buf s)) 0 0 (snd (fst gc))) as [Hs Hp].
  rewrite Hs, Hp. rewrite !app_nil_r. split; reflexivity.
Qed.

(** Pacing when the cursor is not ahead of the clock: the sleep is the
    exact distance to the new cursor, at most one period. *)
Lemma pace_on_time p nf now :
  0 <= p < 2 ^ 32 -> 0 <= nf <= now -> now + p < 2 ^ 64 ->
  let pc := pace p nf now in
  fst pc = now + fold_right Z.add 0 (sleeps_of (snd pc)) /\
  now <= fst pc <= now + p /\
  Forall (fun d => 0 < d <= p) (sleeps_of (snd pc)).
Proof.
  intros Hp Hnf Hb. unfold pace. rewrite wrap64_small by lia.
  destruct (Z.ltb_spec now (nf + p)) as [Hlt|Hge]; cbn [fst snd sleeps_of fold_right].
  - rewrite wrap32_small by lia.
    split; [lia|]. split; [lia|]. constructor; [lia | constructor].
  - split; [lia|]. split; [lia|]. constructor.
Qed.

Lemma src_loop_timely st envs : forall s w t,
  0 <= next_frame s <= t ->
  timely (frame_ptime_us (src_ptime st)) t (next_frame s) (src_readings envs) ->
  let run := src_loop st envs s w in
  Forall (fun x => x = 0) (poll_timeouts (run_trace run)) /\
  Forall (fun d => 0 < d <= frame_ptime_us (src_ptime st))
    (sleeps_of (run_trace run)) /\
  Forall2 (fun c now => snd now <= c <= snd now + frame_ptime_us (src_ptime st))
    (cursors run) (src_readings envs).
Proof.
  pose proof (frame_ptime_us_range (src_ptime st)) as Hp.
  induction envs as [|e envs IH]; intros s w t Hs Ht.
  - cbn. repeat split; constructor.
  - cbn [src_readings map timely] in Ht. destruct Ht as (H1 & H2 & Hb & Hrest).
    cbv zeta in Hrest.
    destruct (src_iter_timing st e s w) as (Hnf & Hsl & Hpoll).
    destruct (pace_on_time (frame_ptime_us (src_ptime st)) (next_frame s)
                (clock_us (se_now_pace e))) as (Heq & Hrange & Hsleeps);
      [exact Hp | lia | exact Hb |].
    rewrite <- Heq in Hrest.
    cbn [src_loop]. cbv zeta.
    set (r := src_iter st e s w) in *.
    rewrite <- Hnf in Hrest.
    destruct (IH (fst (fst r)) (snd (fst r)) (next_frame (fst (fst r))))
      as (IH1 & IH2 & IH3); [rewrite Hnf; lia | exact Hrest |].
    unfold run_trace in *. cbn [map concat cursors].
    rewrite poll_timeouts_app, sleeps_of_app.
    split; [|split].
    + apply Forall_app. split; [|exact IH1].
      destruct Hpoll as [-> | ->]; [constructor|].
      constructor; [|constructor].
      unfold poll_timeout.
      destruct (Z.ltb_spec (clock_us (se_now_poll e)) (next_frame s)); [lia | reflexivity].
    + apply Forall_app. split; [|exact IH2]. rewrite Hsl. exact Hsleeps.
    + constructor; [|exact IH3]. cbn [snd]. rewrite Hnf. exact Hrange.
Qed.

Lemma play_loop_timely st envs : forall s w t,
  0 <= next_frame s <= t ->
  timely (frame_ptime_us (play_ptime st)) t (next_frame s) (play_readings envs) ->
  let run := play_loop st envs s w in
  Forall (fun d => 0 < d <= frame_ptime_us (play_ptime st))
    (sleeps_of (run_trace run)) /\
  Forall2 (fun c now => snd now <= c <= snd now + frame_ptime_us (play_ptime st))
    (cursors run) (play_readings envs).
Proof.
  pose proof (frame_ptime_us_range (play_ptime st)) as Hp.
  induction envs as [|e envs IH]; intros s w t Hs Ht.
  - cbn. repeat split; constructor.
  - cbn [play_readings map timely] in Ht. destruct Ht as (H1 & H2 & Hb & Hrest).
    cbv zeta in Hrest.
    destruct (play_iter_timing st e s w) as (Hnf & Hsl & Hpoll).
    destruct (pace_on_time (frame_ptime_us (play_ptime st)) (next_frame s)
                (clock_us (pe_now_pace e))) as (Heq & Hrange & Hsleeps);
      [exact Hp | lia | exact Hb |].
    rewrite <- Heq in Hrest.
    cbn [play_loop]. cbv zeta.
    set (r := play_iter st e s w) in *.
    rewrite <- Hnf in Hrest.
    destruct (IH (fst (fst r)) (snd (fst r)) (next_frame (fst (fst r))))
      as (IH2 & IH3); [rewrite Hnf; lia | exact Hrest |].
    unfold run_trace in *. cbn [map concat cursors].
    rewrite sleeps_of_app.
    split.
    + apply Forall_app. split; [|exact IH2]. rewrite Hsl. exact Hsleeps.
    + constructor; [|exact IH3]. cbn [snd]. rewrite Hnf. exact Hrange.
Qed.

Lemma clock_us_range ts : 0 <= clock_us ts < 2 ^ 64.
Proof. unfold clock_us. apply wrap64_range. Qed.

(** X10: on a monotonic clock on which [usleep] sleeps at least as long
    as asked, the cursor is never ahead of the clock when a pass starts.
    So through a whole run of [src_thread] every [poll] is called with
    timeout 0, and in both threads every [usleep] is for more than zero
    and at most one period (the conversion to [unsigned] loses nothing),
    and after pacing the cursor lies between the clock reading and one
    period after it. *)
Theorem timely_run_polls_without_waiting sst spt senvs w1 pst ppt penvs w2 :
  timely (frame_ptime_us (src_ptime sst)) (clock_us spt) (clock_us spt)
    (src_readings senvs) ->
  timely (frame_ptime_us (play_ptime pst)) (clock_us ppt) (clock_us ppt)
    (play_readings penvs) ->
  let srun := src_loop sst senvs (src_start sst spt) w1 in
  let prun := play_loop pst penvs (play_start pst ppt) w2 in
  Forall (fun x => x = 0) (poll_timeouts (run_trace srun)) /\
  Forall (fun d => 0 < d <= frame_ptime_us (src_ptime sst))
    (sleeps_of (run_trace srun)) /\
  Forall2 (fun c now => snd now <= c <= snd now + frame_ptime_us (src_ptime sst))
    (cursors srun) (src_readings senvs) /\
  Forall (fun d => 0 < d <= frame_ptime_us (play_ptime pst))
    (sleeps_of (run_trace prun)) /\
  Forall2 (fun c now => snd now <= c <= snd now + frame_ptime_us (play_ptime pst))
    (cursors prun) (play_readings penvs).
Proof.
  intros Hs Hp srun prun.
  pose proof (clock_us_range spt) as Hr1.
  pose proof (clock_us_range ppt) as Hr2.
  destruct (src_loop_timely sst senvs (src_start sst spt) w1 (clock_us spt))
    as (A1 & A2 & A3); [cbn; lia | exact Hs |].
  destruct (play_loop_timely pst penvs (play_start pst ppt) w2 (clock_us ppt))
    as (B1 & B2); [cbn; lia | exact Hp |].
  exact (conj A1 (conj A2 (conj A3 (conj B1 B2)))).
Qed.

Lemma timely_run_polls_without_waiting_witness :
  let srun := src_loop src_8k src_envs_timely (src_start src_8k (at_us 20000))
                world_peer in
  let prun := play_loop play_8k play_envs_timely
                (play_start play_8k (at_us 20000)) world_peer in
  Forall (fun x => x = 0) (poll_timeouts (run_trace srun)) /\
  Forall (fun d => 0 < d <= frame_ptime_us (src_ptime src_8k))
    (sleeps_of (run_trace srun)) /\
  Forall2 (fun c now => snd now <= c <= snd now + frame_ptime_us (src_ptime src_8k))
    (cursors srun) (src_readings src_envs_timely) /\
  Forall (fun d => 0 < d <= frame_ptime_us (play_ptime play_8k))
    (sleeps_of (run_trace prun)) /\
  Forall2 (fun c now => snd now <= c <= snd now + frame_ptime_us (play_ptime play_8k))
    (cursors prun) (play_readings play_envs_timely).
Proof.
  apply (timely_run_polls_without_waiting src_8k (at_us 20000) src_envs_timely
           world_peer play_8k (at_us 20000) play_envs_timely world_peer).
  - vm_compute. repeat split; discriminate.
  - vm_compute. repeat split; discriminate.
Defined.

(** ** The clock *)

Lemma clock_us_exact ts :
  0 <= tv_sec ts -> 0 <= tv_nsec ts ->
  tv_sec ts * 1000000 + tv_nsec ts / 1000 < 2 ^ 64 ->
  clock_us ts = tv_sec ts * 1000000 + tv_nsec ts / 1000.
Proof.
  intros Hs Hn Hb. unfold clock_us.
  rewrite Z.quot_div_nonneg by lia.
  assert (Hq : 0 <= tv_nsec ts / 1000) by (apply Z.div_pos; lia).
  rewrite (wrap64_small (tv_sec ts)) by lia.
  rewrite (wrap64_small (tv_sec ts * 1000000)) by lia.
  rewrite (wrap64_small (tv_nsec ts / 1000)) by lia.
  apply wrap64_small. lia.
Qed.

(** X11: [clock_us] on a normalised [timespec] (nanoseconds below one
    second, the result fitting 64 bits) is the time in whole
    microseconds, [tv_sec * 1000000 + tv_nsec / 1000], rounded down: it
    never runs backwards when the [timespec] does not, and it gives back
    every microsecond count [us] from its [timespec]. *)
Theorem clock_us_counts_microseconds t1 t2 us :
  0 <= tv_sec t1 -> 0 <= tv_nsec t1 < 1000000000 ->
  0 <= tv_nsec t2 < 1000000000 ->
  tv_sec t2 * 1000000 + tv_nsec t2 / 1000 < 2 ^ 64 ->
  tv_sec t1 < tv_sec t2 \/ (tv_sec t1 = tv_sec t2 /\ tv_nsec t1 <= tv_nsec t2) ->
  0 <= us < 2 ^ 64 ->
  clock_us t1 = tv_sec t1 * 1000000 + tv_nsec t1 / 1000 /\
  clock_us t1 * 1000 <= tv_sec t1 * 1000000000 + tv_nsec t1
    < clock_us t1 * 1000 + 1000 /\
  clock_us t1 <= clock_us t2 /\
  clock_us (at_us us) = us.
Proof.
  intros Hs1 Hn1 Hn2 Hb2 Hle Hus.
  assert (Hs2 : 0 <= tv_sec t2) by lia.
  pose proof (Z.div_mod (tv_nsec t1) 1000 ltac:(lia)) as Hd1.
  pose proof (Z.mod_pos_bound (tv_nsec t1) 1000 ltac:(lia)) as Hm1.
  pose proof (Z.div_mod (tv_nsec t2) 1000 ltac:(lia)) as Hd2.
  pose proof (Z.mod_pos_bound (tv_nsec t2) 1000 ltac:(lia)) as Hm2.
  assert (Hmono : tv_sec t1 * 1000000 + tv_nsec t1 / 1000
                  <= tv_sec t2 * 1000000 + tv_nsec t2 / 1000).
  { destruct Hle as [Hlt|[Heq Hn]].
    - assert (tv_nsec t1 / 1000 <= 999999).
      { apply Z.lt_succ_r. apply Z.div_lt_upper_bound; lia. }
      assert (0 <= tv_nsec t2 / 1000) by (apply Z.div_pos; lia).
      lia.
    - rewrite Heq. apply Z.add_le_mono_l. apply Z.div_le_mono; lia. }
  rewrite (clock_us_exact t1) by lia.
  rewrite (clock_us_exact t2) by lia.
  split; [reflexivity|]. split; [lia|]. split; [exact Hmono|].
  pose proof (Z.div_mod us 1000000 ltac:(lia)) as Hd.
  pose proof (Z.mod_pos_bound us 1000000 ltac:(lia)) as Hm.
  assert (Hq : 0 <= us / 1000000) by (apply Z.div_pos; lia).
  assert (Hn : tv_nsec (at_us us) / 1000 = us mod 1000000).
  { unfold at_us. cbn [tv_nsec]. apply Z.div_mul. lia. }
  rewrite clock_us_exact; rewrite ?Hn; unfold at_us; cbn [tv_sec tv_nsec]; lia.
Qed.

Lemma clock_us_counts_microseconds_witness :
  let t1 := {| tv_sec := 1; tv_nsec := 999999999 |} in
  let t2 := {| tv_sec := 2; tv_nsec := 0 |} in
  clock_us t1 = tv_sec t1 * 1000000 + tv_nsec t1 / 1000 /\
  clock_us t1 * 1000 <= tv_sec t1 * 1000000000 + tv_nsec t1
    < clock_us t1 * 1000 + 1000 /\
  clock_us t1 <= clock_us t2 /\
  clock_us (at_us 1999999) = 1999999.
Proof.
  apply (clock_us_counts_microseconds
           {| tv_sec := 1; tv_nsec := 999999999 |}
           {| tv_sec := 2; tv_nsec := 0 |} 1999999).
  - simpl. lia.
  - simpl. lia.
  - simpl. lia.
  - vm_compute. reflexivity.
  - left. simpl. lia.
  - lia.
Defined.

(** ** Frames over a whole run *)

Lemma sys_only_no_frames tr : sys_only tr -> frames_of tr = [].
Proof.
  unfold sys_only. induction tr as [|ev tr IH]; [reflexivity|].
  destruct ev; cbn [List.filter is_host frames_of]; intros H;
    first [discriminate | exact (IH H)].
Qed.

Lemma src_iter_frames st e s w :
  frames_of (snd (src_iter st e s w))
  = [auframe_init AUFMT_S16LE (buf (fst (fst (src_iter st e s w))))
       (src_sampc st) (src_srate st) 1].
Proof.
  rewrite src_iter_unfold. cbv zeta. cbn [fst snd buf].
  rewrite !frames_of_app.
  rewrite (sys_only_no_frames _ (get_client_sys_only _ _)).
  rewrite (sys_only_no_frames _ (src_io_sys_only _ _ _ _ _)).
  rewrite (sys_only_no_frames _ (pace_sys_only _ _ _)).
  reflexivity.
Qed.

Lemma play_iter_frames st e s w :
  frames_of (snd (play_iter st e s w))
  = [auframe_init AUFMT_S16LE (buf (fst (fst (play_iter st e s w))))
       (play_sampc st) (play_srate st) 1].
Proof.
  rewrite play_iter_unfold. cbv zeta. cbn [fst snd buf frames_of].
  rewrite !frames_of_app.
  rewrite (sys_only_no_frames _ (get_client_sys_only _ _)).
  rewrite (sys_only_no_frames _ (play_io_sys_only _ _ _ _ _)).
  rewrite (sys_only_no_frames _ (pace_sys_only _ _ _)).
  reflexivity.
Qed.

Lemma src_loop_frames st envs : forall s w,
  frames_of (run_trace (src_loop st envs s w))
  = map (fun r => auframe_init AUFMT_S16LE (buf (fst (fst r)))
                    (src_sampc st) (src_srate st) 1)
      (src_loop st envs s w) /\
  length (src_loop st envs s w) = length envs.
Proof.
  induction envs as [|e envs IH]; intros s w; [split; reflexivity|].
  cbn [src_loop]. cbv zeta. unfold run_trace in *. cbn [map concat length].
  rewrite frames_of_app, src_iter_frames.
  destruct (IH (fst (fst (src_iter st e s w))) (snd (fst (src_iter st e s w))))
    as [-> ->].
  split; reflexivity.
Qed.

Lemma play_loop_frames st envs : forall s w,
  frames_of (run_trace (play_loop st envs s w))
  = map (fun r => auframe_init AUFMT_S16LE (buf (fst (fst r)))
                    (play_sampc st) (play_srate st) 1)
      (play_loop st envs s w) /\
  length (play_loop st envs s w) = length envs.
Proof.
  induction envs as [|e envs IH]; intros s w; [split; reflexivity|].
  cbn [play_loop]. cbv zeta. unfold run_trace in *. cbn [map concat length].
  rewrite frames_of_app, play_iter_frames.
  destruct (IH (fst (fst (play_iter st e s w))) (snd (fst (play_iter st e s w))))
    as [-> ->].
  split; reflexivity.
Qed.

(** X12: over a whole run of either thread of a session made by
    [src_alloc] or [play_alloc], the host is handed exactly one frame per
    pass, in order, each pointing to the loop's buffer of that pass.
    Every frame is declared as S16LE with one channel (whatever
    [prm->ch] and [prm->fmt] are) at the rate of [prm], counts
    [srate * ch * ptime / 1000] samples as computed in [uint32_t], and its
    buffer holds two bytes per sample.  A thread whose buffer cannot be
    allocated ends with [thrd_error] and hands over nothing. *)
Theorem run_hands_one_frame_per_pass
    ok thr prm rh errh wh arg sst pst ts senvs penvs w1 w2 :
  src_alloc ok thr prm rh errh arg = inr sst ->
  play_alloc ok thr prm wh arg = inr pst ->
  let srun := snd (src_thread sst true ts senvs w1) in
  let prun := snd (play_thread pst true ts penvs w2) in
  (frames_of (run_trace srun)
   = map (fun r => auframe_init AUFMT_S16LE (buf (fst (fst r)))
                     (frame_sampc prm) (prm_srate prm) 1) srun /\
   length srun = length senvs /\
   Forall (frame_as_declared prm) (frames_of (run_trace srun)) /\
   src_thread sst false ts senvs w1 = (thrd_error, [])) /\
  (frames_of (run_trace prun)
   = map (fun r => auframe_init AUFMT_S16LE (buf (fst (fst r)))
                     (frame_sampc prm) (prm_srate prm) 1) prun /\
   length prun = length penvs /\
   Forall (frame_as_declared prm) (frames_of (run_trace prun)) /\
   play_thread pst false ts penvs w2 = (thrd_error, [])).
Proof.
  intros Hs Hp srun prun.
  destruct (src_alloc_inv _ _ _ _ _ _ _ Hs) as (Hsc & _ & Hsr & _).
  destruct (play_alloc_inv _ _ _ _ _ _ Hp) as (Hpc & _ & Hpr & _).
  pose proof (frame_sampc_range prm) as Hrange.
  split.
  - pose proof (src_thread_reach sst true ts senvs w1) as Hreach.
    fold srun in Hreach. subst srun. unfold src_thread in *. cbn [snd] in *.
    destruct (src_loop_frames sst senvs (src_start sst ts) w1) as [Hf Hl].
    rewrite Hf, Hsc, Hsr. split; [reflexivity|]. split; [exact Hl|].
    split; [|reflexivity].
    apply Forall_map. eapply Forall_impl; [exact Hreach|].
    intros r Hr. unfold frame_as_declared. cbn.
    repeat split. rewrite (src_reach_length _ _ Hr), Hsc.
    rewrite frame_nbytes_eq by exact Hrange. lia.
  - pose proof (play_thread_reach pst true ts penvs w2) as Hreach.
    fold prun in Hreach. subst prun. unfold play_thread in *. cbn [snd] in *.
    destruct (play_loop_frames pst penvs (play_start pst ts) w2) as [Hf Hl].
    rewrite Hf, Hpc, Hpr. split; [reflexivity|]. split; [exact Hl|].
    split; [|reflexivity].
    apply Forall_map. eapply Forall_impl; [exact Hreach|].
    intros r Hr. unfold frame_as_declared. cbn.
    repeat split. rewrite (play_reach_length _ _ Hr), Hpc.
    rewrite frame_nbytes_eq by exact Hrange. lia.
Qed.

Lemma run_hands_one_frame_per_pass_witness :
  let srun := snd (src_thread src_8k true (at_us 20000) src_envs_timely
                     world_peer) in
  let prun := snd (play_thread play_8k true (at_us 20000) play_envs_timely
                     world_peer) in
  (frames_of (run_trace srun)
   = map (fun r => auframe_init AUFMT_S16LE (buf (fst (fst r)))
                     (frame_sampc prm_8k) (prm_srate prm_8k) 1) srun /\
   length srun = length src_envs_timely /\
   Forall (frame_as_declared prm_8k) (frames_of (run_trace srun)) /\
   src_thread src_8k false (at_us 20000) src_envs_timely world_peer
   = (thrd_error, [])) /\
  (frames_of (run_trace prun)
   = map (fun r => auframe_init AUFMT_S16LE (buf (fst (fst r)))
                     (frame_sampc prm_8k) (prm_srate prm_8k) 1) prun /\
   length prun = length play_envs_timely /\
   Forall (frame_as_declared prm_8k) (frames_of (run_trace prun)) /\
   play_thread play_8k false (at_us 20000) play_envs_timely world_peer
   = (thrd_error, [])).
Proof.
  apply (run_hands_one_frame_per_pass true 0 prm_8k 1 2 1 3 src_8k play_8k
           (at_us 20000) src_envs_timely play_envs_timely world_peer world_peer).
  - reflexivity.
  - reflexivity.
Defined.

(** ** Accepting a peer *)

Lemma polled_app tr1 tr2 : polled (tr1 ++ tr2) = polled tr1 ++ polled tr2.
Proof. induction tr1 as [|[] tr1 IH]; simpl; rewrite ?IH; reflexivity. Qed.

Lemma drop_client_no_accept fd w :
  accepts_of (snd (drop_client fd w)) = [] /\
  polled (snd (drop_client fd w)) = [].
Proof. unfold drop_client, sys_close. case_match; split; reflexivity. Qed.

Lemma read_frame_no_accept fuel fd nbytes rd : forall k off b w,
  accepts_of (snd (read_frame fuel fd nbytes rd k off b w)) = [] /\
  polled (snd (read_frame fuel fd nbytes rd k off b w)) = [].
Proof.
  induction fuel as [|fuel IH]; intros k off b w; simpl.
  - destruct (off <? nbytes); split; reflexivity.
  - destruct (off <? nbytes); [|split; reflexivity].
    destruct (sys_read (nbytes - off) (rd k)) as [n got].
    destruct (n <=? 0).
    + pose proof (drop_client_no_accept fd w) as Hd.
      destruct (drop_client fd w) as [w1 evs]. exact Hd.
    + specialize (IH (S k) (off + n) (store off got b) w).
      destruct (read_frame fuel fd nbytes rd (S k) (off + n) (store off got b) w)
        as [[b' w'] evs]. exact IH.
Qed.

Lemma write_frame_no_accept fuel fd nbytes wr b : forall k off w,
  accepts_of (snd (write_frame fuel fd nbytes wr k off b w)) = [] /\
  polled (snd (write_frame fuel fd nbytes wr k off b w)) = [].
Proof.
  induction fuel as [|fuel IH]; intros k off w; simpl.
  - destruct (off <? nbytes); split; reflexivity.
  - destruct (off <? nbytes); [|split; reflexivity].
    destruct (sys_write (nbytes - off) (wr k) <=? 0).
    + pose proof (drop_client_no_accept fd w) as Hd.
      destruct (drop_client fd w) as [w1 evs]. exact Hd.
    + specialize (IH (S k) (off + sys_write (nbytes - off) (wr k)) w).
      destruct (write_frame fuel fd nbytes wr (S k) _ b w) as [w' evs].
      exact IH.
Qed.

(** [get_client] by cases on the slot and on the answer of [accept]. *)
Lemma get_client_cases ans w :
  (0 <= client_fd w /\ get_client ans w = (client_fd w, w, [])) \/
  (client_fd w < 0 /\ ans < 0 /\
   get_client ans w = (-1, w, [EvAccept (listen_fd w) ans])) \/
  (client_fd w < 0 /\ 0 <= ans /\
   fst (fst (get_client ans w)) = ans /\
   snd (get_client ans w) = [EvAccept (listen_fd w) ans; EvSetFl ans 0] /\
   client_fd (snd (fst (get_client ans w))) = ans /\
   listen_fd (snd (fst (get_client ans w))) = listen_fd w /\
   open_fds (snd (fst (get_client ans w))) = {[ans]} ∪ open_fds w /\
   blocking_fds (snd (fst (get_client ans w))) = {[ans]} ∪ blocking_fds w).
Proof.
  unfold get_client, Slot.lookup, Slot.try_accept, Slot.commit, sys_accept,
    sys_set_blocking.
  destruct (0 <=? client_fd w) eqn:Hslot.
  { left. apply Z.leb_le in Hslot. split; [exact Hslot | reflexivity]. }
  right. pose proof Hslot as Hs. apply Z.leb_gt in Hs.
  destruct (ans <? 0) eqn:Hans; repeat (cbn; rewrite ?Hans, ?Hslot).
  - left. apply Z.ltb_lt in Hans. split; [exact Hs|]. split; [exact Hans | reflexivity].
  - right. apply Z.ltb_ge in Hans.
    split; [exact Hs|]. split; [exact Hans|]. repeat split; reflexivity.
Qed.

Lemma get_client_accepts ans w :
  accepts_of (snd (get_client ans w))
  = (if 0 <=? client_fd w then [] else [(listen_fd w, ans)]) /\
  polled (snd (get_client ans w)) = [] /\
  fst (fst (get_client ans w))
  = (if 0 <=? client_fd w then client_fd w
     else if 0 <=? ans then ans else -1).
Proof.
  destruct (get_client_cases ans w)
    as [(Hs & ->)|[(Hs & Ha & ->)|(Hs & Ha & Hr & -> & _)]]; cbn [fst snd].
  - destruct (Z.leb_spec 0 (client_fd w)); [|lia]. repeat split.
  - destruct (Z.leb_spec 0 (client_fd w)); [lia|].
    destruct (Z.leb_spec 0 ans); [lia|]. repeat split.
  - destruct (Z.leb_spec 0 (client_fd w)); [lia|].
    destruct (Z.leb_spec 0 ans); [|lia]. rewrite Hr. repeat split.
Qed.

(** X13: a pass of either loop calls [accept] only when the slot is
    empty, then exactly once and on the listening socket; a pass that
    starts with a peer never accepts.  So the pass after one that dropped
    its peer accepts again.  A descriptor obtained from [accept] is put in
    blocking mode right away and is the one this very pass goes on with:
    the inbound loop polls it (one [poll] per pass with a peer, none
    without), and the outbound loop never polls. *)
Theorem pass_accepts_when_slot_empty st pst e pe s w :
  let rs := src_iter st e s w in
  let rp := play_iter pst pe s w in
  let peer ans :=
    if 0 <=? client_fd w then client_fd w
    else if 0 <=? ans then ans else -1 in
  accepts_of (snd rs)
  = (if 0 <=? client_fd w then [] else [(listen_fd w, se_accept e)]) /\
  accepts_of (snd rp)
  = (if 0 <=? client_fd w then [] else [(listen_fd w, pe_accept pe)]) /\
  polled (snd rs)
  = (if 0 <=? peer (se_accept e) then [peer (se_accept e)] else []) /\
  polled (snd rp) = [] /\
  Forall (fun x => fst (fst x) = peer (pe_accept pe)) (writes_of (snd rp)) /\
  (forall ans, client_fd w < 0 -> 0 <= ans ->
     snd (get_client ans w) = [EvAccept (listen_fd w) ans; EvSetFl ans 0] /\
     client_fd (snd (fst (get_client ans w))) = ans /\
     (ans ∈ blocking_fds (snd (fst (get_client ans w))))).
Proof.
  intros rs rp peer. subst rs rp.
  destruct (get_client_accepts (se_accept e) w) as (Ha1 & Hp1 & Hr1).
  destruct (get_client_accepts (pe_accept pe) w) as (Ha2 & Hp2 & Hr2).
  fold (peer (se_accept e)) in Hr1. fold (peer (pe_accept pe)) in Hr2.
  destruct (pace_reads_none (frame_ptime_us (src_ptime st)) (next_frame s)
              (clock_us (se_now_pace e))) as (_ & _ & Hpa1).
  destruct (pace_reads_none (frame_ptime_us (play_ptime pst)) (next_frame s)
              (clock_us (pe_now_pace pe))) as (_ & _ & Hpa2).
  assert (Hpp : forall p nf now, polled (snd (pace p nf now)) = []).
  { intros p nf now. unfold pace. destruct (now <? wrap64 (nf + p)); reflexivity. }
  split; [|split; [|split; [|split; [|split]]]].
  - rewrite src_iter_unfold. cbv zeta. cbn [snd].
    rewrite !accepts_of_app, Ha1, Hpa1. cbn [accepts_of]. rewrite !app_nil_r.
    unfold src_io.
    destruct (0 <=? fst (fst (get_client (se_accept e) w)));
      [|cbn [snd accepts_of]; rewrite app_nil_r; reflexivity].
    destruct ((0 <? se_poll_ret e) && negb (Z.land (se_revents e) POLLIN =? 0));
      [|cbn [snd accepts_of]; rewrite app_nil_r; reflexivity].
    pose proof (read_frame_no_accept (Z.to_nat (frame_nbytes (src_sampc st)))
                  (fst (fst (get_client (se_accept e) w)))
                  (frame_nbytes (src_sampc st)) (se_read e) 0 0 (buf s)
                  (snd (fst (get_client (se_accept e) w)))) as [Hra _].
    destruct (read_frame _ _ _ _ _ _ _ _) as [[b w'] evs]. cbn [fst snd] in *.
    cbn [accepts_of]. rewrite Hra, app_nil_r. reflexivity.
  - rewrite play_iter_unfold. cbv zeta. cbn [snd accepts_of].
    rewrite !accepts_of_app, Ha2, Hpa2. rewrite !app_nil_r.
    unfold play_io.
    destruct (0 <=? fst (fst (get_client (pe_accept pe) w)));
      [|cbn [snd accepts_of]; rewrite app_nil_r; reflexivity].
    destruct (write_frame_no_accept (Z.to_nat (frame_nbytes (play_sampc pst)))
                (fst (fst (get_client (pe_accept pe) w)))
                (frame_nbytes (play_sampc pst)) (pe_write pe)
                (host_fill (pe_audio pe) (buf s)) 0 0
                (snd (fst (get_client (pe_accept pe) w)))) as [Hwa _].
    rewrite Hwa, app_nil_r. reflexivity.
  - rewrite src_iter_unfold. cbv zeta. cbn [snd].
    rewrite !polled_app, Hp1, Hpp. cbn [polled app]. rewrite !app_nil_r.
    unfold src_io. rewrite Hr1.
    destruct (0 <=? peer (se_accept e)); [|reflexivity].
    destruct ((0 <? se_poll_ret e) && negb (Z.land (se_revents e) POLLIN =? 0));
      [|reflexivity].
    pose proof (read_frame_no_accept (Z.to_nat (frame_nbytes (src_sampc st)))
                  (peer (se_accept e))
                  (frame_nbytes (src_sampc st)) (se_read e) 0 0 (buf s)
                  (snd (fst (get_client (se_accept e) w)))) as [_ Hrp].
    destruct (read_frame _ _ _ _ _ _ _ _) as [[b w'] evs]. cbn [fst snd] in *.
    cbn [polled]. rewrite Hrp. reflexivity.
  - rewrite play_iter_unfold. cbv zeta. cbn [snd polled].
    rewrite !polled_app, Hp2, Hpp. rewrite !app_nil_r.
    unfold play_io.
    destruct (0 <=? fst (fst (get_client (pe_accept pe) w))); [|reflexivity].
    destruct (write_frame_no_accept (Z.to_nat (frame_nbytes (play_sampc pst)))
                (fst (fst (get_client (pe_accept pe) w)))
                (frame_nbytes (play_sampc pst)) (pe_write pe)
                (host_fill (pe_audio pe) (buf s)) 0 0
                (snd (fst (get_client (pe_accept pe) w)))) as [_ Hwp].
    exact Hwp.
  - rewrite play_iter_unfold. cbv zeta. cbn [snd writes_of].
    destruct (get_client_quiet (pe_accept pe) w) as [_ Hgw].
    destruct (pace_quiet (frame_ptime_us (play_ptime pst)) (next_frame s)
                (clock_us (pe_now_pace pe))) as (_ & Hpw & _).
    rewrite !writes_of_app, Hgw, Hpw, app_nil_r. cbn [app].
    unfold play_io. rewrite Hr2.
    destruct (0 <=? peer (pe_accept pe)); [|constructor].
    pose proof (write_frame_spec (Z.to_nat (frame_nbytes (play_sampc pst)))
                  (peer (pe_accept pe)) (frame_nbytes (play_sampc pst))
                  (pe_write pe) (host_fill (pe_audio pe) (buf s)) 0 0
                  (snd (fst (get_client (pe_accept pe) w)))) as [Hw _].
    eapply Forall_impl; [exact Hw|]. intros x [Hx _]. exact Hx.
  - intros ans Hs Ha.
    destruct (get_client_cases ans w)
      as [(Hs' & _)|[(_ & Ha' & _)|(_ & _ & _ & Htr & Hc & _ & _ & Hb)]];
      [lia | lia |].
    split; [exact Htr|]. split; [exact Hc|].
    rewrite Hb. apply elem_of_union_l, elem_of_singleton. reflexivity.
Qed.

(** ** Two callers of [get_client] with [drop_client] running too *)

Module RaceDropFacts.
Import Race RaceDrop.

Lemma dinv_init w0 : slot_open w0 -> dinv w0 (init w0).
Proof.
  intros Hwf. split; cbn.
  - reflexivity.
  - exact Hwf.
  - intros t fd H; discriminate.
  - intros t fa fb H; discriminate.
  - intros t. reflexivity.
  - intros x Hx. left. exact Hx.
  - intros x _ Hx Hne. split; [exact Hx|]. split; [exact Hne|].
    intros t H; discriminate.
Qed.

(** A step that leaves the shared state alone and neither takes nor gives
    up a descriptor. *)
Lemma dinv_local w0 c who t' :
  dinv w0 c ->
  (forall fd, t_pc (c_thr c who) <> Holding fd) ->
  (forall fd, t_pc t' <> Holding fd) ->
  t_trace t' = t_trace (c_thr c who) ->
  dinv w0 {| c_world := c_world c;
             c_thr := fun t => if tid_eqb t who then t' else c_thr c t |}.
Proof.
  intros [Hl Hso Hh Hd Hc Ho Hk] Hold Hnew Htr. split; cbn.
  - exact Hl.
  - exact Hso.
  - intros t fd. RaceFacts.by_thread t who; [intros H; destruct (Hnew _ H)|].
    apply Hh.
  - intros t fa fb. RaceFacts.by_thread t who.
    + intros H; destruct (Hnew _ H).
    + intros _ H; destruct (Hnew _ H).
  - intros t. RaceFacts.by_thread t who; [rewrite Htr|]; apply Hc.
  - intros x Hx. destruct (Ho x Hx) as [H|[H|[t H]]]; auto.
    right. right. exists t.
    destruct (RaceFacts.tid_cases t who) as [->| ->].
    + destruct (Hold _ H).
    + rewrite RaceFacts.tid_eqb_other. exact H.
  - intros x Hx0 Hx Hne. destruct (Hk x Hx0 Hx Hne) as (H1 & H2 & H3).
    split; [exact H1|]. split; [exact H2|].
    intros t. RaceFacts.by_thread t who; [apply Hnew | apply H3].
Qed.

Lemma filter_bad_app tr1 tr2 :
  List.filter is_bad_close tr1 = [] -> List.filter is_bad_close tr2 = [] ->
  List.filter is_bad_close (tr1 ++ tr2) = [].
Proof. intros H1 H2. rewrite List.filter_app, H1, H2. reflexivity. Qed.

Lemma dinv_step w0 c who ans c' :
  dinv w0 c ->
  (t_pc (c_thr c who) = Accepting -> fresh ans (c_world c)) ->
  step who ans c = Some c' ->
  dinv w0 c'.
Proof.
  intros Hinv Hfresh Hstep.
  unfold step, step_thread in Hstep.
  destruct (t_pc (c_thr c who)) as [|fd| |fd|r|r] eqn:Hpc.
  - inversion Hstep; subst c'; clear Hstep.
    apply dinv_local; [exact Hinv | | | reflexivity].
    + intros fd H; congruence.
    + intros fd H; discriminate.
  - inversion Hstep; subst c'; clear Hstep.
    apply dinv_local; [exact Hinv | | | reflexivity].
    + intros x H; congruence.
    + intros x H; cbn in H. destruct (0 <=? fd); discriminate.
  - (* accept *)
    specialize (Hfresh eq_refl).
    unfold Slot.try_accept, sys_accept in Hstep.
    destruct (ans <? 0) eqn:Hans; cbn in Hstep; rewrite Hans in Hstep;
      inversion Hstep; subst c'; clear Hstep; rewrite ?Hans.
    + destruct Hinv as [Hl Hso Hh Hd Hc Ho Hk]. split; cbn.
      * exact Hl.
      * exact Hso.
      * intros t fd. RaceFacts.by_thread t who; [intros H; discriminate|].
        apply Hh.
      * intros t fa fb. RaceFacts.by_thread t who.
        -- intros H; discriminate.
        -- intros _ H; discriminate.
      * intros t. RaceFacts.by_thread t who; [|apply Hc].
        apply filter_bad_app; [apply Hc | reflexivity].
      * intros x Hx. destruct (Ho x Hx) as [H|[H|[t H]]]; auto.
        right. right. exists t.
        destruct (RaceFacts.tid_cases t who) as [->| ->]; [congruence|].
        rewrite RaceFacts.tid_eqb_other. exact H.
      * intros x Hx0 Hx Hne. destruct (Hk x Hx0 Hx Hne) as (H1 & H2 & H3).
        split; [exact H1|]. split; [exact H2|].
        intros t. RaceFacts.by_thread t who; [discriminate | apply H3].
    + apply Z.ltb_ge in Hans.
      assert (Hnew : ans ∉ open_fds (c_world c)).
      { destruct Hfresh as [H|H]; [lia | exact H]. }
      destruct Hinv as [Hl Hso Hh Hd Hc Ho Hk]. split; cbn.
      * exact Hl.
      * intros H. apply elem_of_union_r, Hso, H.
      * intros t fd. RaceFacts.by_thread t who.
        -- intros H. inversion H; subst fd.
           split; [exact Hans|].
           split; [apply elem_of_union_l, elem_of_singleton; reflexivity|].
           intros Heq. apply Hnew. rewrite Heq. apply Hso. lia.
        -- intros H. destruct (Hh _ _ H) as (H1 & H2 & H3).
           split; [exact H1|]. split; [apply elem_of_union_r, H2 | exact H3].
      * intros t fa fb. RaceFacts.by_thread t who.
        -- intros H H'. inversion H; subst fa.
           destruct (Hh _ _ H') as (_ & H2 & _). intros Heq. subst fb.
           contradiction.
        -- intros H' H. inversion H; subst fb.
           destruct (Hh _ _ H') as (_ & H2 & _). intros Heq. subst fa.
           contradiction.
      * intros t. RaceFacts.by_thread t who; [|apply Hc].
        apply filter_bad_app; [apply Hc | reflexivity].
      * intros x Hx. apply elem_of_union in Hx as [Hx|Hx].
        -- apply elem_of_singleton in Hx. subst x.
           right. right. exists who. rewrite RaceFacts.tid_eqb_refl. reflexivity.
        -- destruct (Ho x Hx) as [H|[H|[t H]]]; auto.
           right. right. exists t.
           destruct (RaceFacts.tid_cases t who) as [->| ->]; [congruence|].
           rewrite RaceFacts.tid_eqb_other. exact H.
      * intros x Hx0 Hx Hne. destruct (Hk x Hx0 Hx Hne) as (H1 & H2 & H3).
        split; [apply elem_of_union_r, H1|]. split; [exact H2|].
        intros t. RaceFacts.by_thread t who; [|apply H3].
        intros H. inversion H; subst x. contradiction.
  - (* second critical section *)
    destruct Hinv as [Hl Hso Hh Hd Hc Ho Hk].
    destruct (Hh _ _ Hpc) as (Hfd0 & Hfdo & Hfdc).
    unfold Slot.commit, sys_close in Hstep.
    destruct (0 <=? client_fd (c_world c)) eqn:Hslot;
      inversion Hstep; subst c'; clear Hstep.
    + apply Z.leb_le in Hslot. split; cbn.
      * exact Hl.
      * intros H. apply elem_of_difference. split; [apply Hso, H|].
        rewrite elem_of_singleton. intros Heq. apply Hfdc. symmetry. exact Heq.
      * intros t x. RaceFacts.by_thread t who; [intros H; discriminate|].
        intros H. destruct (Hh _ _ H) as (H1 & H2 & H3).
        split; [exact H1|]. split; [|exact H3].
        apply elem_of_difference. split; [exact H2|].
        rewrite elem_of_singleton. intros Heq. subst x.
        apply (Hd who fd fd Hpc H). reflexivity.
      * intros t fa fb. RaceFacts.by_thread t who.
        -- intros H; discriminate.
        -- intros _ H; discriminate.
      * intros t. RaceFacts.by_thread t who; [|apply Hc].
        apply filter_bad_app; [apply Hc|].
        cbn. rewrite bool_decide_eq_true_2 by exact Hfdo. reflexivity.
      * intros x Hx. apply elem_of_difference in Hx as [Hx Hne].
        rewrite elem_of_singleton in Hne.
        destruct (Ho x Hx) as [H|[H|[t H]]]; auto.
        right. right. exists t.
        destruct (RaceFacts.tid_cases t who) as [->| ->]; [congruence|].
        rewrite RaceFacts.tid_eqb_other. exact H.
      * intros x Hx0 Hx Hne. destruct (Hk x Hx0 Hx Hne) as (H1 & H2 & H3).
        split; [|split; [exact H2|]].
        -- apply elem_of_difference. split; [exact H1|].
           rewrite elem_of_singleton. intros Heq. subst x.
           exact (H3 who Hpc).
        -- intros t. RaceFacts.by_thread t who; [discriminate | apply H3].
    + apply Z.leb_gt in Hslot. split; cbn.
      * exact Hl.
      * intros _. exact Hfdo.
      * intros t x. RaceFacts.by_thread t who; [intros H; discriminate|].
        intros H. destruct (Hh _ _ H) as (H1 & H2 & H3).
        split; [exact H1|]. split; [exact H2|].
        intros Heq. subst x. apply (Hd who fd fd Hpc H). reflexivity.
      * intros t fa fb. RaceFacts.by_thread t who.
        -- intros H; discriminate.
        -- intros _ H; discriminate.
      * intros t. RaceFacts.by_thread t who; [|apply Hc].
        rewrite app_nil_r. apply Hc.
      * intros x Hx. destruct (Ho x Hx) as [H|[H|[t H]]]; auto.
        -- destruct H. lia.
        -- destruct (RaceFacts.tid_cases t who) as [->| ->].
           ++ right. left. split; congruence.
           ++ right. right. exists (other who).
              rewrite RaceFacts.tid_eqb_other. exact H.
      * intros x Hx0 Hx Hne. destruct (Hk x Hx0 Hx Hne) as (H1 & H2 & H3).
        split; [exact H1|]. split.
        -- intros Heq. subst x. exact (H3 who Hpc).
        -- intros t. RaceFacts.by_thread t who; [discriminate | apply H3].
  - inversion Hstep; subst c'; clear Hstep.
    apply dinv_local; [exact Hinv | | | reflexivity].
    + intros x H; congruence.
    + intros x H; discriminate.
  - discriminate.
Qed.

Lemma dinv_drop w0 c fd : dinv w0 c -> dinv w0 (drop fd c).
Proof.
  intros [Hl Hso Hh Hd Hc Ho Hk]. unfold drop.
  destruct (Z.eq_dec (client_fd (c_world c)) fd) as [Heq|Hne].
  - rewrite (drop_client_held fd _ Heq). cbn [fst sys_close].
    split; unfold slot_open;
      cbn [c_world c_thr listen_fd client_fd open_fds set_client_fd].
    + exact Hl.
    + intros H. lia.
    + intros t x H. destruct (Hh _ _ H) as (H1 & H2 & H3).
      split; [exact H1|]. split; [|lia].
      apply elem_of_difference. split; [exact H2|].
      rewrite elem_of_singleton. congruence.
    + exact Hd.
    + exact Hc.
    + intros x Hx. apply elem_of_difference in Hx as [Hx Hn].
      rewrite elem_of_singleton in Hn.
      destruct (Ho x Hx) as [H|[H|H]]; auto. destruct H. congruence.
    + intros x Hx0 Hx Hn. destruct (Hk x Hx0 Hx Hn) as (H1 & H2 & H3).
      split; [|split; [lia | exact H3]].
      apply elem_of_difference. split; [exact H1|].
      rewrite elem_of_singleton. congruence.
  - rewrite (drop_client_other fd _ Hne). cbn [fst].
    destruct c as [w thr]. split; assumption.
Qed.

Lemma dinv_reach_drop w0 c : slot_open w0 -> reach_drop w0 c -> dinv w0 c.
Proof.
  intros Hwf Hr. induction Hr as [|c who ans c' Hr IH Hf Hs|c fd Hr IH].
  - apply dinv_init, Hwf.
  - exact (dinv_step w0 c who ans c' IH Hf Hs).
  - apply dinv_drop, IH.
Qed.

(** X14: two callers of [get_client] interleaved in any way, with
    [drop_client] running at any point in between (as the two loops do).
    The listening socket stays the same and stays open; the slot never
    names a closed descriptor; no caller closes a descriptor that is not
    open, so none is closed twice; every descriptor opened since the
    start is the one in the slot or one a caller is about to commit, so
    none is leaked; and a descriptor of the rest of the process is never
    closed nor taken into the slot. *)
Theorem drops_keep_descriptors_sound w0 c :
  slot_open w0 -> reach_drop w0 c ->
  listen_fd (c_world c) = listen_fd w0 /\
  slot_open (c_world c) /\
  List.filter is_bad_close (t_trace (c_thr c A) ++ t_trace (c_thr c B)) = [] /\
  (forall x, x ∈ open_fds (c_world c) ->
     (x ∈ open_fds w0) \/ x = client_fd (c_world c) \/
     exists t, t_pc (c_thr c t) = Holding x) /\
  (forall x, 0 <= x -> x ∈ open_fds w0 -> x <> client_fd w0 ->
     (x ∈ open_fds (c_world c)) /\ x <> client_fd (c_world c)) /\
  (0 <= listen_fd w0 -> listen_fd w0 ∈ open_fds w0 ->
   listen_fd w0 <> client_fd w0 ->
   listen_fd (c_world c) ∈ open_fds (c_world c)).
Proof.
  intros Hwf Hr.
  destruct (dinv_reach_drop w0 c Hwf Hr) as [Hl Hso Hh Hd Hc Ho Hk].
  split; [exact Hl|]. split; [exact Hso|].
  split; [apply filter_bad_app; apply Hc|].
  split.
  { intros x Hx. destruct (Ho x Hx) as [H|[[_ H]|H]]; auto. }
  split.
  { intros x Hx0 Hx Hne. destruct (Hk x Hx0 Hx Hne) as (H1 & H2 & _).
    split; assumption. }
  intros H0 Hin Hne. rewrite Hl. apply (Hk _ H0 Hin Hne).
Qed.

Lemma drops_keep_descriptors_sound_witness :
  listen_fd (c_world after_reuse) = listen_fd world_idle /\
  slot_open (c_world after_reuse) /\
  List.filter is_bad_close
    (t_trace (c_thr after_reuse A) ++ t_trace (c_thr after_reuse B)) = [] /\
  (forall x, x ∈ open_fds (c_world after_reuse) ->
     (x ∈ open_fds world_idle) \/ x = client_fd (c_world after_reuse) \/
     exists t, t_pc (c_thr after_reuse t) = Holding x) /\
  (forall x, 0 <= x -> x ∈ open_fds world_idle -> x <> client_fd world_idle ->
     (x ∈ open_fds (c_world after_reuse)) /\ x <> client_fd (c_world after_reuse)) /\
  (0 <= listen_fd world_idle -> listen_fd world_idle ∈ open_fds world_idle ->
   listen_fd world_idle <> client_fd world_idle ->
   listen_fd (c_world after_reuse) ∈ open_fds (c_world after_reuse)).
Proof.
  apply (drops_keep_descriptors_sound world_idle after_reuse).
  - unfold slot_open. simpl. lia.
  - apply (RaceFacts.run_reach_drop world_idle sched_reuse (init world_idle)).
    + apply reach_drop_init.
    + vm_compute. reflexivity.
Defined.

End RaceDropFacts.
